(** * wordflow: the shortcut-detection and expansion engine

    A shallow embedding of the core of [text_expander_app.py]:
    - [on_key_press]: the rolling input buffer and the shortcut matcher;
    - [process_placeholders]: the template evaluator;
    - [replace_text]: the keystroke-simulation replacement protocol;
    - [_process_and_replace_on_main_thread]: the expansion coordinator with
      its bounded recent-history list.

    How the program is modelled:
    - a Python string is a list of 8-bit code points (the Latin-1 range of
      Unicode); [isalnum], [isspace] and the classes of the regular
      expressions are those of Python on this range;
    - a Python integer is a [Z]; [int] refuses a text of more than 4300
      digits, which is the limit CPython sets by default and the program
      never changes;
    - the snippet dictionary is an association list in insertion order;
    - an exception is a [None] or a constructor of its own, and is handled
      where the source handles it;
    - the outside world (clock, clipboard, random generator, input dialog,
      keyboard controller) is a record that is read, and what the program
      does to it is a list of events. *)

From Stdlib Require Import Ascii String Numbers.DecimalString DecimalZ.
From Stdlib Require Import ZArith Lia Bool Arith PeanoNat List.
From Stdlib Require Import Sorting.Sorted Sorting.Permutation.
Import ListNotations.

(** ** Strings and characters *)

Module Str.

Definition str := list ascii.

(** String literals of the source are written [lit "..."]. *)
Definition lit (s : string) : str := list_ascii_of_string s.

Definition code (c : ascii) : N := N_of_ascii c.

Definition between (lo hi : N) (c : ascii) : bool :=
  ((lo <=? code c) && (code c <=? hi))%N.

(** The character class [[0-9]] of the regular expressions. *)
Definition is_digit09 (c : ascii) : bool := between 48 57 c.

(** [str.isalnum] on one character, for code points below 256: the ASCII
    letters and digits, and the Latin-1 letters and numeric characters. *)
Definition isalnum (c : ascii) : bool :=
  between 48 57 c || between 65 90 c || between 97 122 c
  || between 170 170 c || between 178 179 c || between 181 181 c
  || between 185 186 c || between 188 190 c || between 192 214 c
  || between 216 246 c || between 248 255 c.

(** [str.isspace] on one character, which is also the class [\s] of [re]
    on [str] patterns, for code points below 256. *)
Definition isspace (c : ascii) : bool :=
  between 9 13 c || between 28 32 c || between 133 133 c || between 160 160 c.

Definition ascii_eqb (a b : ascii) : bool := Ascii.eqb a b.
Arguments ascii_eqb : simpl never.

(** [s.startswith(p)] *)
Fixpoint startswith (s p : str) {struct p} : bool :=
  match p with
  | [] => true
  | c :: p' =>
      match s with
      | [] => false
      | d :: s' => ascii_eqb d c && startswith s' p'
      end
  end.

(** [s[-n:]] for [0 < n] *)
Definition last_n (n : nat) (s : str) : str := skipn (length s - n) s.

(** [s.endswith(p)] *)
Definition endswith (s p : str) : bool :=
  (length p <=? length s) && startswith (last_n (length p) s) p.

(** [s.rfind(p)]: the highest index at which [p] occurs in [s], or [-1]. *)
Fixpoint rfind_from (s p : str) (i : nat) : Z :=
  if startswith (skipn i s) p then Z.of_nat i
  else match i with
       | O => (-1)%Z
       | S j => rfind_from s p j
       end.

Definition rfind (s p : str) : Z :=
  if length p <=? length s then rfind_from s p (length s - length p)
  else (-1)%Z.

(** [p in s] *)
Fixpoint contains (s p : str) : bool :=
  startswith s p ||
  match s with
  | [] => false
  | _ :: s' => contains s' p
  end.

(** [s.replace(old, new, 1)] for a non-empty [old]: only the first
    occurrence is replaced. *)
Fixpoint replace_first (old new s : str) : str :=
  if startswith s old then new ++ skipn (length old) s
  else match s with
       | [] => []
       | c :: s' => c :: replace_first old new s'
       end.

End Str.
Import Str.

(** ** The shortcut matcher: [on_key_press] *)

Module Matcher.

(** A snippet as [SnippetManager.add_update_snippet] and the default
    snippets store it: every entry has its "text". *)
Record snippet := { text : str; category : str; description : str }.

(** The snippet dictionary [snippet_manager.get_all_snippets()]: a Python
    dict keyed by shortcut, listed in insertion order. *)
Definition snippets := list (str * snippet).

Definition str_eqb (a b : str) : bool :=
  if list_eq_dec ascii_dec a b then true else false.

Definition keys (d : snippets) : list str := map fst d.

(** [d[k]]; [None] stands for [KeyError]. *)
Fixpoint get_item (d : snippets) (k : str) : option snippet :=
  match d with
  | [] => None
  | (k', v) :: d' => if str_eqb k' k then Some v else get_item d' k
  end.

(** The events delivered by the keyboard listener: a [KeyCode] with its
    optional [char], or one of the special keys of [keyboard.Key]. *)
Inductive key :=
| KeyCode (char : option ascii)
| Key_space
| Key_tab
| Key_enter
| Key_esc
| Key_backspace
| Key_other.

Record listener := { is_listening : bool; current_input : str }.

Definition set_input (st : listener) (s : str) : listener :=
  {| is_listening := is_listening st; current_input := s |}.

Definition max_buffer : nat := 60.

(** [sorted(current_snippets.keys(), key=len, reverse=True)]: a stable sort,
    so shortcuts of equal length keep their dictionary order. *)
Fixpoint insert_by_len (s : str) (l : list str) : list str :=
  match l with
  | [] => [s]
  | h :: t => if length h <=? length s then s :: l else h :: insert_by_len s t
  end.

Definition sorted_longest_first (l : list str) : list str :=
  fold_right insert_by_len [] l.

Definition possible_shortcuts (d : snippets) : list str :=
  sorted_longest_first (keys d).

(** [not shortcut[0].isalnum() if shortcut and shortcut[0] else False] *)
Definition is_command_like (shortcut : str) : bool :=
  match shortcut with
  | [] => false
  | c :: _ => negb (isalnum c)
  end.

(** The value of [should_expand] once [endswith] has succeeded; [None]
    stands for an [IndexError] of [current_input[idx - 1]]. *)
Definition should_expand (input shortcut : str) : option bool :=
  if is_command_like shortcut then Some true
  else
    let idx := rfind input shortcut in
    if (idx =? 0)%Z then Some true
    else if (0 <? idx)%Z then
      match nth_error input (Z.to_nat (idx - 1)) with
      | Some c => Some (negb (isalnum c))
      | None => None
      end
    else Some false.

(** What the [for shortcut in possible_shortcuts] loop ends with. *)
Inductive outcome :=
| NoMatch
| Expand (shortcut text : str)
| Raised.

Fixpoint scan (d : snippets) (input : str) (cands : list str) : outcome :=
  match cands with
  | [] => NoMatch
  | shortcut :: rest =>
      if endswith input shortcut then
        match should_expand input shortcut with
        | None => Raised
        | Some true =>
            match get_item d shortcut with
            | Some snippet_data => Expand shortcut (text snippet_data)
            | None => Raised
            end
        | Some false => scan d input rest
        end
      else scan d input rest
  end.

(** Tab, Enter and Escape reset the buffer and return before the scan. *)
Definition resets_buffer (k : key) : bool :=
  match k with
  | Key_tab | Key_enter | Key_esc => true
  | _ => false
  end.

(** The buffer after the key has been applied and the buffer trimmed, for
    the keys that reach the scan. *)
Definition buffered (input : str) (k : key) : str :=
  let char_pressed :=
    match k with
    | KeyCode (Some c) => Some c
    | Key_space => Some " "%char
    | _ => None
    end in
  let input1 :=
    match k with
    | Key_backspace => removelast input
    | _ => match char_pressed with
           | Some c => input ++ [c]
           | None => input
           end
    end in
  if max_buffer <? length input1 then last_n max_buffer input1 else input1.

(** [on_key_press]: the new listener state and the call scheduled on the
    main thread, if any, as (shortcut, text_to_expand). *)
Definition on_key_press (d : snippets) (st : listener) (k : key)
  : listener * option (str * str) :=
  if negb (is_listening st) then (st, None)
  else
    match k with
    | Key_tab | Key_enter | Key_esc => (set_input st [], None)
    | _ =>
        let input := buffered (current_input st) k in
        match scan d input (possible_shortcuts d) with
        | Expand shortcut text_to_expand =>
            (set_input st [], Some (shortcut, text_to_expand))
        | Raised => (set_input st [], None)
        | NoMatch => (set_input st input, None)
        end
    end.

(** A sequence of key events, with the expansions scheduled on the way. *)
Fixpoint run (d : snippets) (st : listener) (ks : list key)
  : listener * list (str * str) :=
  match ks with
  | [] => (st, [])
  | k :: ks' =>
      let '(st1, sched) := on_key_press d st k in
      let '(st2, rest) := run d st1 ks' in
      (st2, match sched with Some e => e :: rest | None => rest end)
  end.

(** The listener as [start_listener] leaves it. *)
Definition started : listener :=
  {| is_listening := true; current_input := [] |}.

Definition typed (s : string) : list key :=
  map (fun c => KeyCode (Some c)) (lit s).

(** *** The expansion condition, in the words of the design *)

Definition command_like (shortcut : str) : Prop :=
  exists c r, shortcut = c :: r /\ isalnum c = false.

(** [shortcut] is a suffix of [input] and it is command-like, or it starts
    at position 0, or the character before it is not alphanumeric. *)
Definition expansion_condition (input shortcut : str) : Prop :=
  exists pre, input = pre ++ shortcut /\
    (command_like shortcut \/ pre = [] \/
     exists pre' c, pre = pre' ++ [c] /\ isalnum c = false).

Definition longer_or_equal (a b : str) : Prop := length b <= length a.

(** No alphanumeric character stands right before the match. *)
Definition boundary (pre : str) : bool :=
  match rev pre with
  | [] => true
  | c :: _ => negb (isalnum c)
  end.

(** The two shortcuts of the example of the design. *)
Definition sig_snippets (v1 v2 : snippet) : snippets :=
  [(lit "/sig", v1); (lit "sig", v2)].

(** The character delivered by a key that appends to the buffer. *)
Definition appended (k : key) : option ascii :=
  match k with
  | KeyCode (Some c) => Some c
  | Key_space => Some " "%char
  | _ => None
  end.

(** "xsig" and 57 more letters overflow the buffer by one, so that the
    leading "x" is dropped; 56 backspaces then leave "sigz" in the buffer,
    one backspace away from "sig" alone at position 0. *)
Definition overflow_then_erase : list key :=
  typed "xsig" ++ repeat (KeyCode (Some "z"%char)) 57
  ++ repeat Key_backspace 56.

Definition sig_only : snippets :=
  [(lit "sig", Build_snippet (lit "signature") [] [])].

End Matcher.
Import Matcher.

(** ** The template evaluator: [process_placeholders] *)

Module Evaluator.

(** *** Leftmost, non-overlapping matches

    [str.replace], [re.sub] and [re.finditer] all walk the text from left to
    right: where a match starts it is taken and the walk goes on behind it,
    elsewhere one character is passed over.  [try_match] tells whether a
    match starts at the head of the text, with its payload and the text that
    follows it.  No pattern of the program matches the empty string. *)

Section Scan.

Variable A : Type.
Variable try_match : str -> option (A * str).

Inductive token :=
| Char (c : ascii)
| Match (a : A).

Fixpoint walk (fuel : nat) (s : str) : list token :=
  match fuel with
  | O => []
  | S fuel' =>
      match s with
      | [] => []
      | c :: s' =>
          match try_match s with
          | Some (a, rest) => Match a :: walk fuel' rest
          | None => Char c :: walk fuel' s'
          end
      end
  end.

Definition tokens (s : str) : list token := walk (length s) s.

Fixpoint matches (ts : list token) : list A :=
  match ts with
  | [] => []
  | Char _ :: ts' => matches ts'
  | Match a :: ts' => a :: matches ts'
  end.

(** No match starts inside [s], whatever follows it. *)
Definition inert (s : str) : Prop :=
  forall x y t, s = x ++ y -> y <> [] -> try_match (y ++ t) = None.

(** A match found in [y] is found in [y ++ t] as well, and none appears:
    the pattern does not look into [t]. *)
Definition local_before (t : str) : Prop :=
  forall y, y <> [] ->
    try_match (y ++ t) =
    match try_match y with
    | Some (a, r) => Some (a, r ++ t)
    | None => None
    end.

End Scan.

Arguments Char {A} c.
Arguments Match {A} a.
Arguments walk {A} try_match fuel s.
Arguments tokens {A} try_match s.
Arguments matches {A} ts.
Arguments inert {A} try_match s.
Arguments local_before {A} try_match t.

(** The longest prefix whose characters satisfy [p], and the rest: a
    greedy [p*]. *)
Fixpoint span (p : ascii -> bool) (s : str) : str * str :=
  match s with
  | [] => ([], [])
  | c :: s' =>
      if p c then let '(a, b) := span p s' in (c :: a, b) else ([], s)
  end.

(** A literal at the head of the text. *)
Definition strip_prefix (p s : str) : option str :=
  if startswith s p then Some (skipn (length p) s) else None.

(** One given character at the head of the text. *)
Definition expect (c : ascii) (s : str) : option str :=
  match s with
  | d :: s' => if ascii_eqb d c then Some s' else None
  | [] => None
  end.

Definition match_literal (old s : str) : option (unit * str) :=
  match strip_prefix old s with
  | Some rest => Some (tt, rest)
  | None => None
  end.

(** [s.replace(old, new)], for a non-empty [old]. *)
Definition replace (old new s : str) : str :=
  flat_map (fun t => match t with Char c => [c] | Match _ => new end)
           (tokens (match_literal old) s).

(** [s.strip()] *)
Fixpoint lstrip (s : str) : str :=
  match s with
  | [] => []
  | c :: s' => if isspace c then lstrip s' else s
  end.

Definition strip (s : str) : str := rev (lstrip (rev (lstrip s))).

(** [str(n)] for an integer.  The integers that the program converts are
    small counts, bounds that [int] has accepted, and numbers drawn between
    two such bounds, so that the limit of [str] on the number of digits is
    not reached. *)
Definition py_str (n : Z) : str := lit (NilZero.string_of_int (Z.to_int n)).

Definition digit_value (c : ascii) : Z := Z.of_N (code c) - 48.

(** The integer written by a string of decimal digits. *)
Definition decimal_value (ds : str) : Z :=
  fold_left (fun acc c => acc * 10 + digit_value c)%Z ds 0%Z.

(** [sys.int_max_str_digits], which the program leaves at its default:
    [int] raises [ValueError] on a text with more decimal digits. *)
Definition int_max_str_digits : Z := 4300.

Definition within_int_limit (ds : str) : bool :=
  (Z.of_nat (length ds) <=? int_max_str_digits)%Z.

(** [int(s)] on the strings that reach it here: decimal digits, possibly
    surrounded by white space.  [None] stands for [ValueError].  (Signs and
    underscores, which [int] also accepts, cannot get past the pattern.) *)
Definition py_int (s : str) : option Z :=
  match strip s with
  | [] => None
  | ds =>
      if forallb is_digit09 ds
      then if within_int_limit ds then Some (decimal_value ds) else None
      else None
  end.

(** [a, b = s.split("-", 1)]; [None] stands for the [ValueError] of the
    unpacking when there is no dash. *)
Definition split_dash (s : str) : option (str * str) :=
  let '(a, b) := span (fun c => negb (ascii_eqb c "-"%char)) s in
  match b with
  | _ :: b' => Some (a, b')
  | [] => None
  end.

(** *** The clock *)

(** [datetime.datetime.now()]; [weekday] is [now.weekday()], 0 for Monday. *)
Record datetime := {
  year : nat; month : nat; day : nat;
  hour : nat; minute : nat;
  weekday : nat
}.

Definition dec (n : nat) : str := lit (NilZero.string_of_uint (Nat.to_uint n)).

Definition pad (width : nat) (n : nat) : str :=
  repeat "0"%char (width - length (dec n)) ++ dec n.

Definition month_names : list str :=
  map lit ["January"; "February"; "March"; "April"; "May"; "June"; "July";
           "August"; "September"; "October"; "November"; "December"]%string.

Definition weekdays : list str :=
  map lit ["Monday"; "Tuesday"; "Wednesday"; "Thursday"; "Friday";
           "Saturday"; "Sunday"]%string.

(** [now.strftime("%m/%d/%Y")] *)
Definition date_text (now : datetime) : str :=
  pad 2 (month now) ++ lit "/" ++ pad 2 (day now) ++ lit "/"
  ++ pad 4 (year now).

(** [now.strftime("%H:%M")] *)
Definition time_text (now : datetime) : str :=
  pad 2 (hour now) ++ lit ":" ++ pad 2 (minute now).

(** [now.strftime("%B %d, %Y")] *)
Definition date_long_text (now : datetime) : str :=
  nth (month now - 1) month_names [] ++ lit " " ++ pad 2 (day now)
  ++ lit ", " ++ pad 4 (year now).

(** [weekdays[now.weekday()]] *)
Definition current_weekday (now : datetime) : str :=
  nth (weekday now) weekdays [].

(** *** The outside world of one evaluation *)

(** The clipboard: [CLIPBOARD_AVAILABLE] is false, or [pyperclip.paste()]
    raises, or it returns a text. *)
Inductive clipboard :=
| ClipboardMissing
| ClipboardRaises
| ClipboardText (s : str).

(** [randint k lo hi] is what the [k]-th call of [random.randint] of this
    evaluation returns on these bounds; [answer k prompt] is what the [k]-th
    input dialog returns (the empty string when it is cancelled). *)
Record world := {
  now : datetime;
  clipboard_state : clipboard;
  randint : nat -> Z -> Z -> Z;
  answer : nat -> str -> str
}.

(** The contract of [random.randint]. *)
Definition randint_in_range (w : world) : Prop :=
  forall k lo hi, (lo <= hi)%Z -> (lo <= randint w k lo hi <= hi)%Z.

Definition get_clipboard_content (w : world) : str :=
  match clipboard_state w with
  | ClipboardMissing => lit "[Clipboard N/A]"
  | ClipboardRaises => lit "[Clipboard Error]"
  | ClipboardText s => s
  end.

(** *** The random placeholders *)

(** A match of [\{random:([0-9]+\s*-\s*[0-9]+)\}] at the head of the text:
    groups 0 and 1, and the text behind the match.  The classes of the
    pattern are pairwise disjoint, so the greedy walk decides the match. *)
Definition match_random (s : str) : option ((str * str) * str) :=
  match strip_prefix (lit "{random:") s with
  | None => None
  | Some r0 =>
      let '(d1, r1) := span is_digit09 r0 in
      let '(w1, r2) := span isspace r1 in
      match d1, expect "-"%char r2 with
      | _ :: _, Some r3 =>
          let '(w2, r4) := span isspace r3 in
          let '(d2, r5) := span is_digit09 r4 in
          match d2, expect "}"%char r5 with
          | _ :: _, Some r6 =>
              let group1 := d1 ++ w1 ++ lit "-" ++ w2 ++ d2 in
              Some ((lit "{random:" ++ group1 ++ lit "}", group1), r6)
          | _, _ => None
          end
      | _, _ => None
      end
  end.

(** [f"[Random Error: min({min_val}) > max({max_val})]"] *)
Definition min_max_marker (min_val max_val : Z) : str :=
  lit "[Random Error: min(" ++ py_str min_val ++ lit ") > max("
  ++ py_str max_val ++ lit ")]".

(** The body of the [try] of [replace_random]: [None] when it raises. *)
Definition replace_random_try (w : world) (k : nat) (group1 : str)
  : option (str * nat) :=
  match split_dash group1 with
  | None => None
  | Some (min_val_str, max_val_str) =>
      match py_int (strip min_val_str) with
      | None => None
      | Some min_val =>
          match py_int (strip max_val_str) with
          | None => None
          | Some max_val =>
              if (min_val <=? max_val)%Z
              then Some (py_str (randint w k min_val max_val), S k)
              else Some (min_max_marker min_val max_val, k)
          end
      end
  end.

(** [replace_random(match_obj)], after [k] calls of [random.randint]: the
    replacement and the number of calls made so far. *)
Definition replace_random (w : world) (k : nat) (m : str * str) : str * nat :=
  match replace_random_try w k (snd m) with
  | Some r => r
  | None => (lit "[Random Error: " ++ fst m ++ lit "]", k)
  end.

Fixpoint sub_random (w : world) (k : nat) (ts : list (token (str * str)))
  : str :=
  match ts with
  | [] => []
  | Char c :: ts' => c :: sub_random w k ts'
  | Match m :: ts' =>
      let '(r, k') := replace_random w k m in r ++ sub_random w k' ts'
  end.

(** The number of calls of [random.randint] after the matches of [ts]. *)
Fixpoint calls_after (w : world) (k : nat) (ts : list (token (str * str)))
  : nat :=
  match ts with
  | [] => k
  | Char _ :: ts' => calls_after w k ts'
  | Match m :: ts' => calls_after w (snd (replace_random w k m)) ts'
  end.

(** [re.sub(r"\{random:([0-9]+\s*-\s*[0-9]+)\}", replace_random, result)],
    when [k] calls of [random.randint] have been made. *)
Definition expand_random_from (w : world) (k : nat) (result : str) : str :=
  sub_random w k (tokens match_random result).

Definition expand_random (w : world) (result : str) : str :=
  expand_random_from w 0 result.

(** *** The input placeholders *)

(** A match of the input pattern at the head of the text: the literal
    "{input:", the longest run of characters other than the closing brace
    (group 1), and a closing brace. *)
Definition match_input (s : str) : option ((str * str) * str) :=
  match strip_prefix (lit "{input:") s with
  | None => None
  | Some r0 =>
      let '(prompt, r1) := span (fun c => negb (ascii_eqb c "}"%char)) r0 in
      match expect "}"%char r1 with
      | Some r2 => Some ((lit "{input:" ++ prompt ++ lit "}", prompt), r2)
      | None => None
      end
  end.

(** [list(re.finditer(input_pattern, result))], as (group 0, group 1). *)
Definition input_matches (result : str) : list (str * str) :=
  matches (tokens match_input result).

(** The first loop: one dialog per match, in order; [k] dialogs have been
    shown before. *)
Fixpoint collect_inputs (w : world) (k : nat) (ms : list (str * str))
  : list (str * str) :=
  match ms with
  | [] => []
  | (full_placeholder, prompt) :: ms' =>
      (full_placeholder, answer w k prompt) :: collect_inputs w (S k) ms'
  end.

(** The second loop: [result = result.replace(original_ph, new_value, 1)]. *)
Definition substitute_inputs (input_values : list (str * str)) (result : str)
  : str :=
  fold_left (fun r pv => replace_first (fst pv) (snd pv) r)
            input_values result.

Definition expand_inputs (w : world) (result : str) : str :=
  substitute_inputs (collect_inputs w 0 (input_matches result)) result.

(** The prompts passed to [_get_expansion_input], in the order of the
    dialogs. *)
Definition requested_inputs (result : str) : list str :=
  map snd (input_matches result).

(** *** The evaluation *)

(** The four date and time substitutions. *)
Definition expand_dates (w : world) (text : str) : str :=
  let result := text in
  let result := replace (lit "{date}") (date_text (now w)) result in
  let result := replace (lit "{time}") (time_text (now w)) result in
  let result := replace (lit "{date_long}") (date_long_text (now w)) result in
  replace (lit "{weekday}") (current_weekday (now w)) result.

Definition expand_clipboard (w : world) (result : str) : str :=
  if contains result (lit "{clipboard}")
  then replace (lit "{clipboard}") (get_clipboard_content w) result
  else result.

(** [result] before the random placeholders are substituted. *)
Definition expand_literals (w : world) (text : str) : str :=
  expand_clipboard w (expand_dates w text).

(** [result] when the input placeholders are about to be collected. *)
Definition before_inputs (w : world) (text : str) : str :=
  expand_random w (expand_literals w text).

(** [process_placeholders(text)]: the returned string. *)
Definition process_placeholders (w : world) (text : str) : str :=
  expand_inputs w (before_inputs w text).

(** The dialogs that [process_placeholders(text)] shows. *)
Definition process_placeholders_dialogs (w : world) (text : str) : list str :=
  requested_inputs (before_inputs w text).

(** *** Substitution in place, in the words of the design

    Every occurrence of an input placeholder is replaced, where it stands,
    by the answer of its own dialog. *)

Fixpoint answers_in_place (w : world) (k : nat)
  (ts : list (token (str * str))) : str :=
  match ts with
  | [] => []
  | Char c :: ts' => c :: answers_in_place w k ts'
  | Match m :: ts' => answer w k (snd m) ++ answers_in_place w (S k) ts'
  end.

Definition expand_inputs_in_place (w : world) (result : str) : str :=
  answers_in_place w 0 (tokens match_input result).

(** The text outside the matches of a pattern. *)
Fixpoint outside {A : Type} (ts : list (token A)) : str :=
  match ts with
  | [] => []
  | Char c :: ts' => c :: outside ts'
  | Match _ :: ts' => outside ts'
  end.

Definition no_open_brace (s : str) : Prop := ~ In "{"%char s.

(** The text that a walk has gone through: the characters passed over and
    group 0 of the matches. *)
Fixpoint spelled (ts : list (token (str * str))) : str :=
  match ts with
  | [] => []
  | Char c :: ts' => c :: spelled ts'
  | Match m :: ts' => fst m ++ spelled ts'
  end.

(** The answers of the dialogs of one evaluation. *)
Definition given_answers (w : world) (result : str) : list str :=
  map snd (collect_inputs w 0 (input_matches result)).

(** *** Vocabulary of the properties *)

(** The text does not go on with a character of the class. *)
Definition stops (p : ascii -> bool) (b : str) : Prop :=
  match b with
  | [] => True
  | c :: _ => p c = false
  end.

Definition random_span (group1 : str) : str :=
  lit "{random:" ++ group1 ++ lit "}".

Definition random_range (d1 w1 w2 d2 : str) : str :=
  d1 ++ w1 ++ lit "-" ++ w2 ++ d2.

Definition input_span (prompt : str) : str :=
  lit "{input:" ++ prompt ++ lit "}".
Arguments input_span : simpl never.

Definition no_close_brace (c : ascii) : bool := negb (ascii_eqb c "}"%char).

Definition render (new : str) (t : token unit) : str :=
  match t with
  | Char c => [c]
  | Match _ => new
  end.

(** The calls of [random.randint] made by the time [re.sub] has gone
    through [s]. *)
Definition random_calls (w : world) (k : nat) (s : str) : nat :=
  calls_after w k (tokens match_random s).

(** The literal placeholders without their opening brace. *)
Definition literal_tails : list str :=
  map lit ["date}"; "time}"; "date_long}"; "weekday}"; "clipboard}"]%string.

(** [b] follows an opening brace, holds no other one, and the block is none
    of the literal placeholders, whatever follows it. *)
Definition passed_over (b : str) : Prop :=
  no_open_brace b /\
  forall l t, In l literal_tails ->
    match_literal ("{"%char :: l) ("{"%char :: b ++ t) = None.

(** *** Templates made of plain text and literal placeholders *)

Inductive literal_tag :=
| Tag_date
| Tag_time
| Tag_date_long
| Tag_weekday
| Tag_clipboard.

Inductive piece :=
| Text (s : str)
| Placeholder (t : literal_tag).

Definition tag_text (t : literal_tag) : str :=
  match t with
  | Tag_date => lit "{date}"
  | Tag_time => lit "{time}"
  | Tag_date_long => lit "{date_long}"
  | Tag_weekday => lit "{weekday}"
  | Tag_clipboard => lit "{clipboard}"
  end.

(** What the design says the placeholder stands for. *)
Definition tag_value (w : world) (t : literal_tag) : str :=
  match t with
  | Tag_date => date_text (now w)
  | Tag_time => time_text (now w)
  | Tag_date_long => date_long_text (now w)
  | Tag_weekday => current_weekday (now w)
  | Tag_clipboard => get_clipboard_content w
  end.

Definition template_of (ps : list piece) : str :=
  flat_map (fun p => match p with
                     | Text s => s
                     | Placeholder t => tag_text t
                     end) ps.

Definition value_of (w : world) (ps : list piece) : str :=
  flat_map (fun p => match p with
                     | Text s => s
                     | Placeholder t => tag_value w t
                     end) ps.

(** The text between the placeholders holds no opening brace. *)
Definition plain_pieces (ps : list piece) : Prop :=
  forall s, In (Text s) ps -> no_open_brace s.

Definition tag_eqb (a b : literal_tag) : bool :=
  match a, b with
  | Tag_date, Tag_date | Tag_time, Tag_time
  | Tag_date_long, Tag_date_long | Tag_weekday, Tag_weekday
  | Tag_clipboard, Tag_clipboard => true
  | _, _ => false
  end.

(** One substitution, seen on the pieces. *)
Definition subst_piece (t : literal_tag) (v : str) (p : piece) : piece :=
  match p with
  | Text s => Text s
  | Placeholder t' => if tag_eqb t t' then Text v else Placeholder t'
  end.

(** The four date and time placeholders. *)
Definition date_placeholders : list str :=
  map lit ["{date}"; "{time}"; "{date_long}"; "{weekday}"]%string.

(** [b] follows an opening brace and holds no other one, and the block
    starts no match of [try_match], whatever follows it. *)
Definition foreign_block {A : Type} (try_match : str -> option (A * str))
  (b : str) : Prop :=
  no_open_brace b /\ forall t, try_match ("{"%char :: b ++ t) = None.

(** *** Sample worlds *)

Definition sample_now : datetime :=
  {| year := 2025; month := 5; day := 20; hour := 9; minute := 5;
     weekday := 1 |}.

(** A generator that always returns the lower bound, and one that always
    returns the upper bound. *)
Definition lowest (k : nat) (lo hi : Z) : Z := lo.
Definition highest (k : nat) (lo hi : Z) : Z := hi.

(** A user who answers the dialogs with the given texts, in order, and
    cancels the dialogs after them. *)
Definition scripted (answers : list str) (k : nat) (prompt : str) : str :=
  nth k answers [].

Definition sample_world (clip : clipboard) (rand : nat -> Z -> Z -> Z)
  (answers : list str) : world :=
  {| now := sample_now; clipboard_state := clip; randint := rand;
     answer := scripted answers |}.

End Evaluator.
Import Evaluator.

(** ** The replacement protocol: [replace_text] *)

Module Protocol.

(** The keys that the protocol sends through [keyboard.Controller]. *)
Inductive sent_key :=
| Key_shift
| Key_left
| Key_delete_back
| Key_cmd
| Key_ctrl
| Key_v.

(** What the protocol does to the outside world, in order.  [Sleep] counts
    milliseconds; [ClipboardPaste] and [ClipboardCopy] are the calls of
    [pyperclip.paste] and [pyperclip.copy]; [TypeChar] is one character sent
    by [kb_controller.type].  Log lines and status updates are left out. *)
Inductive event :=
| Press (k : sent_key)
| Release (k : sent_key)
| Sleep (ms : nat)
| ClipboardPaste
| ClipboardCopy (s : str)
| TypeChar (c : ascii).

(** The machine the protocol runs on: the two availability flags of
    [constants.py], whether [sys.platform] is "darwin", what
    [pyperclip.paste()] returns ([None] when it raises), and whether the
    [n]-th call of [pyperclip.copy] raises. *)
Record platform := {
  KEYBOARD_AVAILABLE : bool;
  CLIPBOARD_AVAILABLE : bool;
  darwin : bool;
  paste_result : option str;
  copy_raises : nat -> bool
}.

(** [with kb_controller.pressed(modifier): body] *)
Definition pressed (modifier : sent_key) (body : list event) : list event :=
  [Press modifier] ++ body ++ [Release modifier].

(** Step 1: Shift held, Left pressed and released [len(shortcut)] times. *)
Definition select_shortcut (shortcut : str) : list event :=
  pressed Key_shift
    (flat_map (fun _ => [Press Key_left; Release Key_left; Sleep 5]) shortcut)
  ++ [Sleep 20].

(** Step 2: one Backspace. *)
Definition delete_selection : list event :=
  [Press Key_delete_back; Release Key_delete_back; Sleep 20].

Definition paste_chord (p : platform) : list event :=
  if darwin p
  then pressed Key_cmd [Press Key_v; Release Key_v]
  else pressed Key_ctrl [Press Key_v; Release Key_v].

(** Step 3 with the clipboard: the first [try] reads the clipboard, the
    second writes the replacement, pastes, and restores what was read. *)
Definition paste_replacement (p : platform) (replacement : str) : list event :=
  let original_clipboard_content := paste_result p in
  [ClipboardPaste] ++ [ClipboardCopy replacement] ++
  if copy_raises p 0 then []
  else
    [Sleep 50] ++ paste_chord p ++ [Sleep 50] ++
    match original_clipboard_content with
    | Some original => [ClipboardCopy original]
    | None => []
    end.

(** Step 3 without the clipboard: [kb_controller.type(replacement)]. *)
Definition type_replacement (replacement : str) : list event :=
  map TypeChar replacement.

(** [replace_text(shortcut, replacement)] *)
Definition replace_text (p : platform) (shortcut replacement : str)
  : list event :=
  if negb (KEYBOARD_AVAILABLE p) then []
  else
    select_shortcut shortcut ++ delete_selection ++
    if CLIPBOARD_AVAILABLE p then paste_replacement p replacement
    else type_replacement replacement.

Definition sent_key_eqb (a b : sent_key) : bool :=
  match a, b with
  | Key_shift, Key_shift | Key_left, Key_left
  | Key_delete_back, Key_delete_back | Key_cmd, Key_cmd
  | Key_ctrl, Key_ctrl | Key_v, Key_v => true
  | _, _ => false
  end.

Definition is_press (k : sent_key) (e : event) : bool :=
  match e with
  | Press k' => sent_key_eqb k k'
  | _ => false
  end.


Definition count (f : event -> bool) (trace : list event) : nat :=
  length (filter f trace).

(** A machine with keyboard and clipboard on which nothing raises. *)
Definition sample_platform (clip : bool) (held : str) : platform :=
  {| KEYBOARD_AVAILABLE := true; CLIPBOARD_AVAILABLE := clip;
     darwin := false; paste_result := Some held;
     copy_raises := fun _ => false |}.

End Protocol.
Import Protocol.

(** ** The expansion coordinator: [_process_and_replace_on_main_thread] *)

Module Coordinator.

(** [shortcut in self.snippet_history] *)
Definition in_history (shortcut : str) (history : list str) : bool :=
  existsb (str_eqb shortcut) history.

(** The update of [self.snippet_history] after an expansion, which is also
    the update made by [save_snippet]. *)
Definition record_history (history : list str) (shortcut : str) : list str :=
  if in_history shortcut history then history
  else
    let appended := history ++ [shortcut] in
    if 10 <? length appended then tl appended else appended.

(** [list.remove]: the first occurrence. *)
Fixpoint remove_first (shortcut : str) (history : list str) : list str :=
  match history with
  | [] => []
  | h :: t => if str_eqb h shortcut then t else h :: remove_first shortcut t
  end.

(** The update of [self.snippet_history] made by [delete_snippet]. *)
Definition forget (history : list str) (shortcut : str) : list str :=
  if in_history shortcut history then remove_first shortcut history
  else history.

Record session := {
  snippet_history : list str;
  status : str
}.

(** [_process_and_replace_on_main_thread(shortcut, text_to_expand)]:
    [raised] tells that the dialog or the keyboard controller raised inside
    the [try]; the history is then left as it is, and what had been sent
    before is not modelled ([None]). *)
Definition process_and_replace (w : world) (p : platform) (raised : bool)
  (s : session) (shortcut text_to_expand : str)
  : session * option (list event) :=
  let processed_text := process_placeholders w text_to_expand in
  let trace := replace_text p shortcut processed_text in
  if raised
  then ({| snippet_history := snippet_history s;
           status := lit "Error expanding: " ++ shortcut |}, None)
  else ({| snippet_history := record_history (snippet_history s) shortcut;
           status := lit "Expanded: " ++ shortcut |}, Some trace).

(** Everything the application does to the history. *)
Inductive history_step :=
| Expanded (shortcut : str)
| Failed (shortcut : str)
| Saved (shortcut : str)
| Deleted (shortcut : str).

Definition step_history (history : list str) (e : history_step) : list str :=
  match e with
  | Expanded shortcut => record_history history shortcut
  | Failed _ => history
  | Saved shortcut => record_history history shortcut
  | Deleted shortcut => forget history shortcut
  end.

(** The history after the steps, from the empty list of [__init__]. *)
Definition history_after (steps : list history_step) : list str :=
  fold_left step_history steps [].

(** *** The listening flag

    [self.is_listening] is written by [__init__], [start_listener] and
    [toggle_listener] only. *)

Inductive app_event :=
| Start_listener (raises : bool)
| Toggle_listener
| Key_pressed (d : snippets) (k : key).

(** [start_listener]; [raises] tells that starting the [keyboard.Listener]
    raised. *)
Definition start_listener (p : platform) (raises : bool) (st : listener)
  : listener :=
  if negb (KEYBOARD_AVAILABLE p) then st
  else if raises then st
  else {| is_listening := true; current_input := current_input st |}.

(** [toggle_listener]: the flag is flipped before the listener is started
    again, where it has to be. *)
Definition toggle_listener (p : platform) (st : listener) : listener :=
  if negb (KEYBOARD_AVAILABLE p) then st
  else {| is_listening := negb (is_listening st);
          current_input := current_input st |}.

Definition app_step (p : platform) (st : listener) (e : app_event)
  : listener * option (str * str) :=
  match e with
  | Start_listener raises => (start_listener p raises st, None)
  | Toggle_listener => (toggle_listener p st, None)
  | Key_pressed d k => on_key_press d st k
  end.


(** The expansions scheduled by a sequence of events, with the state they
    leave. *)
Fixpoint app_run (p : platform) (st : listener) (es : list app_event)
  : listener * list (str * str) :=
  match es with
  | [] => (st, [])
  | e :: es' =>
      let '(st1, sched) := app_step p st e in
      let '(st2, rest) := app_run p st1 es' in
      (st2, match sched with Some x => x :: rest | None => rest end)
  end.

Definition fresh_session : session :=
  {| snippet_history := []; status := lit "Ready" |}.

End Coordinator.
Import Coordinator.

(** ** More built-in operations of Python

    What the snippet manager, the configuration manager and the editor use
    besides the operations above. *)

Module Builtins.

(** The character "\n". *)
Definition newline : ascii := ascii_of_nat 10.

(** [bool(s)] for a string. *)
Definition nonempty (s : str) : bool :=
  match s with
  | [] => false
  | _ :: _ => true
  end.

(** [s.count(c)] for a one-character [c]. *)
Definition count_char (c : ascii) (s : str) : nat :=
  length (filter (ascii_eqb c) s).

(** [sep.join(l)] *)
Fixpoint join (sep : str) (l : list str) : str :=
  match l with
  | [] => []
  | s :: l' =>
      match l' with
      | [] => s
      | _ :: _ => s ++ sep ++ join sep l'
      end
  end.

(** *** [int(s)] in full

    White space around, an optional sign, then decimal digits in which
    single underscores may stand between two digits.  The white space of
    [int] is that of [str.isspace] without the four separators 28 to 31.
    [None] stands for [ValueError], which is also raised when there are
    more digits than [int] converts. *)

Definition int_space (c : ascii) : bool :=
  between 9 13 c || between 32 32 c || between 133 133 c
  || between 160 160 c.

Fixpoint int_lstrip (s : str) : str :=
  match s with
  | [] => []
  | c :: s' => if int_space c then int_lstrip s' else s
  end.

Definition int_strip (s : str) : str := rev (int_lstrip (rev (int_lstrip s))).

(** The digits, read from left to right: [acc] is the value so far and
    [after_digit] tells that the previous character was a digit. *)
Fixpoint int_digits (acc : Z) (after_digit : bool) (s : str) : option Z :=
  match s with
  | [] => if after_digit then Some acc else None
  | c :: s' =>
      if is_digit09 c then int_digits (acc * 10 + digit_value c)%Z true s'
      else if ascii_eqb c "_"%char && after_digit
           then int_digits acc false s'
           else None
  end.

(** The digits behind the sign: [int] counts them, underscores left out,
    and refuses more than [int_max_str_digits] of them. *)
Definition int_limited (r : str) : option Z :=
  match int_digits 0 false r with
  | Some v => if within_int_limit (filter is_digit09 r) then Some v else None
  | None => None
  end.

Definition int_of_str (s : str) : option Z :=
  match int_strip s with
  | [] => None
  | c :: r =>
      if ascii_eqb c "+"%char then int_limited r
      else if ascii_eqb c "-"%char
           then option_map Z.opp (int_limited r)
           else int_limited (c :: r)
  end.

(** *** [s.lower()], for code points below 256 *)

Definition lower_char (c : ascii) : ascii :=
  if between 65 90 c || between 192 214 c || between 216 222 c
  then ascii_of_N (code c + 32)
  else c.

Definition lower (s : str) : str := map lower_char s.

(** *** [sorted(l)] for a list of strings

    Strings are compared code point by code point; the sort is stable. *)

Fixpoint str_ltb (a b : str) : bool :=
  match a, b with
  | _, [] => false
  | [], _ :: _ => true
  | x :: a', y :: b' =>
      (code x <? code y)%N || ((code x =? code y)%N && str_ltb a' b')
  end.

Fixpoint insert_sorted (s : str) (l : list str) : list str :=
  match l with
  | [] => [s]
  | h :: t => if str_ltb h s then h :: insert_sorted s t else s :: l
  end.

Definition sorted (l : list str) : list str := fold_right insert_sorted [] l.

(** [a < b] on strings, as a proposition. *)
Definition str_lt (a b : str) : Prop := str_ltb a b = true.

(** *** A set of strings, listed in the order of the first [add] *)

Definition set_add (x : str) (s : list str) : list str :=
  if existsb (str_eqb x) s then s else s ++ [x].

End Builtins.

(** ** Python dictionaries

    A [dict] keeps its keys in insertion order; an assignment to a key that
    is there keeps the key where it is. *)

Module Dict.

Section Dict.

Variable V : Type.

Definition dict := list (str * V).

(** [d.get(k)] *)
Fixpoint lookup (d : dict) (k : str) : option V :=
  match d with
  | [] => None
  | (k', v) :: d' => if str_eqb k' k then Some v else lookup d' k
  end.

(** [k in d] *)
Definition has_key (d : dict) (k : str) : bool :=
  match lookup d k with
  | Some _ => true
  | None => false
  end.

(** [d.get(k, default)] *)
Definition get (d : dict) (k : str) (default : V) : V :=
  match lookup d k with
  | Some v => v
  | None => default
  end.

(** [d[k] = v] *)
Fixpoint set_item (d : dict) (k : str) (v : V) : dict :=
  match d with
  | [] => [(k, v)]
  | (k', v') :: d' =>
      if str_eqb k' k then (k', v) :: d' else (k', v') :: set_item d' k v
  end.

(** [del d[k]], for a key that is there *)
Fixpoint del_item (d : dict) (k : str) : dict :=
  match d with
  | [] => []
  | (k', v') :: d' =>
      if str_eqb k' k then d' else (k', v') :: del_item d' k
  end.

(** [d.update(other)] *)
Definition update (d other : dict) : dict :=
  fold_left (fun acc e => set_item acc (fst e) (snd e)) other d.

(** The keys of a dictionary are pairwise distinct. *)
Definition distinct_keys (d : dict) : Prop := NoDup (map fst d).

End Dict.

Arguments lookup {V} d k.
Arguments has_key {V} d k.
Arguments get {V} d k default.
Arguments set_item {V} d k v.
Arguments del_item {V} d k.
Arguments update {V} d other.
Arguments distinct_keys {V} d.

End Dict.

(** ** The snippet manager: [snippet_manager.py] *)

Module SnippetManager.

Import Builtins Dict.

Definition general : str := lit "General".

(** [_get_default_snippets()] *)
Definition default_snippets : snippets :=
  [ (lit "/date",
     Build_snippet (lit "{date}") (lit "Date & Time")
                   (lit "Insert current date"));
    (lit "/time",
     Build_snippet (lit "{time}") (lit "Date & Time")
                   (lit "Insert current time"));
    (lit "/datetime",
     Build_snippet (lit "{date} {time}") (lit "Date & Time")
                   (lit "Insert date and time"));
    (lit "/sig",
     Build_snippet (lit "Best regards," ++ newline :: lit "{input:Your Name?}")
                   (lit "Email") (lit "Email signature"));
    (lit "/addr",
     Build_snippet (lit "123 Main St" ++ newline :: lit "Anytown, CA 90210")
                   (lit "Personal") (lit "Sample mailing address"));
    (lit "/meeting",
     Build_snippet
       (lit "Meeting: {input:Meeting title?}" ++ newline
        :: lit "Date: {date}" ++ newline
        :: lit "Time: {time}" ++ newline
        :: lit "Attendees: {input:Attendees?}")
       (lit "Work") (lit "Meeting template with dynamic inputs")) ].

(** [get_snippet(shortcut)] *)
Definition get_snippet (d : snippets) (shortcut : str) : option snippet :=
  lookup d shortcut.

(** [add_update_snippet(shortcut, text, category, description)]: the
    dictionary is assigned to before the file is written; [saved] is what
    [save_snippets()] returns, false when writing the file raised. *)
Definition add_update_snippet (d : snippets) (saved : bool)
  (shortcut text category description : str) : snippets * bool :=
  (set_item d shortcut (Build_snippet text category description), saved).

(** [delete_snippet(shortcut)] *)
Definition delete_snippet (d : snippets) (saved : bool) (shortcut : str)
  : snippets * bool :=
  if has_key d shortcut then (del_item d shortcut, saved) else (d, false).

(** [get_all_categories()], on a dictionary whose entries all have their
    "category", as the entries made by [add_update_snippet] and the default
    ones have. *)
Definition get_all_categories (d : snippets) : list str :=
  let categories :=
    fold_left (fun acc data => set_add (category data) acc) (map snd d) [] in
  let categories := set_add general categories in
  sorted categories.

End SnippetManager.

(** ** The configuration manager: [config_manager.py] *)

Module ConfigManager.

Import Builtins Dict.

(** The values of the configuration: [None], a Boolean, an integer or a
    string. *)
Inductive value :=
| VNone
| VBool (b : bool)
| VInt (n : Z)
| VStr (s : str).

Definition config := dict value.

(** [self.default_config] of the application. *)
Definition default_config : config :=
  [ (lit "theme", VStr (lit "light"));
    (lit "minimize_to_tray", VBool true);
    (lit "start_minimized", VBool false);
    (lit "show_tooltips", VBool true);
    (lit "auto_backup", VBool true);
    (lit "backup_interval_days", VInt 7);
    (lit "last_backup", VNone);
    (lit "default_category", VStr (lit "General")) ].

(** The configuration file: it is not there, or reading it raises, or it
    holds an object. *)
Inductive config_file :=
| File_missing
| File_unreadable
| File_holds (loaded_config : config).

(** [_load_config()] *)
Definition load_config (defaults : config) (f : config_file) : config :=
  match f with
  | File_holds loaded_config => update defaults loaded_config
  | File_missing | File_unreadable => defaults
  end.

(** [get(key, default)]; [default] is [None] when it is not given. *)
Definition get (c : config) (key : str) (default : value) : value :=
  Dict.get c key default.

(** [set(key, value)]: what [save_config()] returns is dropped. *)
Definition set (c : config) (key : str) (v : value) : config :=
  set_item c key v.

(** [reset_to_default()]: the new configuration, and whether it was
    saved. *)
Definition reset_to_default (defaults : config) (saved : bool)
  : config * bool :=
  (defaults, saved).

(** [str(v)] *)
Definition value_str (v : value) : str :=
  match v with
  | VNone => lit "None"
  | VBool true => lit "True"
  | VBool false => lit "False"
  | VInt n => py_str n
  | VStr s => s
  end.

(** [update_backup_interval_from_spinbox()]: the configuration and the
    text of the spin box afterwards, from the text of the spin box. *)
Definition update_backup_interval_from_spinbox (c : config)
  (backup_interval_var : str) : config * str :=
  match int_of_str backup_interval_var with
  | Some val =>
      let val := if (val <? 1)%Z then 1%Z else val in
      let val := if (30 <? val)%Z then 30%Z else val in
      (set c (lit "backup_interval_days") (VInt val), py_str val)
  | None =>
      (c, value_str (get c (lit "backup_interval_days") (VInt 7)))
  end.

End ConfigManager.

(** ** The snippet editor of [text_expander_app.py] *)

Module Editor.

Import Builtins Dict SnippetManager.

(** *** [validate_placeholders] *)

(** A match of the pattern of a brace span at the head of the text: an
    opening brace, the longest run of characters other than the closing
    brace (group 1), and a closing brace. *)
Definition match_placeholder (s : str) : option ((str * str) * str) :=
  match expect "{"%char s with
  | None => None
  | Some r0 =>
      let '(content, r1) := span no_close_brace r0 in
      match expect "}"%char r1 with
      | Some r2 => Some (("{"%char :: content ++ lit "}", content), r2)
      | None => None
      end
  end.

(** What [validate_placeholders] finds. *)
Inductive issue :=
| Unmatched_braces (open_count close_count : nat)
| Missing_prompt (full_placeholder : str)
| Invalid_range_format (full_placeholder : str)
| Min_not_below_max (full_placeholder : str)
| Range_not_numeric (full_placeholder : str)
| Unknown_placeholder (full_placeholder : str).

(** The string appended to [invalid] for an issue. *)
Definition issue_text (i : issue) : str :=
  match i with
  | Unmatched_braces open_count close_count =>
      lit "Unmatched braces: " ++ py_str (Z.of_nat open_count)
      ++ lit " opening, " ++ py_str (Z.of_nat close_count) ++ lit " closing"
  | Missing_prompt full_placeholder =>
      full_placeholder ++ lit " (missing prompt)"
  | Invalid_range_format full_placeholder =>
      full_placeholder ++ lit " (invalid range format, e.g., 1-100)"
  | Min_not_below_max full_placeholder =>
      full_placeholder ++ lit " (min value >= max value)"
  | Range_not_numeric full_placeholder =>
      full_placeholder ++ lit " (range values not numeric)"
  | Unknown_placeholder full_placeholder =>
      full_placeholder ++ lit " (unknown placeholder)"
  end.

Definition literal_names : list str :=
  map lit ["date"; "time"; "date_long"; "weekday"; "clipboard"]%string.

(** The branch of a "random:" placeholder. *)
Definition check_range (full_placeholder range_str : str) : list issue :=
  if negb (nonempty range_str) || negb (contains range_str (lit "-"))
  then [Invalid_range_format full_placeholder]
  else
    match split_dash range_str with
    | None => [Range_not_numeric full_placeholder]
    | Some (min_val_str, max_val_str) =>
        match int_of_str (strip min_val_str) with
        | None => [Range_not_numeric full_placeholder]
        | Some min_val =>
            match int_of_str (strip max_val_str) with
            | None => [Range_not_numeric full_placeholder]
            | Some max_val =>
                if (min_val >=? max_val)%Z
                then [Min_not_below_max full_placeholder]
                else []
            end
        end
    end.

(** The body of the loop over the matches, on (group 0, group 1). *)
Definition check_placeholder (m : str * str) : list issue :=
  let full_placeholder := fst m in
  let placeholder_content := snd m in
  if existsb (str_eqb placeholder_content) literal_names then []
  else if startswith placeholder_content (lit "input:") then
    let prompt := skipn 6 placeholder_content in
    if negb (nonempty prompt) then [Missing_prompt full_placeholder] else []
  else if startswith placeholder_content (lit "random:") then
    check_range full_placeholder (skipn 7 placeholder_content)
  else [Unknown_placeholder full_placeholder].

Definition check_braces (text : str) : list issue :=
  let open_count := count_char "{"%char text in
  let close_count := count_char "}"%char text in
  if negb (open_count =? close_count)
  then [Unmatched_braces open_count close_count]
  else [].

Definition issues (text : str) : list issue :=
  check_braces text
  ++ flat_map check_placeholder (matches (tokens match_placeholder text)).

(** [validate_placeholders(text)] *)
Definition validate_placeholders (text : str) : list str :=
  map issue_text (issues text).

(** *** [highlight_placeholders] *)

(** The tags of the editor. *)
Inductive editor_tag :=
| input_placeholder
| placeholder
| unknown_placeholder.

Definition known_placeholders : list str :=
  map lit ["{date}"; "{time}"; "{date_long}"; "{weekday}"; "{clipboard}"]%string.

Definition tag_of (full_placeholder : str) : editor_tag :=
  if startswith full_placeholder (lit "{input:") then input_placeholder
  else if existsb (str_eqb full_placeholder) known_placeholders
          || startswith full_placeholder (lit "{random:")
  then placeholder
  else unknown_placeholder.

(** [match.start()], [match.end()] and group 0 of the matches of a walk
    that begins at position [pos]. *)
Fixpoint locate (pos : nat) (ts : list (token (str * str)))
  : list (nat * nat * str) :=
  match ts with
  | [] => []
  | Char _ :: ts' => locate (S pos) ts'
  | Match m :: ts' =>
      (pos, pos + length (fst m), fst m)
      :: locate (pos + length (fst m)) ts'
  end.

(** The calls of [tag_add] made by [highlight_placeholders()] on the text
    of the editor: the tag with its first and its last position, counted
    in characters from the start. *)
Definition highlight_placeholders (text_content : str)
  : list (editor_tag * nat * nat) :=
  map (fun '(start_idx_char, end_idx_char, full_placeholder) =>
         (tag_of full_placeholder, start_idx_char, end_idx_char))
      (locate 0 (tokens match_placeholder text_content)).

(** [text[i:j]] for [i <= j] *)
Definition slice (text : str) (i j : nat) : str := firstn (j - i) (skipn i text).

(** *** [insert_placeholder] *)

(** The branch of "{input:name}": [prompt] is what [get_simple_input]
    returned, [None] when the dialog was cancelled. *)
Definition insert_input_placeholder (prompt : option str) : str :=
  match prompt with
  | Some ((_ :: _) as prompt) =>
      let prompt := strip prompt in
      if negb (endswith prompt (lit "?")) && negb (endswith prompt (lit ":"))
         && negb (endswith prompt (lit "."))
      then lit "{input:" ++ prompt ++ lit "?}"
      else lit "{input:" ++ prompt ++ lit "}"
  | _ => lit "{input:?}"
  end.

(** The branch of "{random:1-100}". *)
Definition insert_random_placeholder (range_input : option str) : str :=
  match range_input with
  | Some range_input =>
      if nonempty range_input && contains range_input (lit "-") then
        match split_dash range_input with
        | None => lit "{random:1-100}"
        | Some (a, b) =>
            let min_val := strip a in
            let max_val := strip b in
            match int_of_str min_val, int_of_str max_val with
            | Some _, Some _ =>
                lit "{random:" ++ min_val ++ lit "-" ++ max_val ++ lit "}"
            | _, _ => lit "{random:1-100}"
            end
        end
      else lit "{random:1-100}"
  | None => lit "{random:1-100}"
  end.

(** [insert_placeholder(placeholder)]: the text inserted at the cursor;
    [entered] is what the dialog returns, when one is shown. *)
Definition insert_placeholder (placeholder : str) (entered : option str)
  : str :=
  if str_eqb placeholder (lit "{input:name}")
  then insert_input_placeholder entered
  else if str_eqb placeholder (lit "{random:1-100}")
  then insert_random_placeholder entered
  else placeholder.

(** The placeholders of the buttons of the editor. *)
Definition placeholder_buttons : list str :=
  map lit ["{date}"; "{time}"; "{date_long}"; "{weekday}"; "{input:name}";
           "{clipboard}"; "{random:1-100}"]%string.

(** *** [refresh_snippet_list] *)

Definition all_categories : str := lit "All Categories".

(** The body of the loop of [refresh_snippet_list]: the row inserted for
    [shortcut], if it passes the two filters. *)
Definition row_of (search category_filter shortcut : str)
  (snippet_data : snippet) : list (str * str) :=
  if nonempty search
     && (negb (contains (lower shortcut) search)
         && negb (contains (lower (text snippet_data)) search)
         && negb (contains (lower (description snippet_data)) search))
  then []
  else if negb (str_eqb category_filter all_categories)
          && negb (str_eqb (category snippet_data) category_filter)
  then []
  else [(shortcut, category snippet_data)].

(** [refresh_snippet_list()]: the rows of the list, as (shortcut,
    category), and the status line. *)
Definition refresh_snippet_list (search_var category_filter_var : str)
  (d : snippets) : list (str * str) * str :=
  let search := lower search_var in
  let category_filter := category_filter_var in
  let sorted_shortcuts := sorted (keys d) in
  let rows :=
    flat_map (fun shortcut =>
                match get_snippet d shortcut with
                | Some snippet_data =>
                    row_of search category_filter shortcut snippet_data
                | None => []
                end) sorted_shortcuts in
  let count := length rows in
  (rows,
   if (count =? 0)
      && (nonempty search || negb (str_eqb category_filter all_categories))
   then lit "No snippets match the current filter"
   else lit "Showing " ++ py_str (Z.of_nat count) ++ lit " snippets").

(** *** [save_snippet] and [delete_snippet] *)

(** The variables of the editor and of the two filters above the list. *)
Record fields := {
  shortcut_var : str;
  editor_text : str;
  category_var : str;
  description_var : str;
  search_var : str;
  category_filter_var : str
}.

(** The message boxes. *)
Inductive box :=
| show_error (title message : str)
| show_info (title message : str)
| show_confirm (title message : str).

(** What the user interface works on: the dictionary of the snippet
    manager, the recent history, the rows of the list and the status
    line. *)
Record app := {
  snippets_of : snippets;
  history_of : list str;
  rows_of : list (str * str);
  status_of : str
}.

(** The list and the status line after [refresh_snippet_list()]. *)
Definition refreshed (e : fields) (d : snippets) (history : list str) : app :=
  let '(rows, status) :=
    refresh_snippet_list (search_var e) (category_filter_var e) d in
  {| snippets_of := d; history_of := history; rows_of := rows;
     status_of := status |}.

(** [save_snippet()]: [confirm] is the answer to "Save anyway?", [saved]
    tells whether the snippets file could be written.  The status
    "Saved: ..." is set before the list is refreshed, and the refresh sets
    the status line again.  ([refresh_categories] and the success
    indicator, which follow, touch none of this.) *)
Definition save_snippet (e : fields) (confirm saved : bool) (a : app)
  : app * list box :=
  let shortcut := strip (shortcut_var e) in
  let text := strip (editor_text e) in
  let category :=
    if nonempty (strip (category_var e)) then strip (category_var e)
    else general in
  let description := strip (description_var e) in
  if negb (nonempty shortcut) then
    (a, [show_error (lit "Validation Error") (lit "Shortcut cannot be empty")])
  else if negb (nonempty text) then
    (a, [show_error (lit "Validation Error") (lit "Content cannot be empty")])
  else
    let invalid_placeholders := validate_placeholders text in
    let asked :=
      match invalid_placeholders with
      | [] => []
      | _ :: _ =>
          [show_confirm (lit "Invalid Placeholders")
             (lit "The following placeholders appear invalid: "
              ++ join (lit ", ") invalid_placeholders
              ++ newline :: newline :: lit "Save anyway?")]
      end in
    let declined :=
      match invalid_placeholders with
      | [] => false
      | _ :: _ => negb confirm
      end in
    if declined then (a, asked)
    else
      let '(d, ok) :=
        add_update_snippet (snippets_of a) saved shortcut text category
                           description in
      if ok then
        (refreshed e d (record_history (history_of a) shortcut), asked)
      else
        ({| snippets_of := d;
            history_of := history_of a;
            rows_of := rows_of a;
            status_of := status_of a |},
         asked ++ [show_error (lit "Save Error") (lit "Failed to save snippet")]).

(** [delete_snippet()]: [selection] is the shortcut of the selected row of
    the list, if one is selected; [confirm] is the answer to the
    confirmation.  When the file could not be written the snippet is gone
    from the dictionary all the same, and neither the history nor the list
    is brought up to date.  ([clear_editor], which empties the variables of
    the editor after the refresh, is left out.) *)
Definition delete_snippet (selection : option str) (e : fields)
  (confirm saved : bool) (a : app) : app * list box :=
  let shortcut :=
    match selection with
    | None => strip (shortcut_var e)
    | Some shortcut => shortcut
    end in
  if negb (nonempty shortcut)
     || negb (has_key (snippets_of a) shortcut)
  then (a, [show_info (lit "No Selection")
              (lit "Please select a snippet to delete or ensure shortcut field is filled.")])
  else
    let asked :=
      [show_confirm (lit "Confirm Delete")
         (lit "Delete snippet '" ++ shortcut ++ lit "'?")] in
    if confirm then
      let '(d, ok) :=
        SnippetManager.delete_snippet (snippets_of a) saved shortcut in
      if ok then
        (refreshed e d (forget (history_of a) shortcut), asked)
      else
        ({| snippets_of := d;
            history_of := history_of a;
            rows_of := rows_of a;
            status_of := status_of a |},
         asked ++ [show_error (lit "Delete Error")
                     (lit "Failed to delete snippet.")])
    else (a, asked).

End Editor.

(** ** The input dialog of an expansion: [_get_expansion_input] *)

Module InputDialog.

(** The label of the dialog, from [prompt_text]. *)
Definition dialog_label (prompt_text : str) : str :=
  match prompt_text with
  | [] => lit "Enter text:"
  | _ :: _ =>
      if negb (endswith prompt_text (lit "?"))
         && negb (endswith prompt_text (lit ":"))
      then prompt_text ++ lit ":"
      else prompt_text
  end.

(** The position given to the dialog: [last_mouse_pos] is where the mouse
    was last seen, (0, 0) when it was never seen; the dialog is [width] by
    [height] on a screen of [screen_width] by [screen_height]. *)
Definition dialog_position (last_mouse_pos : Z * Z)
  (width height screen_width screen_height : Z) : Z * Z :=
  let '(x_pos, y_pos) := last_mouse_pos in
  if (x_pos =? 0)%Z && (y_pos =? 0)%Z then
    ((screen_width / 2) - (width / 2), (screen_height / 2) - (height / 2))%Z
  else
    let x_pos := (x_pos + 20)%Z in
    let y_pos := (y_pos + 20)%Z in
    let x_pos :=
      if (screen_width <? x_pos + width)%Z then (screen_width - width)%Z
      else x_pos in
    let y_pos :=
      if (screen_height <? y_pos + height)%Z then (screen_height - height)%Z
      else y_pos in
    let x_pos := if (x_pos <? 0)%Z then 0%Z else x_pos in
    let y_pos := if (y_pos <? 0)%Z then 0%Z else y_pos in
    (x_pos, y_pos).

End InputDialog.

(** ** What the replacement protocol leaves on the clipboard *)

Module ClipboardEffects.

(** The clipboard after the events, when it held [held] before them and
    [n] calls of [pyperclip.copy] had been made: a call that does not raise
    sets the clipboard, and a call that raises leaves it as it was. *)
Fixpoint clipboard_after (p : platform) (n : nat) (held : str)
  (trace : list event) : str :=
  match trace with
  | [] => held
  | ClipboardCopy s :: trace' =>
      clipboard_after p (S n) (if copy_raises p n then held else s) trace'
  | _ :: trace' => clipboard_after p n held trace'
  end.

End ClipboardEffects.

(** ** Vocabulary of the further properties *)

Module Terms.

Import Builtins Editor.

(** [p] occurs in [b]. *)
Definition occurs_in (p b : str) : Prop := exists x y, b = x ++ p ++ y.

Definition not_brace (c : ascii) : bool :=
  negb (ascii_eqb c "{"%char) && negb (ascii_eqb c "}"%char).

(** The text holds no brace. *)
Definition brace_free (s : str) : bool := forallb not_brace s.

(** A string of decimal digits, at least one. *)
Definition digits (d : str) : bool := nonempty d && forallb is_digit09 d.

(** *** Templates written with the placeholders of the design

    Text without braces, the five literal placeholders, input placeholders
    and random placeholders with their two bounds, which [int] converts
    when they have no more than [int_max_str_digits] digits. *)

Inductive element :=
| Plain_text (s : str)
| Literal (t : literal_tag)
| Input (prompt : str)
| Random (min_digits max_digits : str).

Definition element_text (e : element) : str :=
  match e with
  | Plain_text s => s
  | Literal t => tag_text t
  | Input prompt => input_span prompt
  | Random min_digits max_digits =>
      random_span (random_range min_digits [] [] max_digits)
  end.

Definition template (es : list element) : str := flat_map element_text es.

Definition tag_name (t : literal_tag) : str :=
  match t with
  | Tag_date => lit "date"
  | Tag_time => lit "time"
  | Tag_date_long => lit "date_long"
  | Tag_weekday => lit "weekday"
  | Tag_clipboard => lit "clipboard"
  end.

(** What stands between the braces of a placeholder. *)
Definition content (e : element) : option str :=
  match e with
  | Plain_text _ => None
  | Literal t => Some (tag_name t)
  | Input prompt => Some (lit "input:" ++ prompt)
  | Random min_digits max_digits =>
      Some (lit "random:" ++ random_range min_digits [] [] max_digits)
  end.

Definition well_formed (e : element) : bool :=
  match e with
  | Plain_text s => brace_free s
  | Literal _ => true
  | Input prompt => brace_free prompt
  | Random min_digits max_digits =>
      digits min_digits && digits max_digits
      && within_int_limit min_digits && within_int_limit max_digits
  end.

(** What the design says a template stands for: every placeholder is
    replaced where it stands, the random placeholders by the successive
    draws of the generator and the input placeholders by the answers of the
    successive dialogs; [calls] draws and [dialogs] dialogs came before. *)
Fixpoint render (w : world) (calls dialogs : nat) (es : list element)
  : str :=
  match es with
  | [] => []
  | Plain_text s :: es' => s ++ render w calls dialogs es'
  | Literal t :: es' => tag_value w t ++ render w calls dialogs es'
  | Input prompt :: es' =>
      answer w dialogs prompt ++ render w calls (S dialogs) es'
  | Random min_digits max_digits :: es' =>
      let min_val := decimal_value min_digits in
      let max_val := decimal_value max_digits in
      if (min_val <=? max_val)%Z
      then py_str (randint w calls min_val max_val)
           ++ render w (S calls) dialogs es'
      else min_max_marker min_val max_val ++ render w calls dialogs es'
  end.

(** An element once the date, time and clipboard placeholders have been
    substituted. *)
Definition literals_done (w : world) (e : element) : str :=
  match e with
  | Literal t => tag_value w t
  | _ => element_text e
  end.

(** A template once the random placeholders have been substituted as
    well. *)
Fixpoint randoms_done (w : world) (calls : nat) (es : list element) : str :=
  match es with
  | [] => []
  | Random min_digits max_digits :: es' =>
      let min_val := decimal_value min_digits in
      let max_val := decimal_value max_digits in
      if (min_val <=? max_val)%Z
      then py_str (randint w calls min_val max_val)
           ++ randoms_done w (S calls) es'
      else min_max_marker min_val max_val ++ randoms_done w calls es'
  | e :: es' => literals_done w e ++ randoms_done w calls es'
  end.

(** The prompts of the input placeholders, in order. *)
Definition prompts (es : list element) : list str :=
  flat_map (fun e => match e with
                     | Input prompt => [prompt]
                     | _ => []
                     end) es.

(** What the validation has to say about one element. *)
Definition element_issues (e : element) : list issue :=
  match e with
  | Input [] => [Missing_prompt (element_text e)]
  | Random min_digits max_digits =>
      if (decimal_value min_digits >=? decimal_value max_digits)%Z
      then [Min_not_below_max (element_text e)]
      else []
  | _ => []
  end.

(** The world answers no dialog with an opening brace. *)
Definition plain_answers (w : world) : Prop :=
  forall k prompt, no_open_brace (answer w k prompt).

(** *** Validation and highlighting *)

(** The placeholders reported as unknown. *)
Definition reported_unknown (l : list issue) : list str :=
  flat_map (fun i => match i with
                     | Unknown_placeholder full_placeholder =>
                         [full_placeholder]
                     | _ => []
                     end) l.

Definition is_unknown (t : editor_tag) : bool :=
  match t with
  | unknown_placeholder => true
  | _ => false
  end.

(** The pieces of the text that carry the tag "unknown_placeholder". *)
Definition highlighted_unknown (text_content : str) : list str :=
  flat_map (fun '(t, start_idx_char, end_idx_char) =>
              if is_unknown t
              then [slice text_content start_idx_char end_idx_char]
              else [])
           (highlight_placeholders text_content).

(** No issue, or the range whose minimum is not below its maximum. *)
Definition at_most_range_order (full_placeholder : str) (l : list issue)
  : Prop :=
  l = [] \/ l = [Min_not_below_max full_placeholder].

End Terms.

(** * Properties *)

(** ** Facts about strings *)

Module StrFacts.

Lemma startswith_app (p r : str) : startswith (p ++ r) p = true.
Proof.
  induction p as [|c p IH]; simpl; [reflexivity|].
  unfold ascii_eqb. rewrite Ascii.eqb_refl. exact IH.
Qed.

Lemma startswith_inv (s p : str) :
  startswith s p = true -> exists r, s = p ++ r.
Proof.
  revert s. induction p as [|c p IH]; intros s H; simpl in *.
  - exists s. reflexivity.
  - destruct s as [|d s]; [discriminate|].
    apply andb_true_iff in H. destruct H as [Hc Hp].
    apply Ascii.eqb_eq in Hc. subst d.
    destruct (IH _ Hp) as [r ->]. exists r. reflexivity.
Qed.

Lemma startswith_same_length (s p : str) :
  startswith s p = true -> length s = length p -> s = p.
Proof.
  intros H L. destruct (startswith_inv _ _ H) as [r ->].
  rewrite length_app in L. destruct r; [apply app_nil_r|simpl in L; lia].
Qed.

Lemma last_n_app (pre p : str) : last_n (length p) (pre ++ p) = p.
Proof.
  unfold last_n. rewrite length_app.
  replace (length pre + length p - length p) with (length pre + 0) by lia.
  rewrite skipn_app, Nat.add_0_r, skipn_all.
  replace (length pre - length pre) with 0 by lia. reflexivity.
Qed.

Lemma endswith_app (pre p : str) : endswith (pre ++ p) p = true.
Proof.
  unfold endswith. rewrite last_n_app, length_app.
  apply andb_true_iff. split.
  - apply Nat.leb_le. lia.
  - rewrite <- (app_nil_r p) at 1. apply startswith_app.
Qed.

Lemma endswith_inv (s p : str) :
  endswith s p = true -> exists pre, s = pre ++ p.
Proof.
  unfold endswith, last_n. intros H.
  apply andb_true_iff in H. destruct H as [Hl Hs].
  apply Nat.leb_le in Hl.
  exists (firstn (length s - length p) s).
  rewrite <- (firstn_skipn (length s - length p) s) at 1.
  f_equal. apply startswith_same_length; [exact Hs|].
  rewrite length_skipn. lia.
Qed.

(** When [p] is a suffix of [s], [rfind] returns the start of that suffix. *)
Lemma rfind_suffix (pre p : str) :
  rfind (pre ++ p) p = Z.of_nat (length pre).
Proof.
  unfold rfind. rewrite length_app.
  replace (length p <=? length pre + length p) with true
    by (symmetry; apply Nat.leb_le; lia).
  replace (length pre + length p - length p) with (length pre) by lia.
  assert (E : startswith (skipn (length pre) (pre ++ p)) p = true).
  { rewrite skipn_app, skipn_all, Nat.sub_diag. simpl.
    rewrite <- (app_nil_r p) at 1. apply startswith_app. }
  destruct (length pre); simpl; simpl in E; rewrite E; reflexivity.
Qed.

End StrFacts.
Import StrFacts.

(** ** Facts about the matcher *)

Module MatcherFacts.

Lemma str_eqb_eq (a b : str) : str_eqb a b = true <-> a = b.
Proof.
  unfold str_eqb. destruct (list_eq_dec ascii_dec a b); split;
    intros; congruence.
Qed.

Lemma get_item_keys (d : snippets) (k : str) :
  In k (keys d) -> exists v, get_item d k = Some v /\ In (k, v) d.
Proof.
  induction d as [|[k' v'] d IH]; simpl; [tauto|].
  intros H. destruct (str_eqb k' k) eqn:E.
  - apply str_eqb_eq in E. subst. eauto.
  - destruct H as [H|H].
    + apply str_eqb_eq in H. congruence.
    + destruct (IH H) as (v & Hv & Hin). eauto.
Qed.

(** *** The order of the candidates *)

Lemma insert_by_len_perm (s : str) (l : list str) :
  Permutation (insert_by_len s l) (s :: l).
Proof.
  induction l as [|h t IH]; simpl; [apply Permutation_refl|].
  destruct (length h <=? length s); [apply Permutation_refl|].
  eapply perm_trans; [apply perm_skip, IH|apply perm_swap].
Qed.

Lemma sorted_longest_first_perm (l : list str) :
  Permutation (sorted_longest_first l) l.
Proof.
  induction l as [|s l IH]; simpl; [constructor|].
  eapply perm_trans; [apply insert_by_len_perm|apply perm_skip, IH].
Qed.

Lemma insert_by_len_sorted (s : str) (l : list str) :
  StronglySorted longer_or_equal l ->
  StronglySorted longer_or_equal (insert_by_len s l).
Proof.
  induction 1 as [|h t Hs IH Hall]; simpl.
  - repeat constructor.
  - destruct (length h <=? length s) eqn:E.
    + apply Nat.leb_le in E. constructor; [constructor; assumption|].
      constructor; [exact E|].
      eapply Forall_impl; [|exact Hall].
      unfold longer_or_equal. intros; lia.
    + apply Nat.leb_gt in E. constructor; [exact IH|].
      eapply Permutation_Forall;
        [apply Permutation_sym, insert_by_len_perm|].
      constructor; [unfold longer_or_equal; lia|exact Hall].
Qed.

Lemma sorted_longest_first_sorted (l : list str) :
  StronglySorted longer_or_equal (sorted_longest_first l).
Proof.
  induction l; simpl; [constructor|apply insert_by_len_sorted; assumption].
Qed.

Lemma possible_shortcuts_In (d : snippets) (s : str) :
  In s (possible_shortcuts d) <-> In s (keys d).
Proof.
  unfold possible_shortcuts. split; apply Permutation_in;
    [|apply Permutation_sym]; apply sorted_longest_first_perm.
Qed.

(** *** The expansion test of one candidate *)

Lemma should_expand_suffix (pre s : str) :
  should_expand (pre ++ s) s = Some (is_command_like s || boundary pre).
Proof.
  unfold should_expand. destruct (is_command_like s); [reflexivity|].
  rewrite rfind_suffix. simpl orb.
  destruct pre as [|c p _] using rev_ind; [reflexivity|].
  unfold boundary. rewrite rev_unit, length_app. simpl length.
  replace (Z.of_nat (length p + 1) =? 0)%Z with false
    by (symmetry; apply Z.eqb_neq; lia).
  replace (0 <? Z.of_nat (length p + 1))%Z with true
    by (symmetry; apply Z.ltb_lt; lia).
  replace (Z.to_nat (Z.of_nat (length p + 1) - 1)) with (length p + 0) by lia.
  rewrite <- !app_assoc, nth_error_app2 by lia.
  replace (length p + 0 - length p) with 0 by lia. reflexivity.
Qed.

Lemma is_command_like_iff (s : str) :
  is_command_like s = true <-> command_like s.
Proof.
  unfold command_like. destruct s as [|c r]; simpl; split.
  - discriminate.
  - intros (c & r & H & _). discriminate.
  - intros H. exists c, r. split; [reflexivity|].
    apply negb_true_iff. exact H.
  - intros (c' & r' & H & Hc). injection H as -> ->.
    apply negb_true_iff. exact Hc.
Qed.

Lemma boundary_iff (pre : str) :
  boundary pre = true <->
  pre = [] \/ exists pre' c, pre = pre' ++ [c] /\ isalnum c = false.
Proof.
  unfold boundary. destruct pre as [|a p _] using rev_ind.
  - simpl. tauto.
  - rewrite rev_unit. rewrite negb_true_iff. split.
    + intros H. right. eauto.
    + intros [H|(q & c & H & Hc)].
      * destruct p; discriminate.
      * apply app_inj_tail in H. destruct H as [_ ->]. exact Hc.
Qed.

(** The test computed by the loop body is the expansion condition. *)
Lemma fires_iff (input s : str) :
  endswith input s = true /\ should_expand input s = Some true <->
  expansion_condition input s.
Proof.
  unfold expansion_condition. split.
  - intros [He Hs]. destruct (endswith_inv _ _ He) as [pre ->].
    exists pre. split; [reflexivity|].
    rewrite should_expand_suffix in Hs. injection Hs as Hs.
    apply orb_true_iff in Hs. destruct Hs as [Hs|Hs].
    + left. apply is_command_like_iff. exact Hs.
    + right. apply boundary_iff. exact Hs.
  - intros (pre & -> & H). split; [apply endswith_app|].
    rewrite should_expand_suffix. f_equal. apply orb_true_iff.
    destruct H as [H|H]; [left; apply is_command_like_iff|
                          right; apply boundary_iff]; exact H.
Qed.

Lemma should_expand_total (input s : str) :
  endswith input s = true -> should_expand input s <> None.
Proof.
  intros He. destruct (endswith_inv _ _ He) as [pre ->].
  rewrite should_expand_suffix. discriminate.
Qed.

(** *** The loop over the candidates *)

Lemma scan_spec (d : snippets) (input : str) (cands : list str) :
  (forall s, In s cands -> In s (keys d)) ->
  match scan d input cands with
  | Expand s t =>
      exists l1 l2 v, cands = l1 ++ s :: l2 /\
        (forall x, In x l1 -> ~ expansion_condition input x) /\
        expansion_condition input s /\
        get_item d s = Some v /\ t = text v
  | NoMatch => forall x, In x cands -> ~ expansion_condition input x
  | Raised => False
  end.
Proof.
  induction cands as [|c cands IH]; intros Hk; simpl.
  - tauto.
  - assert (Hk' : forall s, In s cands -> In s (keys d))
      by (intros; apply Hk; right; assumption).
    specialize (IH Hk').
    assert (Hskip : ~ expansion_condition input c ->
      match scan d input cands with
      | Expand s t =>
          exists l1 l2 v, c :: cands = l1 ++ s :: l2 /\
            (forall x, In x l1 -> ~ expansion_condition input x) /\
            expansion_condition input s /\
            get_item d s = Some v /\ t = text v
      | NoMatch =>
          forall x, c = x \/ In x cands -> ~ expansion_condition input x
      | Raised => False
      end).
    { intros Hc. destruct (scan d input cands) as [|s t|].
      - intros x [<-|Hx]; [exact Hc|apply IH, Hx].
      - destruct IH as (l1 & l2 & v & -> & Hl1 & Hs & Hv).
        exists (c :: l1), l2, v. split; [reflexivity|].
        split; [|tauto].
        intros x [<-|Hx]; [exact Hc|apply Hl1, Hx].
      - exact IH. }
    destruct (endswith input c) eqn:He.
    + destruct (should_expand input c) as [[|]|] eqn:Hs.
      * destruct (get_item_keys d c) as (v & Hv & _);
          [apply Hk; left; reflexivity|].
        rewrite Hv. exists [], cands, v.
        split; [reflexivity|]. split; [intros x []|].
        split; [apply fires_iff; tauto|tauto].
      * apply Hskip. intros H. apply fires_iff in H. destruct H. congruence.
      * exact (should_expand_total _ _ He Hs).
    + apply Hskip. intros H. apply fires_iff in H. destruct H. congruence.
Qed.

Lemma sorted_split_longest (l1 l2 : list str) (s x : str) :
  StronglySorted longer_or_equal (l1 ++ s :: l2) ->
  In x l2 -> length x <= length s.
Proof.
  induction l1 as [|h l1 IH]; simpl; intros H Hx.
  - inversion H as [|? ? _ Hall]; subst.
    rewrite Forall_forall in Hall. apply Hall, Hx.
  - inversion H; subst. apply IH; assumption.
Qed.

(** The scan selects the first candidate of the longest-first order that
    meets its expansion condition, hence a longest one. *)
Lemma scan_possible_shortcuts (d : snippets) (input : str) :
  match scan d input (possible_shortcuts d) with
  | Expand s t =>
      (exists v, In (s, v) d /\ get_item d s = Some v /\ t = text v) /\
      expansion_condition input s /\
      (exists l1 l2, possible_shortcuts d = l1 ++ s :: l2 /\
         forall x, In x l1 -> ~ expansion_condition input x) /\
      (forall s', In s' (keys d) -> expansion_condition input s' ->
                  length s' <= length s)
  | NoMatch => forall s', In s' (keys d) -> ~ expansion_condition input s'
  | Raised => False
  end.
Proof.
  pose proof (scan_spec d input (possible_shortcuts d)
                (fun s => proj1 (possible_shortcuts_In d s))) as H.
  destruct (scan d input (possible_shortcuts d)) as [|s t|].
  - intros s' Hs'. apply H, possible_shortcuts_In, Hs'.
  - destruct H as (l1 & l2 & v & E & Hl1 & Hs & Hv & Ht).
    split.
    { exists v. split; [|tauto].
      assert (Hin : In s (keys d)).
      { apply possible_shortcuts_In. rewrite E. apply in_elt. }
      destruct (get_item_keys d s Hin) as (v' & Hv' & Hin').
      congruence. }
    split; [exact Hs|]. split; [eauto|].
    intros s' Hin Hc. apply possible_shortcuts_In in Hin.
    rewrite E in Hin. apply in_app_or in Hin.
    destruct Hin as [Hin|[<-|Hin]].
    + exfalso. exact (Hl1 _ Hin Hc).
    + lia.
    + eapply sorted_split_longest; [|exact Hin].
      rewrite <- E. apply sorted_longest_first_sorted.
  - exact H.
Qed.

(** *** The buffer *)

Lemma last_n_length (n : nat) (s : str) : length (last_n n s) <= n.
Proof. unfold last_n. rewrite length_skipn. lia. Qed.

Lemma buffered_length (input : str) (k : key) :
  length (buffered input k) <= max_buffer.
Proof.
  unfold buffered.
  match goal with |- context [if ?b then _ else _] => destruct b eqn:E end.
  - apply last_n_length.
  - apply Nat.ltb_ge in E. exact E.
Qed.

End MatcherFacts.
Import MatcherFacts.

(** ** Facts about the walk over the matches *)

Module ScanFacts.

Section Walk.

Variable A : Type.
Variable try_match : str -> option (A * str).

(** A match is not empty: the text behind it is shorter. *)
Hypothesis try_match_shrinks :
  forall s a rest, try_match s = Some (a, rest) -> length rest < length s.

Lemma walk_enough (fuel : nat) (s : str) :
  length s <= fuel -> walk try_match fuel s = walk try_match (length s) s.
Proof.
  revert s. induction fuel as [fuel IH] using lt_wf_ind. intros s Hs.
  destruct s as [|c s']; [destruct fuel; reflexivity|].
  destruct fuel as [|fuel]; [simpl in Hs; lia|].
  simpl in *. destruct (try_match (c :: s')) as [[a rest]|] eqn:E.
  - apply try_match_shrinks in E. simpl in E.
    rewrite (IH fuel) by lia. rewrite (IH (length s')) by lia. reflexivity.
  - rewrite (IH fuel) by lia. reflexivity.
Qed.

Lemma tokens_nil : tokens try_match [] = [].
Proof. reflexivity. Qed.

(** The equation of the walk. *)
Lemma tokens_cons (c : ascii) (s : str) :
  tokens try_match (c :: s) =
  match try_match (c :: s) with
  | Some (a, rest) => Match a :: tokens try_match rest
  | None => Char c :: tokens try_match s
  end.
Proof.
  unfold tokens. simpl.
  destruct (try_match (c :: s)) as [[a rest]|] eqn:E; [|reflexivity].
  apply try_match_shrinks in E. simpl in E.
  rewrite walk_enough by lia. reflexivity.
Qed.

Lemma tokens_match_head (b t : str) (a : A) :
  b <> [] -> try_match (b ++ t) = Some (a, t) ->
  tokens try_match (b ++ t) = Match a :: tokens try_match t.
Proof.
  intros Hb E. destruct b as [|c b]; [congruence|].
  simpl in *. rewrite tokens_cons, E. reflexivity.
Qed.

Lemma inert_nil : inert try_match [].
Proof.
  intros x y t E Hy. symmetry in E. apply app_eq_nil in E. tauto.
Qed.

Lemma inert_tail (c : ascii) (s : str) :
  inert try_match (c :: s) -> inert try_match s.
Proof. intros H x y t E. apply (H (c :: x)). simpl. congruence. Qed.

Lemma inert_app (a b : str) :
  inert try_match a -> inert try_match b -> inert try_match (a ++ b).
Proof.
  intros Ha Hb x y t E Hy. apply app_eq_app in E.
  destruct E as [l [[-> ->]|[-> ->]]].
  - destruct l as [|c l].
    + simpl. apply (Hb [] b); [reflexivity|].
      intros ->. simpl in Hy. congruence.
    + rewrite <- app_assoc. apply (Ha x (c :: l)); [reflexivity|discriminate].
  - apply (Hb l y); [reflexivity|assumption].
Qed.

Lemma tokens_inert (s t : str) :
  inert try_match s ->
  tokens try_match (s ++ t) = map Char s ++ tokens try_match t.
Proof.
  induction s as [|c s IH]; intros H; [reflexivity|].
  simpl. rewrite tokens_cons.
  change (c :: s ++ t) with ((c :: s) ++ t).
  rewrite (H [] (c :: s) t eq_refl) by discriminate.
  rewrite IH by (eapply inert_tail; eassumption). reflexivity.
Qed.

Lemma tokens_inert_all (s : str) :
  inert try_match s -> tokens try_match s = map Char s.
Proof.
  intros H. rewrite <- (app_nil_r s) at 1.
  rewrite tokens_inert, tokens_nil, app_nil_r by assumption. reflexivity.
Qed.

Lemma tokens_local (t : str) (s : str) :
  local_before try_match t ->
  tokens try_match (s ++ t) = tokens try_match s ++ tokens try_match t.
Proof.
  intros Hloc. remember (length s) as n eqn:Hn.
  revert s Hn. induction n as [n IH] using lt_wf_ind. intros s Hn.
  destruct s as [|c s]; [reflexivity|].
  change ((c :: s) ++ t) with (c :: (s ++ t)).
  rewrite !tokens_cons.
  change (c :: (s ++ t)) with ((c :: s) ++ t).
  rewrite (Hloc (c :: s)) by discriminate.
  destruct (try_match (c :: s)) as [[a r]|] eqn:E.
  - apply try_match_shrinks in E.
    rewrite (IH (length r)) by (subst; auto). reflexivity.
  - simpl in Hn. rewrite (IH (length s)) by (subst; auto). reflexivity.
Qed.

(** Every match of the walk is a match of the pattern somewhere. *)
Lemma matches_tokens_inv (s : str) (a : A) :
  In a (matches (tokens try_match s)) ->
  exists s' rest, try_match s' = Some (a, rest).
Proof.
  remember (length s) as n eqn:Hn. revert s Hn.
  induction n as [n IH] using lt_wf_ind. intros s Hn.
  destruct s as [|c s]; [intros []|].
  rewrite tokens_cons.
  destruct (try_match (c :: s)) as [[a' rest]|] eqn:E; simpl.
  - intros [<-|H]; [eauto|].
    apply try_match_shrinks in E.
    apply (IH (length rest)) with (s := rest); subst; auto.
  - simpl in Hn. apply (IH (length s)); subst; auto.
Qed.

End Walk.

Section Spelled.

Variable try_match : str -> option ((str * str) * str).

(** A match is group 0, not empty, at the head of the text. *)
Hypothesis try_match_text :
  forall s m rest, try_match s = Some (m, rest) ->
                   s = fst m ++ rest /\ fst m <> [].

Lemma text_shrinks (s : str) (m : str * str) (rest : str) :
  try_match s = Some (m, rest) -> length rest < length s.
Proof.
  intros H. destruct (try_match_text _ _ _ H) as [-> Hm].
  rewrite length_app. destruct (fst m); [congruence|simpl; lia].
Qed.

Lemma tokens_spelled (s : str) : spelled (tokens try_match s) = s.
Proof.
  remember (length s) as n eqn:Hn. revert s Hn.
  induction n as [n IH] using lt_wf_ind. intros s Hn.
  destruct s as [|c s]; [reflexivity|].
  rewrite (tokens_cons _ try_match text_shrinks).
  destruct (try_match (c :: s)) as [[m rest]|] eqn:E.
  - pose proof (text_shrinks _ _ _ E) as Hlt.
    destruct (try_match_text _ _ _ E) as [E' _].
    simpl. rewrite (IH (length rest)) by (subst; auto).
    symmetry. exact E'.
  - simpl in *. rewrite (IH (length s)) by (subst; auto). reflexivity.
Qed.

End Spelled.

Lemma outside_map_Char (A : Type) (s : str) :
  outside (map (@Char A) s) = s.
Proof. induction s; simpl; congruence. Qed.

Lemma matches_map_Char (A : Type) (s : str) :
  matches (map (@Char A) s) = [].
Proof. induction s; simpl; congruence. Qed.

Lemma matches_app (A : Type) (a b : list (token A)) :
  matches (a ++ b) = matches a ++ matches b.
Proof.
  induction a as [|[c|m] a IH]; simpl; [reflexivity|exact IH|].
  rewrite IH. reflexivity.
Qed.

End ScanFacts.
Import ScanFacts.

(** ** Facts about the patterns *)

Module PatternFacts.

Ltac ascii_cases c :=
  destruct c as [[] [] [] [] [] [] [] []]; vm_compute;
  try discriminate; try reflexivity; auto.

(** Closes [no_open_brace s] for a given text [s]. *)
Ltac no_brace :=
  vm_compute; intros H;
  repeat (destruct H as [H|H]; [discriminate H|]); exact H.

Lemma digit_not_space (c : ascii) : is_digit09 c = true -> isspace c = false.
Proof. ascii_cases c. Qed.

Lemma digit_not_dash (c : ascii) :
  is_digit09 c = true -> ascii_eqb c "-"%char = false.
Proof. ascii_cases c. Qed.

Lemma space_not_dash (c : ascii) :
  isspace c = true -> ascii_eqb c "-"%char = false.
Proof. ascii_cases c. Qed.

Lemma ascii_eqb_eq (a b : ascii) : ascii_eqb a b = true <-> a = b.
Proof. apply Ascii.eqb_eq. Qed.

Lemma ascii_eqb_neq (a b : ascii) : ascii_eqb a b = false <-> a <> b.
Proof. apply Ascii.eqb_neq. Qed.

(** *** [span] *)

Lemma span_app_stop (p : ascii -> bool) (a b : str) :
  forallb p a = true -> stops p b -> span p (a ++ b) = (a, b).
Proof.
  intros Ha Hb. induction a as [|c a IH]; simpl in *.
  - destruct b as [|d b]; [reflexivity|]. simpl in *. rewrite Hb. reflexivity.
  - apply andb_true_iff in Ha. destruct Ha as [Hc Ha].
    rewrite Hc, (IH Ha). reflexivity.
Qed.

Lemma span_decomp (p : ascii -> bool) (s a b : str) :
  span p s = (a, b) -> s = a ++ b /\ forallb p a = true /\ stops p b.
Proof.
  revert a b. induction s as [|c s IH]; simpl; intros a b E.
  - injection E as <- <-. simpl. auto.
  - destruct (p c) eqn:Hc.
    + destruct (span p s) as [a' b'] eqn:E'. injection E as <- <-.
      destruct (IH _ _ eq_refl) as (-> & Ha & Hb). simpl. rewrite Hc. auto.
    + injection E as <- <-. simpl. auto.
Qed.

Lemma span_local (p : ascii -> bool) (y : str) (c : ascii) (t : str) :
  p c = false ->
  span p (y ++ c :: t) = (fst (span p y), snd (span p y) ++ c :: t).
Proof.
  intros Hc. destruct (span p y) as [a b] eqn:E.
  destruct (span_decomp _ _ _ _ E) as (-> & Ha & Hb).
  rewrite <- app_assoc. simpl fst. simpl snd. apply span_app_stop; [exact Ha|].
  destruct b; simpl; assumption.
Qed.

(** *** Literals *)

Lemma strip_prefix_app (l r : str) : strip_prefix l (l ++ r) = Some r.
Proof.
  unfold strip_prefix. rewrite startswith_app.
  rewrite skipn_app, skipn_all, Nat.sub_diag. reflexivity.
Qed.

Lemma strip_prefix_inv (l s r : str) :
  strip_prefix l s = Some r -> s = l ++ r.
Proof.
  unfold strip_prefix. destruct (startswith s l) eqn:E; [|discriminate].
  intros H. injection H as <-.
  destruct (startswith_inv _ _ E) as [r ->].
  rewrite skipn_app, skipn_all, Nat.sub_diag. reflexivity.
Qed.

Lemma strip_prefix_head (c d : ascii) (l s : str) :
  d <> c -> strip_prefix (c :: l) (d :: s) = None.
Proof.
  intros H. unfold strip_prefix. simpl.
  apply ascii_eqb_neq in H. rewrite H. reflexivity.
Qed.

Lemma startswith_local (l y t : str) :
  no_open_brace l ->
  startswith (y ++ "{"%char :: t) l = startswith y l.
Proof.
  unfold no_open_brace. revert y. induction l as [|c l IH]; intros y Hl.
  - reflexivity.
  - assert (Hc : "{"%char <> c)
      by (intros E; apply Hl; left; symmetry; exact E).
    assert (Hl' : ~ In "{"%char l) by (intros H; apply Hl; right; exact H).
    destruct y as [|d y]; simpl.
    + apply ascii_eqb_neq in Hc. rewrite Hc. reflexivity.
    + rewrite (IH y Hl'). reflexivity.
Qed.

(** A literal that opens with its only brace does not look behind the next
    opening brace. *)
Lemma strip_prefix_local (c : ascii) (l y t : str) :
  no_open_brace l -> y <> [] ->
  strip_prefix (c :: l) (y ++ "{"%char :: t) =
  match strip_prefix (c :: l) y with
  | Some r => Some (r ++ "{"%char :: t)
  | None => None
  end.
Proof.
  intros Hl Hy. destruct y as [|d y]; [congruence|].
  unfold strip_prefix. simpl startswith.
  rewrite (startswith_local l y t Hl).
  destruct (ascii_eqb d c && startswith y l) eqn:E; [|reflexivity].
  apply andb_true_iff in E. destruct E as [_ E].
  destruct (startswith_inv _ _ E) as [r ->].
  simpl. rewrite <- app_assoc.
  rewrite !skipn_app, !skipn_all, !Nat.sub_diag. reflexivity.
Qed.

Lemma expect_inv (c : ascii) (s r : str) :
  expect c s = Some r -> s = c :: r.
Proof.
  destruct s as [|d s]; simpl; [discriminate|].
  destruct (ascii_eqb d c) eqn:E; [|discriminate].
  apply ascii_eqb_eq in E. congruence.
Qed.

Lemma expect_cons (c : ascii) (r : str) : expect c (c :: r) = Some r.
Proof.
  simpl. replace (ascii_eqb c c) with true; [reflexivity|].
  symmetry. apply ascii_eqb_eq. reflexivity.
Qed.

Lemma expect_local (c : ascii) (r t : str) :
  c <> "{"%char ->
  expect c (r ++ "{"%char :: t) =
  match expect c r with
  | Some r' => Some (r' ++ "{"%char :: t)
  | None => None
  end.
Proof.
  intros Hc. destruct r as [|d r]; simpl.
  - replace (ascii_eqb "{" c) with false; [reflexivity|].
    symmetry. apply ascii_eqb_neq. congruence.
  - destruct (ascii_eqb d c); reflexivity.
Qed.

Lemma match_literal_shrinks (old : str) :
  old <> [] ->
  forall s a rest, match_literal old s = Some (a, rest) ->
                   length rest < length s.
Proof.
  intros Ho s a rest. unfold match_literal.
  destruct (strip_prefix old s) as [r|] eqn:E; [|discriminate].
  intros H. injection H as _ <-. apply strip_prefix_inv in E. subst s.
  rewrite length_app. destruct old; [congruence|simpl; lia].
Qed.

(** *** The random pattern *)

Lemma match_random_inv (s g0 g1 rest : str) :
  match_random s = Some ((g0, g1), rest) ->
  s = g0 ++ rest /\ g0 = random_span g1 /\
  exists d1 w1 w2 d2,
    g1 = random_range d1 w1 w2 d2 /\
    d1 <> [] /\ d2 <> [] /\
    forallb is_digit09 d1 = true /\ forallb is_digit09 d2 = true /\
    forallb isspace w1 = true /\ forallb isspace w2 = true.
Proof.
  unfold match_random.
  destruct (strip_prefix (lit "{random:") s) as [r0|] eqn:E0; [|discriminate].
  apply strip_prefix_inv in E0.
  destruct (span is_digit09 r0) as [d1 r1] eqn:E1.
  destruct (span isspace r1) as [w1 r2] eqn:E2.
  destruct d1 as [|c1 d1]; [discriminate|].
  destruct (expect "-"%char r2) as [r3|] eqn:X1; [|discriminate].
  destruct (span isspace r3) as [w2 r4] eqn:E3.
  destruct (span is_digit09 r4) as [d2 r5] eqn:E4.
  destruct d2 as [|c3 d2]; [discriminate|].
  destruct (expect "}"%char r5) as [r6|] eqn:X2; [|discriminate].
  intros H. injection H as <- <- <-.
  apply expect_inv in X1, X2.
  destruct (span_decomp _ _ _ _ E1) as (-> & H1 & _).
  destruct (span_decomp _ _ _ _ E2) as (E2' & H2 & _).
  destruct (span_decomp _ _ _ _ E3) as (E3' & H3 & _).
  destruct (span_decomp _ _ _ _ E4) as (E4' & H4 & _).
  subst. split.
  - unfold random_range. simpl. repeat rewrite <- app_assoc.
    simpl. repeat (f_equal; try rewrite <- app_assoc; simpl).
  - split; [reflexivity|].
    exists (c1 :: d1), w1, w2, (c3 :: d2).
    repeat split; try assumption; discriminate.
Qed.

Lemma match_random_shrinks (s : str) (a : str * str) (rest : str) :
  match_random s = Some (a, rest) -> length rest < length s.
Proof.
  destruct a as [g0 g1]. intros H.
  destruct (match_random_inv _ _ _ _ H) as (-> & -> & _).
  rewrite length_app. unfold random_span. simpl. lia.
Qed.

Lemma space_not_digit (c : ascii) : isspace c = true -> is_digit09 c = false.
Proof. ascii_cases c. Qed.

Lemma forallb_head (p q : ascii -> bool) (a b : str) :
  (forall c, p c = true -> q c = false) ->
  forallb p a = true -> stops q b -> a <> [] -> stops q (a ++ b).
Proof.
  intros Hpq Ha Hb Hne. destruct a as [|c a]; [congruence|].
  simpl in *. apply andb_true_iff in Ha. apply Hpq. tauto.
Qed.

(** The pattern matches a well-formed occurrence, whatever follows. *)
Lemma match_random_occ (d1 w1 w2 d2 post : str) :
  d1 <> [] -> d2 <> [] ->
  forallb is_digit09 d1 = true -> forallb is_digit09 d2 = true ->
  forallb isspace w1 = true -> forallb isspace w2 = true ->
  let group1 := random_range d1 w1 w2 d2 in
  match_random (random_span group1 ++ post)
  = Some ((random_span group1, group1), post).
Proof.
  intros N1 N2 D1 D2 W1 W2 group1. unfold match_random.
  unfold group1, random_span, random_range.
  repeat rewrite <- app_assoc. rewrite strip_prefix_app.
  rewrite (span_app_stop is_digit09 d1); [|exact D1|].
  2:{ destruct w1 as [|c w1]; [reflexivity|].
      simpl in *. apply andb_true_iff in W1.
      apply space_not_digit. tauto. }
  rewrite (span_app_stop isspace w1); [|exact W1|reflexivity].
  destruct d1 as [|c1 d1]; [congruence|].
  change (lit "-" ++ w2 ++ d2 ++ lit "}" ++ post)
    with ("-"%char :: w2 ++ d2 ++ lit "}" ++ post).
  rewrite expect_cons.
  rewrite (span_app_stop isspace w2); [|exact W2|].
  2:{ apply forallb_head with (p := is_digit09);
        [apply digit_not_space|exact D2|reflexivity|exact N2]. }
  rewrite (span_app_stop is_digit09 d2); [|exact D2|reflexivity].
  destruct d2 as [|c2 d2]; [congruence|].
  change (lit "}" ++ post) with ("}"%char :: post).
  rewrite expect_cons. repeat rewrite <- app_assoc. reflexivity.
Qed.

Lemma match_random_head (c : ascii) (s : str) :
  c <> "{"%char -> match_random (c :: s) = None.
Proof.
  intros H. unfold match_random.
  change (lit "{random:") with ("{"%char :: lit "random:").
  rewrite strip_prefix_head by exact H. reflexivity.
Qed.

Lemma no_open_brace_lit_random : no_open_brace (lit "random:").
Proof.
  unfold no_open_brace. simpl. intros H.
  repeat (destruct H as [H|H]; [discriminate|]). exact H.
Qed.

(** The random pattern does not look behind an opening brace. *)
Lemma match_random_local (t : str) :
  local_before match_random ("{"%char :: t).
Proof.
  intros y Hy. unfold match_random.
  change (lit "{random:") with ("{"%char :: lit "random:").
  rewrite strip_prefix_local by (exact no_open_brace_lit_random || exact Hy).
  destruct (strip_prefix ("{"%char :: lit "random:") y) as [r0|];
    [|reflexivity].
  rewrite span_local by reflexivity.
  destruct (span is_digit09 r0) as [d1 r1]. simpl fst. simpl snd.
  rewrite span_local by reflexivity.
  destruct (span isspace r1) as [w1 r2]. simpl fst. simpl snd.
  destruct d1 as [|c1 d1]; [reflexivity|].
  rewrite expect_local by discriminate.
  destruct (expect "-"%char r2) as [r3|]; [|reflexivity].
  rewrite span_local by reflexivity.
  destruct (span isspace r3) as [w2 r4]. simpl fst. simpl snd.
  rewrite span_local by reflexivity.
  destruct (span is_digit09 r4) as [d2 r5]. simpl fst. simpl snd.
  destruct d2 as [|c2 d2]; [reflexivity|].
  rewrite expect_local by discriminate.
  destruct (expect "}"%char r5) as [r6|]; reflexivity.
Qed.

(** *** Literal patterns *)

Lemma match_literal_head (l : str) (c : ascii) (s : str) :
  c <> "{"%char -> match_literal ("{"%char :: l) (c :: s) = None.
Proof.
  intros H. unfold match_literal. rewrite strip_prefix_head by exact H.
  reflexivity.
Qed.

Lemma match_literal_local (l t : str) :
  no_open_brace l ->
  local_before (match_literal ("{"%char :: l)) ("{"%char :: t).
Proof.
  intros Hl y Hy. unfold match_literal.
  rewrite strip_prefix_local by assumption.
  destruct (strip_prefix ("{"%char :: l) y); reflexivity.
Qed.

Lemma match_literal_occ (l t : str) :
  match_literal l (l ++ t) = Some (tt, t).
Proof. unfold match_literal. rewrite strip_prefix_app. reflexivity. Qed.

(** *** The input pattern *)

Lemma match_input_inv (s g0 g1 rest : str) :
  match_input s = Some ((g0, g1), rest) ->
  s = g0 ++ rest /\ g0 = input_span g1 /\ forallb no_close_brace g1 = true.
Proof.
  unfold match_input.
  destruct (strip_prefix (lit "{input:") s) as [r0|] eqn:E0; [|discriminate].
  apply strip_prefix_inv in E0.
  destruct (span _ r0) as [p r1] eqn:E1.
  destruct (expect "}"%char r1) as [r2|] eqn:X; [|discriminate].
  intros H. injection H as <- <- <-. apply expect_inv in X.
  destruct (span_decomp _ _ _ _ E1) as (E1' & H1 & _). subst.
  split; [|split; [reflexivity|exact H1]].
  unfold input_span. simpl. rewrite <- app_assoc. reflexivity.
Qed.

Lemma match_input_shrinks (s : str) (a : str * str) (rest : str) :
  match_input s = Some (a, rest) -> length rest < length s.
Proof.
  destruct a as [g0 g1]. intros H.
  destruct (match_input_inv _ _ _ _ H) as (-> & -> & _).
  rewrite length_app. unfold input_span. simpl. lia.
Qed.

Lemma match_input_head (c : ascii) (s : str) :
  c <> "{"%char -> match_input (c :: s) = None.
Proof.
  intros H. unfold match_input.
  change (lit "{input:") with ("{"%char :: lit "input:").
  rewrite strip_prefix_head by exact H. reflexivity.
Qed.

Lemma match_input_occ (prompt post : str) :
  forallb no_close_brace prompt = true ->
  match_input (input_span prompt ++ post)
  = Some ((input_span prompt, prompt), post).
Proof.
  intros Hp. unfold match_input, input_span.
  repeat rewrite <- app_assoc. rewrite strip_prefix_app.
  rewrite (span_app_stop _ prompt); [|exact Hp|reflexivity].
  change (lit "}" ++ post) with ("}"%char :: post).
  rewrite expect_cons. reflexivity.
Qed.

(** *** Text in which no match can start *)

Lemma inert_no_open_brace (A : Type) (try_match : str -> option (A * str))
  (s : str) :
  (forall c r, c <> "{"%char -> try_match (c :: r) = None) ->
  no_open_brace s -> inert try_match s.
Proof.
  intros Hhead Hs x y t -> Hy. destruct y as [|c y]; [congruence|].
  simpl. apply Hhead. intros ->. apply Hs, in_elt.
Qed.

(** A block that opens with its only opening brace and is not matched. *)
Lemma inert_block (A : Type) (try_match : str -> option (A * str))
  (b : str) :
  (forall c r, c <> "{"%char -> try_match (c :: r) = None) ->
  no_open_brace b ->
  (forall t, try_match ("{"%char :: b ++ t) = None) ->
  inert try_match ("{"%char :: b).
Proof.
  intros Hhead Hb Hblock x y t E Hy. destruct x as [|c x].
  - simpl in E. subst y. apply Hblock.
  - injection E as <- E.
    apply (inert_no_open_brace A try_match b Hhead Hb x y t E Hy).
Qed.

Lemma no_open_brace_app (a b : str) :
  no_open_brace a -> no_open_brace b -> no_open_brace (a ++ b).
Proof.
  unfold no_open_brace. intros Ha Hb H. apply in_app_or in H. tauto.
Qed.

Lemma no_open_brace_forallb (p : ascii -> bool) (s : str) :
  p "{"%char = false -> forallb p s = true -> no_open_brace s.
Proof.
  intros Hp Hs Hin. rewrite forallb_forall in Hs.
  apply Hs in Hin. congruence.
Qed.

End PatternFacts.
Import PatternFacts.

(** ** Facts about the evaluator *)

Module EvaluatorFacts.

(** *** [replace] *)

Lemma replace_tokens (old new s : str) :
  replace old new s = flat_map (render new) (tokens (match_literal old) s).
Proof. reflexivity. Qed.

Lemma flat_map_render_chars (new s : str) :
  flat_map (render new) (map Char s) = s.
Proof. induction s as [|c s IH]; simpl; congruence. Qed.

Lemma replace_inert (old new s t : str) :
  old <> [] -> inert (match_literal old) s ->
  replace old new (s ++ t) = s ++ replace old new t.
Proof.
  intros Ho H. rewrite !replace_tokens.
  rewrite tokens_inert by (try apply match_literal_shrinks; assumption).
  rewrite flat_map_app, flat_map_render_chars. reflexivity.
Qed.

Lemma replace_inert_all (old new s : str) :
  old <> [] -> inert (match_literal old) s -> replace old new s = s.
Proof.
  intros Ho H. rewrite <- (app_nil_r s) at 1.
  rewrite replace_inert by assumption. rewrite app_nil_r. reflexivity.
Qed.

Lemma replace_occ (old new t : str) :
  old <> [] -> replace old new (old ++ t) = new ++ replace old new t.
Proof.
  intros Ho. rewrite !replace_tokens.
  rewrite (tokens_match_head _ (match_literal old)
             (match_literal_shrinks old Ho) old t tt Ho
             (match_literal_occ old t)).
  reflexivity.
Qed.

Lemma replace_local (l new s t : str) :
  no_open_brace l ->
  replace ("{"%char :: l) new (s ++ "{"%char :: t)
  = replace ("{"%char :: l) new s
    ++ replace ("{"%char :: l) new ("{"%char :: t).
Proof.
  intros Hl. rewrite !replace_tokens.
  rewrite tokens_local.
  - apply flat_map_app.
  - apply match_literal_shrinks. discriminate.
  - apply match_literal_local. exact Hl.
Qed.

(** The equation of [str.replace]. *)
Lemma replace_cons (old new : str) (c : ascii) (s : str) :
  old <> [] ->
  replace old new (c :: s) =
  match strip_prefix old (c :: s) with
  | Some rest => new ++ replace old new rest
  | None => c :: replace old new s
  end.
Proof.
  intros Ho.
  rewrite !replace_tokens, tokens_cons by (apply match_literal_shrinks, Ho).
  unfold match_literal at 1.
  destruct (strip_prefix old (c :: s)); reflexivity.
Qed.

Lemma replace_absent (old new s : str) :
  old <> [] -> contains s old = false -> replace old new s = s.
Proof.
  intros Ho. induction s as [|c s IH]; intros H; [reflexivity|].
  simpl in H. apply orb_false_iff in H. destruct H as [H1 H2].
  rewrite replace_tokens, tokens_cons by (apply match_literal_shrinks, Ho).
  unfold match_literal at 1, strip_prefix. rewrite H1. simpl.
  f_equal. apply IH, H2.
Qed.

(** The test before the clipboard is read does not change the result. *)
Lemma expand_clipboard_replace (w : world) (result : str) :
  expand_clipboard w result
  = replace (lit "{clipboard}") (get_clipboard_content w) result.
Proof.
  unfold expand_clipboard.
  destruct (contains result (lit "{clipboard}")) eqn:E; [reflexivity|].
  symmetry. apply replace_absent; [discriminate|exact E].
Qed.

(** *** [re.sub] with [replace_random] *)

Lemma sub_random_app (w : world) (a b : list (token (str * str))) (k : nat) :
  sub_random w k (a ++ b)
  = sub_random w k a ++ sub_random w (calls_after w k a) b.
Proof.
  revert k. induction a as [|[c|m] a IH]; intros k; simpl.
  - reflexivity.
  - rewrite IH. reflexivity.
  - destruct (replace_random w k m) as [r k']. simpl.
    rewrite IH, app_assoc. reflexivity.
Qed.

Lemma sub_random_chars (w : world) (k : nat) (s : str) :
  sub_random w k (map Char s) = s.
Proof. induction s as [|c s IH]; simpl; congruence. Qed.

Lemma calls_after_chars (w : world) (k : nat) (s : str) :
  calls_after w k (map Char s) = k.
Proof. induction s as [|c s IH]; simpl; congruence. Qed.

Lemma expand_random_local (w : world) (k : nat) (s t : str) :
  expand_random_from w k (s ++ "{"%char :: t)
  = expand_random_from w k s
    ++ expand_random_from w (random_calls w k s) ("{"%char :: t).
Proof.
  unfold expand_random_from, random_calls.
  rewrite (tokens_local _ match_random match_random_shrinks).
  - apply sub_random_app.
  - apply match_random_local.
Qed.

Lemma expand_random_match (w : world) (k : nat) (b t : str) (m : str * str) :
  b <> [] -> match_random (b ++ t) = Some (m, t) ->
  expand_random_from w k (b ++ t)
  = fst (replace_random w k m)
    ++ expand_random_from w (snd (replace_random w k m)) t.
Proof.
  intros Hb E. unfold expand_random_from.
  rewrite (tokens_match_head _ match_random match_random_shrinks b t m Hb E).
  simpl. destruct (replace_random w k m). reflexivity.
Qed.

Lemma expand_random_inert (w : world) (k : nat) (s t : str) :
  inert match_random s ->
  expand_random_from w k (s ++ t) = s ++ expand_random_from w k t.
Proof.
  intros H. unfold expand_random_from.
  rewrite (tokens_inert _ match_random match_random_shrinks s t H).
  rewrite sub_random_app, sub_random_chars, calls_after_chars. reflexivity.
Qed.

Lemma expand_random_inert_all (w : world) (k : nat) (s : str) :
  inert match_random s -> expand_random_from w k s = s.
Proof.
  intros H. rewrite <- (app_nil_r s) at 1.
  rewrite expand_random_inert by assumption. apply app_nil_r.
Qed.

(** *** [strip], [split] and [int] on a matched range *)

Lemma forallb_rev (p : ascii -> bool) (s : str) :
  forallb p (rev s) = forallb p s.
Proof.
  induction s as [|c s IH]; [reflexivity|].
  simpl. rewrite forallb_app, IH. simpl. rewrite andb_true_r.
  apply andb_comm.
Qed.

Lemma lstrip_spaces (a b : str) :
  forallb isspace a = true -> lstrip (a ++ b) = lstrip b.
Proof.
  induction a as [|c a IH]; simpl; [reflexivity|].
  intros H. apply andb_true_iff in H. destruct H as [-> H]. exact (IH H).
Qed.

Lemma lstrip_stops (b : str) : stops isspace b -> lstrip b = b.
Proof. destruct b as [|c b]; simpl; [reflexivity|]. intros ->. reflexivity. Qed.

Lemma digits_stop_space (d b : str) :
  d <> [] -> forallb is_digit09 d = true -> stops isspace (d ++ b).
Proof.
  intros N D. destruct d as [|c d]; [congruence|].
  simpl in *. apply andb_true_iff in D. apply digit_not_space. tauto.
Qed.

Lemma strip_padded (a d b : str) :
  d <> [] -> forallb is_digit09 d = true ->
  forallb isspace a = true -> forallb isspace b = true ->
  strip (a ++ d ++ b) = d.
Proof.
  intros N D Ha Hb. unfold strip.
  rewrite lstrip_spaces by exact Ha.
  rewrite (lstrip_stops (d ++ b)) by (apply digits_stop_space; assumption).
  rewrite rev_app_distr, lstrip_spaces by (rewrite forallb_rev; exact Hb).
  rewrite <- (app_nil_r (rev d)).
  rewrite (lstrip_stops (rev d ++ [])).
  - rewrite app_nil_r. apply rev_involutive.
  - apply digits_stop_space.
    + intros E. apply N. rewrite <- (rev_involutive d), E. reflexivity.
    + rewrite forallb_rev. exact D.
Qed.

Lemma py_int_padded (a d b : str) :
  d <> [] -> forallb is_digit09 d = true ->
  forallb isspace a = true -> forallb isspace b = true ->
  py_int (strip (a ++ d ++ b))
  = if within_int_limit d then Some (decimal_value d) else None.
Proof.
  intros N D Ha Hb. rewrite strip_padded by assumption.
  unfold py_int.
  replace (strip d) with d.
  - destruct d as [|c d]; [congruence|]. rewrite D. reflexivity.
  - pose proof (strip_padded [] d [] N D eq_refl eq_refl) as H.
    simpl in H. rewrite app_nil_r in H. symmetry. exact H.
Qed.

Lemma within_int_limit_iff (d : str) :
  within_int_limit d = true <-> (Z.of_nat (length d) <= 4300)%Z.
Proof. unfold within_int_limit, int_max_str_digits. apply Z.leb_le. Qed.

Lemma beyond_int_limit_iff (d : str) :
  within_int_limit d = false <-> (4300 < Z.of_nat (length d))%Z.
Proof. unfold within_int_limit, int_max_str_digits. apply Z.leb_gt. Qed.

Lemma forallb_weaken (p q : ascii -> bool) (s : str) :
  (forall c, p c = true -> q c = true) ->
  forallb p s = true -> forallb q s = true.
Proof.
  intros H. rewrite !forallb_forall. auto.
Qed.

Lemma split_dash_range (d1 w1 w2 d2 : str) :
  forallb is_digit09 d1 = true -> forallb isspace w1 = true ->
  split_dash (random_range d1 w1 w2 d2) = Some (d1 ++ w1, w2 ++ d2).
Proof.
  intros D W. unfold split_dash, random_range.
  rewrite app_assoc.
  rewrite (span_app_stop _ (d1 ++ w1)); [reflexivity| |reflexivity].
  rewrite forallb_app. apply andb_true_iff. split.
  - eapply forallb_weaken; [|exact D].
    intros c Hc. rewrite (digit_not_dash c Hc). reflexivity.
  - eapply forallb_weaken; [|exact W].
    intros c Hc. rewrite (space_not_dash c Hc). reflexivity.
Qed.

(** On a match of the pattern the body of the [try] raises when [int]
    refuses one of the two bounds, and only then. *)
Lemma replace_random_try_range (w : world) (k : nat) (d1 w1 w2 d2 : str) :
  d1 <> [] -> d2 <> [] ->
  forallb is_digit09 d1 = true -> forallb is_digit09 d2 = true ->
  forallb isspace w1 = true -> forallb isspace w2 = true ->
  let min_val := decimal_value d1 in
  let max_val := decimal_value d2 in
  replace_random_try w k (random_range d1 w1 w2 d2) =
  if within_int_limit d1 && within_int_limit d2
  then Some (if (min_val <=? max_val)%Z
             then (py_str (randint w k min_val max_val), S k)
             else (min_max_marker min_val max_val, k))
  else None.
Proof.
  intros N1 N2 D1 D2 W1 W2 min_val max_val.
  unfold replace_random_try.
  rewrite split_dash_range by assumption.
  rewrite <- (app_nil_l (d1 ++ w1)).
  rewrite py_int_padded by (assumption || reflexivity).
  replace (w2 ++ d2) with (w2 ++ d2 ++ []) by (rewrite app_nil_r; reflexivity).
  rewrite py_int_padded by (assumption || reflexivity).
  fold min_val max_val.
  destruct (within_int_limit d1); [|reflexivity].
  destruct (within_int_limit d2); [|reflexivity].
  destruct (min_val <=? max_val)%Z; reflexivity.
Qed.

Lemma replace_random_range (w : world) (k : nat) (g0 d1 w1 w2 d2 : str) :
  d1 <> [] -> d2 <> [] ->
  forallb is_digit09 d1 = true -> forallb is_digit09 d2 = true ->
  forallb isspace w1 = true -> forallb isspace w2 = true ->
  let min_val := decimal_value d1 in
  let max_val := decimal_value d2 in
  replace_random w k (g0, random_range d1 w1 w2 d2) =
  if within_int_limit d1 && within_int_limit d2
  then if (min_val <=? max_val)%Z
       then (py_str (randint w k min_val max_val), S k)
       else (min_max_marker min_val max_val, k)
  else (lit "[Random Error: " ++ g0 ++ lit "]", k).
Proof.
  intros N1 N2 D1 D2 W1 W2 min_val max_val.
  unfold replace_random. simpl snd.
  rewrite replace_random_try_range by assumption. simpl fst.
  destruct (within_int_limit d1 && within_int_limit d2); reflexivity.
Qed.

(** *** Blocks that the literal substitutions pass over *)

Lemma no_open_brace_tail (l : str) : In l literal_tails -> no_open_brace l.
Proof.
  unfold no_open_brace. simpl.
  intros [<-|[<-|[<-|[<-|[<-|[]]]]]] H; simpl in H;
    repeat (destruct H as [H|H]; [discriminate|]); exact H.
Qed.

Lemma replace_block (l new b pre post : str) :
  In l literal_tails -> passed_over b ->
  replace ("{"%char :: l) new (pre ++ "{"%char :: b ++ post)
  = replace ("{"%char :: l) new pre ++ "{"%char :: b
    ++ replace ("{"%char :: l) new post.
Proof.
  intros Hl [Hb Hnone].
  rewrite replace_local by (apply no_open_brace_tail, Hl).
  f_equal.
  change ("{"%char :: b ++ post) with (("{"%char :: b) ++ post).
  rewrite replace_inert; [reflexivity|discriminate|].
  apply inert_block.
  - intros c r Hc. apply match_literal_head, Hc.
  - exact Hb.
  - intros t. apply Hnone, Hl.
Qed.

Lemma expand_dates_block (w : world) (b pre post : str) :
  passed_over b ->
  expand_dates w (pre ++ "{"%char :: b ++ post)
  = expand_dates w pre ++ "{"%char :: b ++ expand_dates w post.
Proof.
  intros Hb. unfold expand_dates.
  change (lit "{date}") with ("{"%char :: lit "date}").
  change (lit "{time}") with ("{"%char :: lit "time}").
  change (lit "{date_long}") with ("{"%char :: lit "date_long}").
  change (lit "{weekday}") with ("{"%char :: lit "weekday}").
  repeat (rewrite replace_block; [|simpl; tauto|exact Hb]).
  reflexivity.
Qed.

Lemma expand_literals_block (w : world) (b pre post : str) :
  passed_over b ->
  expand_literals w (pre ++ "{"%char :: b ++ post)
  = expand_literals w pre ++ "{"%char :: b ++ expand_literals w post.
Proof.
  intros Hb. unfold expand_literals.
  rewrite !expand_clipboard_replace, expand_dates_block by exact Hb.
  change (lit "{clipboard}") with ("{"%char :: lit "clipboard}").
  rewrite replace_block; [reflexivity|simpl; tauto|exact Hb].
Qed.

Lemma digits_no_open_brace (d : str) :
  forallb is_digit09 d = true -> no_open_brace d.
Proof. apply no_open_brace_forallb. reflexivity. Qed.

Lemma spaces_no_open_brace (s : str) :
  forallb isspace s = true -> no_open_brace s.
Proof. apply no_open_brace_forallb. reflexivity. Qed.

Lemma no_open_brace_lit (s : str) :
  forallb (fun c => negb (ascii_eqb c "{"%char)) s = true -> no_open_brace s.
Proof. apply no_open_brace_forallb. reflexivity. Qed.

Lemma random_span_passed_over (d1 w1 w2 d2 : str) :
  forallb is_digit09 d1 = true -> forallb is_digit09 d2 = true ->
  forallb isspace w1 = true -> forallb isspace w2 = true ->
  passed_over (lit "random:" ++ random_range d1 w1 w2 d2 ++ lit "}").
Proof.
  intros D1 D2 W1 W2. split.
  - unfold random_range.
    repeat apply no_open_brace_app;
      try (apply digits_no_open_brace; assumption);
      try (apply spaces_no_open_brace; assumption);
      apply no_open_brace_lit; reflexivity.
  - simpl. intros l t [<-|[<-|[<-|[<-|[<-|[]]]]]]; reflexivity.
Qed.

(** What [result] is after [re.sub] when the template holds a well-formed
    random placeholder: the text before it and the text behind it are
    treated on their own, and the placeholder is handed to
    [replace_random]. *)
Lemma random_occurrence (w : world) (pre post d1 w1 w2 d2 : str) :
  d1 <> [] -> d2 <> [] ->
  forallb is_digit09 d1 = true -> forallb is_digit09 d2 = true ->
  forallb isspace w1 = true -> forallb isspace w2 = true ->
  let group1 := random_range d1 w1 w2 d2 in
  let k := random_calls w 0 (expand_literals w pre) in
  let r := replace_random w k (random_span group1, group1) in
  before_inputs w (pre ++ random_span group1 ++ post)
  = expand_random w (expand_literals w pre) ++ fst r
    ++ expand_random_from w (snd r) (expand_literals w post).
Proof.
  intros N1 N2 D1 D2 W1 W2 group1 k r.
  unfold before_inputs, expand_random.
  pose proof (random_span_passed_over d1 w1 w2 d2 D1 D2 W1 W2) as Hb.
  fold group1 in Hb.
  change (pre ++ random_span group1 ++ post)
    with (pre ++ "{"%char :: (lit "random:" ++ group1 ++ lit "}") ++ post).
  rewrite expand_literals_block by exact Hb.
  rewrite expand_random_local. f_equal.
  change ("{"%char :: (lit "random:" ++ group1 ++ lit "}")
          ++ expand_literals w post)
    with (random_span group1 ++ expand_literals w post).
  apply expand_random_match; [discriminate|].
  apply match_random_occ; assumption.
Qed.

End EvaluatorFacts.
Import EvaluatorFacts.

(** ** Facts about the two scans of [process_placeholders] *)

Module PhaseFacts.

Lemma match_input_text (s : str) (m : str * str) (rest : str) :
  match_input s = Some (m, rest) -> s = fst m ++ rest /\ fst m <> [].
Proof.
  destruct m as [g0 g1]. intros H.
  destruct (match_input_inv _ _ _ _ H) as (-> & -> & _).
  split; [reflexivity|discriminate].
Qed.

Lemma match_random_text (s : str) (m : str * str) (rest : str) :
  match_random s = Some (m, rest) -> s = fst m ++ rest /\ fst m <> [].
Proof.
  destruct m as [g0 g1]. intros H.
  destruct (match_random_inv _ _ _ _ H) as (-> & -> & _).
  split; [reflexivity|discriminate].
Qed.

Lemma input_tokens_spelled (s : str) : spelled (tokens match_input s) = s.
Proof. apply tokens_spelled, match_input_text. Qed.

Lemma random_tokens_spelled (s : str) : spelled (tokens match_random s) = s.
Proof. apply tokens_spelled, match_random_text. Qed.

(** The matches of the input scan are input placeholders. *)
Lemma input_matches_spans (s : str) (m : str * str) :
  In m (input_matches s) ->
  fst m = input_span (snd m) /\ forallb no_close_brace (snd m) = true.
Proof.
  intros H. apply (matches_tokens_inv _ match_input match_input_shrinks) in H.
  destruct H as (s' & rest & H). destruct m as [g0 g1].
  apply match_input_inv in H. simpl. tauto.
Qed.

(** *** Text without a random placeholder *)

Lemma sub_random_no_matches (w : world) (k : nat)
  (ts : list (token (str * str))) :
  matches ts = [] -> sub_random w k ts = spelled ts.
Proof.
  induction ts as [|[c|m] ts IH]; simpl; intros H.
  - reflexivity.
  - rewrite IH by exact H. reflexivity.
  - discriminate.
Qed.

Lemma expand_random_no_matches (w : world) (result : str) :
  matches (tokens match_random result) = [] ->
  expand_random w result = result.
Proof.
  intros H. unfold expand_random, expand_random_from.
  rewrite sub_random_no_matches by exact H. apply random_tokens_spelled.
Qed.

(** *** The second loop *)

Lemma replace_first_skip (x old new r : str) :
  no_open_brace x -> (exists o, old = "{"%char :: o) ->
  replace_first old new (x ++ old ++ r) = x ++ new ++ r.
Proof.
  intros Hx [o ->]. induction x as [|c x IH].
  - simpl app. unfold replace_first.
    change ("{"%char :: o ++ r) with (("{"%char :: o) ++ r).
    destruct r; rewrite startswith_app, skipn_app, skipn_all, Nat.sub_diag;
      reflexivity.
  - assert (Hc : c <> "{"%char) by (intros ->; apply Hx; left; reflexivity).
    assert (Hx' : no_open_brace x) by (intros H; apply Hx; right; exact H).
    simpl. apply ascii_eqb_neq in Hc. rewrite Hc. simpl.
    f_equal. apply IH, Hx'.
Qed.

Lemma no_open_brace_cons (c : ascii) (s : str) :
  no_open_brace (c :: s) <-> c <> "{"%char /\ no_open_brace s.
Proof.
  unfold no_open_brace. simpl. split.
  - intros H. split; [intros ->; apply H; left; reflexivity|tauto].
  - intros [Hc Hs] [E|H]; [congruence|tauto].
Qed.

(** When neither the text around the placeholders nor the answers hold an
    opening brace, the successive replacements of the first occurrence are
    the substitution of every placeholder where it stands. *)
Lemma substitute_in_place (w : world) (ts : list (token (str * str))) :
  forall (x : str) (k : nat),
    no_open_brace x -> no_open_brace (outside ts) ->
    (forall m, In m (matches ts) -> exists o, fst m = "{"%char :: o) ->
    Forall no_open_brace (map snd (collect_inputs w k (matches ts))) ->
    substitute_inputs (collect_inputs w k (matches ts)) (x ++ spelled ts)
    = x ++ answers_in_place w k ts.
Proof.
  unfold substitute_inputs.
  induction ts as [|[c|[g0 g1]] ts IH]; intros x k Hx Ho Hm Ha; simpl.
  - reflexivity.
  - simpl in Ho. apply no_open_brace_cons in Ho. destruct Ho as [Hc Ho].
    change (x ++ c :: spelled ts) with (x ++ [c] ++ spelled ts).
    rewrite app_assoc, IH; try assumption.
    + rewrite <- app_assoc. reflexivity.
    + apply no_open_brace_app; [exact Hx|].
      apply no_open_brace_cons. split; [exact Hc|intros []].
  - simpl in Ha. inversion Ha as [|? ? Ha1 Ha2]; subst.
    rewrite replace_first_skip;
      [|exact Hx|apply (Hm (g0, g1)); left; reflexivity].
    rewrite app_assoc, IH; try assumption.
    + rewrite <- app_assoc. reflexivity.
    + apply no_open_brace_app; assumption.
    + intros m H. apply Hm. right. exact H.
Qed.

Lemma expand_inputs_in_place_eq (w : world) (result : str) :
  no_open_brace (outside (tokens match_input result)) ->
  Forall no_open_brace (given_answers w result) ->
  expand_inputs w result = expand_inputs_in_place w result.
Proof.
  intros Ho Ha. unfold expand_inputs, expand_inputs_in_place.
  pose proof (substitute_in_place w (tokens match_input result) [] 0) as H.
  simpl in H. rewrite input_tokens_spelled in H. apply H.
  - intros [].
  - exact Ho.
  - intros m Hm. apply input_matches_spans in Hm. destruct Hm as [-> _].
    eexists. reflexivity.
  - exact Ha.
Qed.

Lemma expand_inputs_none (w : world) (result : str) :
  input_matches result = [] -> expand_inputs w result = result.
Proof. unfold expand_inputs. intros ->. reflexivity. Qed.

(** *** The parts of the world that the literal substitutions read *)

Lemma expand_literals_ext (w1 w2 : world) (text : str) :
  now w1 = now w2 -> clipboard_state w1 = clipboard_state w2 ->
  expand_literals w1 text = expand_literals w2 text.
Proof.
  intros Hn Hc.
  unfold expand_literals, expand_clipboard, expand_dates,
    get_clipboard_content.
  rewrite Hn, Hc. reflexivity.
Qed.

(** *** [str] of an integer *)

Lemma string_of_uint_digits (u : Decimal.uint) :
  forallb is_digit09 (lit (NilEmpty.string_of_uint u)) = true.
Proof. induction u; simpl; auto. Qed.

Lemma nilzero_digits (u : Decimal.uint) :
  forallb is_digit09 (lit (NilZero.string_of_uint u)) = true.
Proof.
  unfold NilZero.string_of_uint.
  destruct u; try reflexivity; apply (string_of_uint_digits (_ u)).
Qed.

Lemma py_str_no_open_brace (n : Z) : no_open_brace (py_str n).
Proof.
  unfold py_str, NilZero.string_of_int.
  destruct (Z.to_int n) as [u|u].
  - apply digits_no_open_brace, nilzero_digits.
  - change (lit (String "-" (NilZero.string_of_uint u)))
      with ("-"%char :: lit (NilZero.string_of_uint u)).
    apply no_open_brace_cons. split; [discriminate|].
    apply digits_no_open_brace, nilzero_digits.
Qed.

(** [str] writes a natural number in decimal digits, and [int] reads it
    back. *)

Lemma decimal_value_acc (l : Decimal.uint) (p : positive) :
  fold_left (fun acc c => acc * 10 + digit_value c)%Z
            (lit (NilEmpty.string_of_uint l)) (Zpos p)
  = Zpos (Pos.of_uint_acc l p).
Proof.
  revert p. induction l; intros p; [reflexivity|..];
    cbn [NilEmpty.string_of_uint lit list_ascii_of_string fold_left
         Pos.of_uint_acc];
    rewrite <- IHl; f_equal;
    match goal with
    | |- context [digit_value ?c] =>
        let v := eval vm_compute in (digit_value c) in
        change (digit_value c) with v
    end; lia.
Qed.

Lemma decimal_value_of_uint (l : Decimal.uint) :
  decimal_value (lit (NilEmpty.string_of_uint l)) = Z.of_uint l.
Proof.
  unfold decimal_value, Z.of_uint.
  induction l; [reflexivity|exact IHl|..];
    cbn [NilEmpty.string_of_uint lit list_ascii_of_string fold_left
         Pos.of_uint Z.of_N];
    match goal with
    | |- context [digit_value ?c] =>
        let v := eval vm_compute in (0 * 10 + digit_value c)%Z in
        change (0 * 10 + digit_value c)%Z with v
    end; apply decimal_value_acc.
Qed.

Lemma decimal_value_nilzero (l : Decimal.uint) :
  decimal_value (lit (NilZero.string_of_uint l)) = Z.of_uint l.
Proof.
  unfold NilZero.string_of_uint.
  destruct l; try reflexivity; apply (decimal_value_of_uint (_ l)).
Qed.

Lemma py_str_decimal (n : Z) :
  (0 <= n)%Z ->
  forallb is_digit09 (py_str n) = true /\ decimal_value (py_str n) = n.
Proof.
  intros Hn. unfold py_str, NilZero.string_of_int.
  pose proof (DecimalZ.of_to n) as E.
  destruct n as [|p|p]; [split; reflexivity| |lia].
  change (Z.to_int (Z.pos p)) with (Decimal.Pos (Pos.to_uint p)) in *.
  split; [apply nilzero_digits|]. rewrite decimal_value_nilzero. exact E.
Qed.

Lemma decimal_value_nonneg (ds : str) :
  forallb is_digit09 ds = true -> (0 <= decimal_value ds)%Z.
Proof.
  unfold decimal_value.
  assert (H : forall acc, (0 <= acc)%Z ->
    forallb is_digit09 ds = true ->
    (0 <= fold_left (fun a c => a * 10 + digit_value c) ds acc)%Z).
  { induction ds as [|c ds IH]; intros acc Ha Hd; simpl; [exact Ha|].
    simpl in Hd. apply andb_true_iff in Hd. destruct Hd as [Hc Hd].
    apply IH; [|exact Hd].
    assert (0 <= digit_value c)%Z; [|lia].
    unfold is_digit09, between in Hc. apply andb_true_iff in Hc.
    destruct Hc as [Hc _]. apply N.leb_le in Hc.
    unfold digit_value. lia. }
  apply H. lia.
Qed.

End PhaseFacts.
Import PhaseFacts.

(** ** Facts about texts with a single placeholder *)

Module SingleFacts.

Lemma inert_around (A : Type) (try_match : str -> option (A * str))
  (x b y : str) :
  (forall c r, c <> "{"%char -> try_match (c :: r) = None) ->
  no_open_brace x -> foreign_block try_match b -> no_open_brace y ->
  inert try_match (x ++ "{"%char :: b ++ y).
Proof.
  intros Hhead Hx [Hb Hnone] Hy.
  apply inert_app; [apply inert_no_open_brace; assumption|].
  change ("{"%char :: b ++ y) with (("{"%char :: b) ++ y).
  apply inert_app; [|apply inert_no_open_brace; assumption].
  apply inert_block; assumption.
Qed.

Lemma replace_around (l new x b y : str) :
  no_open_brace x -> foreign_block (match_literal ("{"%char :: l)) b ->
  no_open_brace y ->
  replace ("{"%char :: l) new (x ++ "{"%char :: b ++ y)
  = x ++ "{"%char :: b ++ y.
Proof.
  intros Hx Hb Hy. apply replace_inert_all; [discriminate|].
  apply inert_around; try assumption.
  intros c r Hc. apply match_literal_head, Hc.
Qed.

Lemma no_open_brace_clipboard_tail : no_open_brace (lit "clipboard}").
Proof. apply no_open_brace_lit. reflexivity. Qed.

(** The date and time substitutions pass over the clipboard placeholder,
    which is then replaced by the clipboard text. *)
Lemma expand_literals_clipboard (w : world) (pre post : str) :
  no_open_brace pre -> no_open_brace post ->
  expand_literals w (pre ++ lit "{clipboard}" ++ post)
  = pre ++ get_clipboard_content w ++ post.
Proof.
  intros Hpre Hpost. unfold expand_literals.
  assert (E : expand_dates w (pre ++ lit "{clipboard}" ++ post)
              = pre ++ lit "{clipboard}" ++ post).
  { unfold expand_dates.
    change (lit "{clipboard}" ++ post)
      with ("{"%char :: lit "clipboard}" ++ post).
    change (lit "{date}") with ("{"%char :: lit "date}").
    change (lit "{time}") with ("{"%char :: lit "time}").
    change (lit "{date_long}") with ("{"%char :: lit "date_long}").
    change (lit "{weekday}") with ("{"%char :: lit "weekday}").
    rewrite !replace_around; try assumption; try reflexivity;
      (split; [exact no_open_brace_clipboard_tail|reflexivity]). }
  rewrite E, expand_clipboard_replace.
  rewrite replace_inert;
    [|discriminate|
     apply inert_no_open_brace;
     [intros c r Hc; apply match_literal_head, Hc|exact Hpre]].
  rewrite replace_occ by discriminate.
  rewrite replace_inert_all;
    [reflexivity|discriminate|
     apply inert_no_open_brace;
     [intros c r Hc; apply match_literal_head, Hc|exact Hpost]].
Qed.

Lemma input_matches_inert (s : str) :
  inert match_input s -> input_matches s = [].
Proof.
  intros H. unfold input_matches.
  rewrite (tokens_inert_all _ match_input match_input_shrinks s H).
  apply matches_map_Char.
Qed.

(** A text without a placeholder of the two scans goes through them as it
    is, and no dialog is shown. *)
Lemma scans_pass (w : world) (s : str) :
  inert match_random s -> inert match_input s ->
  expand_inputs w (expand_random w s) = s /\
  requested_inputs (expand_random w s) = [].
Proof.
  intros Hr Hi. unfold expand_random.
  rewrite expand_random_inert_all by exact Hr.
  unfold requested_inputs. rewrite (input_matches_inert s Hi).
  split; [apply expand_inputs_none, input_matches_inert, Hi|reflexivity].
Qed.

Lemma scans_pass_plain (w : world) (s : str) :
  no_open_brace s ->
  expand_inputs w (expand_random w s) = s /\
  requested_inputs (expand_random w s) = [].
Proof.
  intros H. apply scans_pass; apply inert_no_open_brace;
    try exact H; intros c r Hc;
    [apply match_random_head|apply match_input_head]; exact Hc.
Qed.

Lemma scans_pass_block (w : world) (x b y : str) :
  no_open_brace x -> no_open_brace y ->
  foreign_block match_random b -> foreign_block match_input b ->
  expand_inputs w (expand_random w (x ++ "{"%char :: b ++ y))
  = x ++ "{"%char :: b ++ y /\
  requested_inputs (expand_random w (x ++ "{"%char :: b ++ y)) = [].
Proof.
  intros Hx Hy Hr Hi. apply scans_pass; apply inert_around;
    try assumption; intros c r Hc;
    [apply match_random_head|apply match_input_head]; exact Hc.
Qed.

Lemma min_max_marker_no_open_brace (lo hi : Z) :
  no_open_brace (min_max_marker lo hi).
Proof.
  unfold min_max_marker.
  repeat apply no_open_brace_app;
    try apply py_str_no_open_brace; apply no_open_brace_lit; reflexivity.
Qed.

(** A single random placeholder in a text without other braces is handed
    to [replace_random]. *)
Lemma single_random_span (w : world) (x y d1 d2 : str) :
  no_open_brace x -> no_open_brace y ->
  d1 <> [] -> d2 <> [] ->
  forallb is_digit09 d1 = true -> forallb is_digit09 d2 = true ->
  let full := random_span (random_range d1 [] [] d2) in
  expand_random w (x ++ full ++ y)
  = x ++ fst (replace_random w 0 (full, random_range d1 [] [] d2)) ++ y.
Proof.
  intros Hx Hy N1 N2 D1 D2 full.
  unfold expand_random.
  rewrite expand_random_inert
    by (apply inert_no_open_brace;
        [intros c r Hc; apply match_random_head, Hc|exact Hx]).
  f_equal.
  rewrite (expand_random_match w 0 full y (full, random_range d1 [] [] d2));
    [|discriminate|apply match_random_occ; auto].
  assert (Ey : forall k, expand_random_from w k y = y).
  { intros k. apply expand_random_inert_all, inert_no_open_brace;
      [intros c r Hc; apply match_random_head, Hc|exact Hy]. }
  rewrite Ey. reflexivity.
Qed.

(** The bounds are within what [int] converts: a number or the marker of
    min > max. *)
Lemma single_random (w : world) (x y d1 d2 : str) :
  no_open_brace x -> no_open_brace y ->
  d1 <> [] -> d2 <> [] ->
  forallb is_digit09 d1 = true -> forallb is_digit09 d2 = true ->
  within_int_limit d1 = true -> within_int_limit d2 = true ->
  let min_val := decimal_value d1 in
  let max_val := decimal_value d2 in
  let substituted :=
    if (min_val <=? max_val)%Z then py_str (randint w 0 min_val max_val)
    else min_max_marker min_val max_val in
  expand_random w (x ++ random_span (random_range d1 [] [] d2) ++ y)
  = x ++ substituted ++ y /\
  no_open_brace (x ++ substituted ++ y).
Proof.
  intros Hx Hy N1 N2 D1 D2 L1 L2 min_val max_val substituted.
  assert (Hs : no_open_brace substituted).
  { unfold substituted. destruct (min_val <=? max_val)%Z;
      [apply py_str_no_open_brace|apply min_max_marker_no_open_brace]. }
  split; [|repeat apply no_open_brace_app; assumption].
  rewrite single_random_span by assumption.
  rewrite (replace_random_range w 0 _ d1 [] [] d2) by auto.
  rewrite L1, L2. fold min_val max_val.
  unfold substituted. destruct (min_val <=? max_val)%Z; reflexivity.
Qed.

(** A bound has more digits than [int] converts: the marker of the
    [except] branch, which spells the placeholder; the scan for input
    placeholders then passes over it. *)
Lemma single_random_beyond (w : world) (x y d1 d2 : str) :
  no_open_brace x -> no_open_brace y ->
  d1 <> [] -> d2 <> [] ->
  forallb is_digit09 d1 = true -> forallb is_digit09 d2 = true ->
  within_int_limit d1 && within_int_limit d2 = false ->
  let full := random_span (random_range d1 [] [] d2) in
  let marked := x ++ (lit "[Random Error: " ++ full ++ lit "]") ++ y in
  expand_random w (x ++ full ++ y) = marked /\
  expand_inputs w marked = marked /\
  requested_inputs marked = [].
Proof.
  intros Hx Hy N1 N2 D1 D2 L full marked.
  assert (Hi : inert match_input marked).
  { unfold marked, full, random_span.
    replace (x ++ (lit "[Random Error: "
                   ++ (lit "{random:" ++ random_range d1 [] [] d2 ++ lit "}")
                   ++ lit "]") ++ y)
      with ((x ++ lit "[Random Error: ")
            ++ "{"%char :: (lit "random:" ++ random_range d1 [] [] d2
                            ++ lit "}")
            ++ (lit "]" ++ y))
      by (repeat rewrite <- app_assoc; reflexivity).
    apply inert_around.
    - intros c r Hc. apply match_input_head, Hc.
    - apply no_open_brace_app; [exact Hx|apply no_open_brace_lit; reflexivity].
    - split; [|reflexivity].
      apply (random_span_passed_over d1 [] [] d2 D1 D2 eq_refl eq_refl).
    - apply no_open_brace_app; [apply no_open_brace_lit; reflexivity|exact Hy]. }
  split; [|split].
  - unfold marked, full. rewrite single_random_span by assumption.
    rewrite (replace_random_range w 0 _ d1 [] [] d2) by auto.
    rewrite L. reflexivity.
  - apply expand_inputs_none, input_matches_inert, Hi.
  - unfold requested_inputs. rewrite (input_matches_inert _ Hi). reflexivity.
Qed.

(** A single input placeholder in a text without other braces. *)
Lemma single_input (w : world) (x y prompt : str) :
  no_open_brace x -> no_open_brace y -> no_open_brace prompt ->
  forallb no_close_brace prompt = true ->
  expand_random w (x ++ input_span prompt ++ y)
  = x ++ input_span prompt ++ y /\
  requested_inputs (x ++ input_span prompt ++ y) = [prompt] /\
  expand_inputs w (x ++ input_span prompt ++ y)
  = x ++ answer w 0 prompt ++ y.
Proof.
  intros Hx Hy Hp Hc.
  assert (Hhead : forall c r, c <> "{"%char -> match_input (c :: r) = None)
    by (intros c r H; apply match_input_head, H).
  assert (T : tokens match_input (x ++ input_span prompt ++ y)
              = map Char x ++ Match (input_span prompt, prompt)
                              :: map Char y).
  { rewrite (tokens_inert _ match_input match_input_shrinks)
      by (apply inert_no_open_brace; assumption).
    rewrite (tokens_match_head _ match_input match_input_shrinks
               (input_span prompt) y (input_span prompt, prompt))
      by (discriminate || apply match_input_occ, Hc).
    rewrite (tokens_inert_all _ match_input match_input_shrinks)
      by (apply inert_no_open_brace; assumption).
    reflexivity. }
  split; [|split].
  - unfold expand_random.
    change (input_span prompt ++ y)
      with ("{"%char :: (lit "input:" ++ prompt ++ lit "}") ++ y).
    apply expand_random_inert_all, inert_around; try assumption.
    + intros c r H. apply match_random_head, H.
    + split; [|reflexivity].
      repeat apply no_open_brace_app; try assumption;
        apply no_open_brace_lit; reflexivity.
  - unfold requested_inputs, input_matches. rewrite T.
    rewrite matches_app, matches_map_Char. simpl.
    rewrite matches_map_Char. reflexivity.
  - unfold expand_inputs, input_matches. rewrite T.
    rewrite matches_app, matches_map_Char. simpl.
    rewrite matches_map_Char.
    apply (replace_first_skip x (input_span prompt) (answer w 0 prompt) y);
      [exact Hx|]. eexists. reflexivity.
Qed.

End SingleFacts.
Import SingleFacts.

(** ** Facts about templates of literal placeholders *)

Module LiteralFacts.

Lemma plain_pieces_cons (p : piece) (ps : list piece) :
  plain_pieces (p :: ps) ->
  plain_pieces ps /\ (forall s, p = Text s -> no_open_brace s).
Proof.
  intros H. split.
  - intros s Hs. apply H. right. exact Hs.
  - intros s ->. apply H. left. reflexivity.
Qed.

Lemma plain_pieces_subst (t : literal_tag) (v : str) (ps : list piece) :
  no_open_brace v -> plain_pieces ps ->
  plain_pieces (map (subst_piece t v) ps).
Proof.
  intros Hv Hps s Hs. apply in_map_iff in Hs.
  destruct Hs as ([s'|t'] & E & Hin); simpl in E.
  - injection E as <-. apply Hps, Hin.
  - destruct (tag_eqb t t'); [|discriminate]. injection E as <-. exact Hv.
Qed.

Lemma tag_text_block (t : literal_tag) :
  exists b, tag_text t = "{"%char :: b /\ no_open_brace b.
Proof.
  destruct t; eexists; (split; [reflexivity|]);
    apply no_open_brace_lit; reflexivity.
Qed.

Lemma tag_text_foreign (t t' : literal_tag) (rest : str) :
  tag_eqb t t' = false ->
  match_literal (tag_text t) (tag_text t' ++ rest) = None.
Proof. destruct t, t'; intros H; try discriminate H; reflexivity. Qed.

(** One [replace] of a literal placeholder, on a template of pieces. *)
Lemma replace_pieces (t : literal_tag) (v : str) (ps : list piece) :
  plain_pieces ps ->
  replace (tag_text t) v (template_of ps)
  = template_of (map (subst_piece t v) ps).
Proof.
  assert (Hne : tag_text t <> []) by (destruct t; discriminate).
  assert (Hhead : forall c r, c <> "{"%char ->
                              match_literal (tag_text t) (c :: r) = None).
  { intros c r Hc. destruct (tag_text_block t) as (b & -> & _).
    apply match_literal_head, Hc. }
  induction ps as [|p ps IH]; intros Hps; [reflexivity|].
  apply plain_pieces_cons in Hps. destruct Hps as [Hps Hp].
  specialize (IH Hps). unfold template_of in *. simpl.
  destruct p as [s|t'].
  - rewrite replace_inert;
      [|exact Hne
       |apply inert_no_open_brace; [exact Hhead|apply Hp; reflexivity]].
    rewrite IH. reflexivity.
  - simpl. destruct (tag_eqb t t') eqn:E.
    + assert (t = t') as <- by (destruct t, t'; try discriminate; reflexivity).
      rewrite replace_occ by exact Hne. rewrite IH. reflexivity.
    + destruct (tag_text_block t') as (b & Eb & Hb).
      rewrite replace_inert; [rewrite IH; reflexivity|exact Hne|].
      rewrite Eb. apply inert_block; [exact Hhead|exact Hb|].
      intros rest.
      change ("{"%char :: b ++ rest) with (("{"%char :: b) ++ rest).
      rewrite <- Eb. apply tag_text_foreign, E.
Qed.

(** *** The texts of the clock hold no brace *)

Lemma repeat_zero_plain (n : nat) : no_open_brace (repeat "0"%char n).
Proof.
  intros H. apply repeat_spec in H. discriminate.
Qed.

Lemma pad_plain (width n : nat) : no_open_brace (pad width n).
Proof.
  unfold pad, dec. apply no_open_brace_app; [apply repeat_zero_plain|].
  apply digits_no_open_brace, nilzero_digits.
Qed.

Lemma nth_plain (i : nat) (l : list str) :
  Forall no_open_brace l -> no_open_brace (nth i l []).
Proof.
  intros H. destruct (nth_in_or_default i l []) as [Hin| ->].
  - rewrite Forall_forall in H. apply H, Hin.
  - intros [].
Qed.

Lemma month_names_plain : Forall no_open_brace month_names.
Proof. repeat constructor; no_brace. Qed.

Lemma weekdays_plain : Forall no_open_brace weekdays.
Proof. repeat constructor; no_brace. Qed.

Lemma clock_texts_plain (now : datetime) :
  no_open_brace (date_text now) /\ no_open_brace (time_text now) /\
  no_open_brace (date_long_text now) /\ no_open_brace (current_weekday now).
Proof.
  assert (L : forall s, forallb (fun c => negb (ascii_eqb c "{"%char)) s = true
                        -> no_open_brace s) by apply no_open_brace_lit.
  unfold date_text, time_text, date_long_text, current_weekday.
  repeat split.
  - apply no_open_brace_app; [apply pad_plain|].
    apply no_open_brace_app; [apply L; reflexivity|].
    apply no_open_brace_app; [apply pad_plain|].
    apply no_open_brace_app; [apply L; reflexivity|apply pad_plain].
  - apply no_open_brace_app; [apply pad_plain|].
    apply no_open_brace_app; [apply L; reflexivity|apply pad_plain].
  - apply no_open_brace_app; [apply nth_plain, month_names_plain|].
    apply no_open_brace_app; [apply L; reflexivity|].
    apply no_open_brace_app; [apply pad_plain|].
    apply no_open_brace_app; [apply L; reflexivity|apply pad_plain].
  - apply nth_plain, weekdays_plain.
Qed.

(** On a template of plain text and literal placeholders the substitutions
    put every placeholder's text in its place. *)
Lemma expand_literals_pieces (w : world) (ps : list piece) :
  plain_pieces ps -> expand_literals w (template_of ps) = value_of w ps.
Proof.
  intros Hps. unfold expand_literals, expand_dates.
  destruct (clock_texts_plain (now w)) as (H1 & H2 & H3 & H4).
  rewrite expand_clipboard_replace.
  change (lit "{date}") with (tag_text Tag_date).
  change (lit "{time}") with (tag_text Tag_time).
  change (lit "{date_long}") with (tag_text Tag_date_long).
  change (lit "{weekday}") with (tag_text Tag_weekday).
  change (lit "{clipboard}") with (tag_text Tag_clipboard).
  rewrite replace_pieces by exact Hps.
  rewrite replace_pieces by (apply plain_pieces_subst; assumption).
  rewrite replace_pieces by (repeat apply plain_pieces_subst; assumption).
  rewrite replace_pieces by (repeat apply plain_pieces_subst; assumption).
  rewrite replace_pieces by (repeat apply plain_pieces_subst; assumption).
  unfold template_of, value_of. clear.
  induction ps as [|[s|[]] ps IH]; simpl; rewrite ?IH; reflexivity.
Qed.

Lemma value_of_ext (w1 w2 : world) (ps : list piece) :
  now w1 = now w2 -> clipboard_state w1 = clipboard_state w2 ->
  value_of w1 ps = value_of w2 ps.
Proof.
  intros Hn Hc. unfold value_of.
  induction ps as [|[s|t] ps IH]; simpl; rewrite ?IH; [reflexivity..|].
  f_equal. destruct t; simpl; unfold get_clipboard_content;
    rewrite ?Hn, ?Hc; reflexivity.
Qed.

Lemma value_of_plain (w : world) (ps : list piece) :
  plain_pieces ps ->
  (In (Placeholder Tag_clipboard) ps ->
   no_open_brace (get_clipboard_content w)) ->
  no_open_brace (value_of w ps).
Proof.
  intros Hps Hc. unfold value_of.
  destruct (clock_texts_plain (now w)) as (H1 & H2 & H3 & H4).
  induction ps as [|p ps IH]; [intros []|].
  apply plain_pieces_cons in Hps. destruct Hps as [Hps Hp].
  simpl. apply no_open_brace_app.
  - destruct p as [s|[]]; simpl; try assumption.
    + apply Hp. reflexivity.
    + apply Hc. left. reflexivity.
  - apply IH; [exact Hps|]. intros H. apply Hc. right. exact H.
Qed.

Lemma random_matches_inert (s : str) :
  inert match_random s -> matches (tokens match_random s) = [].
Proof.
  intros H.
  rewrite (tokens_inert_all _ match_random match_random_shrinks s H).
  apply matches_map_Char.
Qed.

Lemma plain_no_matches (s : str) :
  no_open_brace s ->
  matches (tokens match_random s) = [] /\ input_matches s = [].
Proof.
  intros H. split.
  - apply random_matches_inert, inert_no_open_brace; [|exact H].
    intros c r Hc. apply match_random_head, Hc.
  - apply input_matches_inert, inert_no_open_brace; [|exact H].
    intros c r Hc. apply match_input_head, Hc.
Qed.

Lemma expand_literals_plain (w : world) (s : str) :
  no_open_brace s -> expand_literals w s = s.
Proof.
  intros H.
  pose proof (expand_literals_pieces w [Text s]) as E.
  unfold template_of, value_of in E. simpl in E.
  rewrite app_nil_r in E. apply E.
  intros s' [Hs|[]]. injection Hs as <-. exact H.
Qed.

Lemma random_calls_plain (w : world) (k : nat) (s : str) :
  no_open_brace s -> random_calls w k s = k.
Proof.
  intros H. unfold random_calls.
  rewrite (tokens_inert_all _ match_random match_random_shrinks);
    [apply calls_after_chars|].
  apply inert_no_open_brace; [|exact H].
  intros c r Hc. apply match_random_head, Hc.
Qed.

(** The conversions between integers and decimal strings, on examples. *)
Lemma conversions_examples :
  py_str 10 = lit "10" /\ py_str 0 = lit "0" /\ py_str (-5) = lit "-5" /\
  py_int (lit " 007 ") = Some 7%Z /\ py_int (lit "a") = None /\
  decimal_value (lit "2025") = 2025%Z.
Proof. vm_compute. repeat split. Qed.

End LiteralFacts.
Import LiteralFacts.

(** ** Facts about the editor *)

Module EditorFacts.

Import Builtins Editor Terms.

(** *** Texts without braces *)

Lemma not_brace_open (c : ascii) : not_brace c = true -> c <> "{"%char.
Proof.
  unfold not_brace. intros H. apply andb_true_iff in H. destruct H as [H _].
  apply negb_true_iff, ascii_eqb_neq in H. exact H.
Qed.

Lemma not_brace_close (c : ascii) :
  not_brace c = true -> no_close_brace c = true.
Proof.
  unfold not_brace, no_close_brace. intros H.
  apply andb_true_iff in H. tauto.
Qed.

Lemma brace_free_open (s : str) : brace_free s = true -> no_open_brace s.
Proof.
  unfold brace_free, no_open_brace. intros H Hin.
  rewrite forallb_forall in H. apply H in Hin.
  apply not_brace_open in Hin. congruence.
Qed.

Lemma brace_free_close (s : str) :
  brace_free s = true -> forallb no_close_brace s = true.
Proof. apply forallb_weaken. exact not_brace_close. Qed.

Lemma brace_free_app (a b : str) :
  brace_free (a ++ b) = brace_free a && brace_free b.
Proof. apply forallb_app. Qed.

Lemma digit_not_brace (c : ascii) : is_digit09 c = true -> not_brace c = true.
Proof. ascii_cases c. Qed.

Lemma space_not_brace (c : ascii) : isspace c = true -> not_brace c = true.
Proof. ascii_cases c. Qed.

Lemma digits_spec (d : str) :
  digits d = true -> d <> [] /\ forallb is_digit09 d = true.
Proof.
  unfold digits. intros H. apply andb_true_iff in H. destruct H as [H1 H2].
  split; [|exact H2]. destruct d; [discriminate|congruence].
Qed.

Lemma well_formed_random (d1 d2 : str) :
  well_formed (Random d1 d2) = true ->
  digits d1 = true /\ digits d2 = true /\
  within_int_limit d1 = true /\ within_int_limit d2 = true.
Proof.
  simpl. intros W.
  apply andb_true_iff in W. destruct W as [W L2].
  apply andb_true_iff in W. destruct W as [W L1].
  apply andb_true_iff in W. tauto.
Qed.

Lemma digits_brace_free (d : str) :
  forallb is_digit09 d = true -> brace_free d = true.
Proof. apply forallb_weaken. exact digit_not_brace. Qed.

Lemma spaces_brace_free (s : str) :
  forallb isspace s = true -> brace_free s = true.
Proof. apply forallb_weaken. exact space_not_brace. Qed.

(** *** Counting characters *)

Lemma count_char_app (c : ascii) (a b : str) :
  count_char c (a ++ b) = count_char c a + count_char c b.
Proof. unfold count_char. rewrite filter_app, length_app. reflexivity. Qed.

Lemma count_char_cons (c d : ascii) (s : str) :
  count_char c (d :: s)
  = (if ascii_eqb c d then 1 else 0) + count_char c s.
Proof. unfold count_char. simpl. destruct (ascii_eqb c d); reflexivity. Qed.

Lemma count_open_brace_free (s : str) :
  brace_free s = true -> count_char "{"%char s = 0.
Proof.
  induction s as [|c s IH]; [reflexivity|]. simpl. intros H.
  apply andb_true_iff in H. destruct H as [Hc H].
  rewrite count_char_cons, (IH H).
  apply not_brace_open in Hc.
  replace (ascii_eqb "{"%char c) with false; [reflexivity|].
  symmetry. apply ascii_eqb_neq. congruence.
Qed.

Lemma count_close_brace_free (s : str) :
  brace_free s = true -> count_char "}"%char s = 0.
Proof.
  induction s as [|c s IH]; [reflexivity|]. simpl. intros H.
  apply andb_true_iff in H. destruct H as [Hc H].
  rewrite count_char_cons, (IH H).
  apply not_brace_close in Hc. unfold no_close_brace in Hc.
  apply negb_true_iff, ascii_eqb_neq in Hc.
  replace (ascii_eqb "}"%char c) with false; [reflexivity|].
  symmetry. apply ascii_eqb_neq. congruence.
Qed.

(** A brace span with a content without braces has one brace of each
    kind. *)
Lemma count_span (content : str) :
  brace_free content = true ->
  count_char "{"%char ("{"%char :: content ++ lit "}") = 1 /\
  count_char "}"%char ("{"%char :: content ++ lit "}") = 1.
Proof.
  intros H.
  rewrite !count_char_cons, !count_char_app,
    (count_open_brace_free _ H), (count_close_brace_free _ H).
  split; reflexivity.
Qed.

(** *** The pattern of a brace span *)

Lemma match_placeholder_inv (s g0 g1 rest : str) :
  match_placeholder s = Some ((g0, g1), rest) ->
  s = g0 ++ rest /\ g0 = "{"%char :: g1 ++ lit "}" /\
  forallb no_close_brace g1 = true.
Proof.
  unfold match_placeholder. intros H.
  destruct (expect "{"%char s) as [r0|] eqn:E0; [|discriminate].
  destruct (span no_close_brace r0) as [content r1] eqn:E1.
  destruct (expect "}"%char r1) as [r2|] eqn:E2; [|discriminate].
  injection H as <- <- <-.
  apply expect_inv in E0. apply expect_inv in E2.
  destruct (span_decomp _ _ _ _ E1) as (E & Hc & _).
  subst. split; [|split; [reflexivity|exact Hc]].
  simpl. rewrite <- app_assoc. reflexivity.
Qed.

Lemma match_placeholder_text (s : str) (m : str * str) (rest : str) :
  match_placeholder s = Some (m, rest) -> s = fst m ++ rest /\ fst m <> [].
Proof.
  destruct m as [g0 g1]. intros H.
  destruct (match_placeholder_inv _ _ _ _ H) as (E & E0 & _).
  split; [exact E|]. simpl. rewrite E0. discriminate.
Qed.

Lemma match_placeholder_shrinks (s : str) (a : str * str) (rest : str) :
  match_placeholder s = Some (a, rest) -> length rest < length s.
Proof. apply text_shrinks. exact match_placeholder_text. Qed.

Lemma match_placeholder_head (c : ascii) (s : str) :
  c <> "{"%char -> match_placeholder (c :: s) = None.
Proof.
  intros H. unfold match_placeholder. simpl.
  replace (ascii_eqb c "{"%char) with false; [reflexivity|].
  symmetry. apply ascii_eqb_neq, H.
Qed.

Lemma match_placeholder_occ (content post : str) :
  forallb no_close_brace content = true ->
  match_placeholder ("{"%char :: content ++ lit "}" ++ post)
  = Some (("{"%char :: content ++ lit "}", content), post).
Proof.
  intros H. unfold match_placeholder.
  rewrite expect_cons.
  rewrite (span_app_stop no_close_brace content (lit "}" ++ post) H)
    by reflexivity.
  change (lit "}" ++ post) with ("}"%char :: post).
  rewrite expect_cons. reflexivity.
Qed.

Lemma placeholder_tokens_plain (s t : str) :
  no_open_brace s ->
  tokens match_placeholder (s ++ t)
  = map Char s ++ tokens match_placeholder t.
Proof.
  intros H. apply (tokens_inert _ match_placeholder match_placeholder_shrinks).
  apply inert_no_open_brace; [exact match_placeholder_head|exact H].
Qed.

Lemma placeholder_tokens_span (content t : str) :
  forallb no_close_brace content = true ->
  tokens match_placeholder (("{"%char :: content ++ lit "}") ++ t)
  = Match ("{"%char :: content ++ lit "}", content)
    :: tokens match_placeholder t.
Proof.
  intros H.
  apply (tokens_match_head _ match_placeholder match_placeholder_shrinks);
    [discriminate|].
  simpl. rewrite <- app_assoc. apply match_placeholder_occ, H.
Qed.

Lemma placeholder_matches_inv (text : str) (m : str * str) :
  In m (matches (tokens match_placeholder text)) ->
  fst m = "{"%char :: snd m ++ lit "}" /\
  forallb no_close_brace (snd m) = true.
Proof.
  intros H.
  destruct (matches_tokens_inv _ match_placeholder match_placeholder_shrinks
              _ _ H) as (s' & rest & E).
  destruct m as [g0 g1].
  destruct (match_placeholder_inv _ _ _ _ E) as (_ & E0 & Hc). auto.
Qed.

(** *** [int] on digits *)

Lemma digit_not_int_space (c : ascii) :
  is_digit09 c = true -> int_space c = false.
Proof. ascii_cases c. Qed.

Lemma digit_not_sign (c : ascii) :
  is_digit09 c = true ->
  ascii_eqb c "+"%char = false /\ ascii_eqb c "-"%char = false.
Proof. ascii_cases c. Qed.

Lemma int_lstrip_digits (d : str) :
  forallb is_digit09 d = true -> int_lstrip d = d.
Proof.
  destruct d as [|c d]; [reflexivity|]. simpl. intros H.
  apply andb_true_iff in H. destruct H as [Hc _].
  rewrite (digit_not_int_space _ Hc). reflexivity.
Qed.

Lemma int_strip_digits (d : str) :
  forallb is_digit09 d = true -> int_strip d = d.
Proof.
  intros H. unfold int_strip. rewrite (int_lstrip_digits d H).
  rewrite int_lstrip_digits by (rewrite forallb_rev; exact H).
  apply rev_involutive.
Qed.

Lemma int_digits_fold (d : str) :
  forallb is_digit09 d = true ->
  forall acc b, d <> [] \/ b = true ->
    int_digits acc b d
    = Some (fold_left (fun a c => a * 10 + digit_value c)%Z d acc).
Proof.
  induction d as [|c d IH]; intros H acc b Hb.
  - destruct Hb as [Hb | Hb]; [congruence|subst b; reflexivity].
  - simpl in H. apply andb_true_iff in H. destruct H as [Hc H].
    simpl. rewrite Hc. apply IH; [exact H|right; reflexivity].
Qed.

Lemma filter_digits (d : str) :
  forallb is_digit09 d = true -> filter is_digit09 d = d.
Proof.
  induction d as [|c d IH]; [reflexivity|]. simpl. intros H.
  apply andb_true_iff in H. destruct H as [Hc H].
  rewrite Hc, (IH H). reflexivity.
Qed.

Lemma int_of_str_digits (d : str) :
  d <> [] -> forallb is_digit09 d = true ->
  int_of_str d = if within_int_limit d then Some (decimal_value d) else None.
Proof.
  intros Hd H. unfold int_of_str. rewrite (int_strip_digits d H).
  destruct d as [|c d]; [congruence|].
  pose proof H as H'. simpl in H'. apply andb_true_iff in H'.
  destruct H' as [Hc _]. destruct (digit_not_sign c Hc) as [ E1 E2 ]. rewrite E1, E2.
  unfold int_limited.
  rewrite (int_digits_fold (c :: d) H 0%Z false) by (left; discriminate).
  rewrite (filter_digits (c :: d) H). reflexivity.
Qed.

(** *** Relations between the tests on a content and on its span *)

Lemma contains_app (a p b : str) : contains (a ++ p ++ b) p = true.
Proof.
  induction a as [|c a IH].
  - pose proof (startswith_app p b) as H. change ([] ++ p ++ b) with (p ++ b).
    destruct (p ++ b); simpl; rewrite H; reflexivity.
  - simpl. rewrite IH. apply orb_true_r.
Qed.

Lemma startswith_nil (s : str) : startswith s [] = true.
Proof. destruct s; reflexivity. Qed.

(** A prefix without closing brace is found in the content alone. *)
Lemma startswith_content (c l t : str) :
  forallb no_close_brace l = true ->
  startswith (c ++ "}"%char :: t) l = startswith c l.
Proof.
  revert c. induction l as [|a l IH]; intros c H.
  - rewrite !startswith_nil. reflexivity.
  - simpl in H. apply andb_true_iff in H. destruct H as [Ha H].
    destruct c as [|d c]; simpl.
    + unfold no_close_brace in Ha. apply negb_true_iff in Ha.
      apply ascii_eqb_neq in Ha.
      assert (E : ascii_eqb "}"%char a = false)
        by (apply ascii_eqb_neq; congruence).
      rewrite E. reflexivity.
    + rewrite (IH c H). reflexivity.
Qed.

(** Equal contents, when the spans they end are prefixes of one another. *)
Lemma startswith_span_eq (c n t : str) :
  forallb no_close_brace c = true -> forallb no_close_brace n = true ->
  startswith (c ++ "}"%char :: t) (n ++ lit "}") = true -> c = n.
Proof.
  revert c. induction n as [|a n IH]; intros c Hc Hn H.
  - destruct c as [|d c]; [reflexivity|]. simpl in H, Hc.
    apply andb_true_iff in Hc. destruct Hc as [Hd _].
    apply andb_true_iff in H. destruct H as [H _].
    apply ascii_eqb_eq in H. subst d. discriminate.
  - simpl in Hn. apply andb_true_iff in Hn. destruct Hn as [Ha Hn].
    destruct c as [|d c]; simpl in H.
    + apply andb_true_iff in H. destruct H as [H _].
      apply ascii_eqb_eq in H. subst a. discriminate.
    + apply andb_true_iff in H. destruct H as [H1 H2].
      apply ascii_eqb_eq in H1. subst d. simpl in Hc.
      apply andb_true_iff in Hc. destruct Hc as [_ Hc].
      f_equal. apply IH; assumption.
Qed.

Lemma existsb_str_eqb (c : str) (l : list str) :
  existsb (str_eqb c) l = true <-> In c l.
Proof.
  rewrite existsb_exists. split.
  - intros (x & Hx & E). apply str_eqb_eq in E. subst. exact Hx.
  - intros H. exists c. split; [exact H|]. apply str_eqb_eq. reflexivity.
Qed.

Lemma existsb_str_eqb_false (c : str) (l : list str) :
  existsb (str_eqb c) l = false <-> ~ In c l.
Proof.
  rewrite <- existsb_str_eqb. destruct (existsb (str_eqb c) l); split;
    intros; congruence.
Qed.

(** *** The elements of a template *)

Lemma element_span (e : element) (c : str) :
  content e = Some c -> element_text e = "{"%char :: c ++ lit "}".
Proof.
  destruct e as [s|t|p|d1 d2]; simpl; intros H; try discriminate;
    injection H as <-.
  - destruct t; reflexivity.
  - unfold input_span. simpl. rewrite <- ?app_assoc. reflexivity.
  - unfold random_span. simpl. rewrite <- ?app_assoc. reflexivity.
Qed.

Lemma range_brace_free (d1 d2 : str) :
  digits d1 = true -> digits d2 = true ->
  brace_free (random_range d1 [] [] d2) = true.
Proof.
  intros H1 H2. apply digits_spec in H1, H2.
  unfold random_range.
  change (d1 ++ [] ++ lit "-" ++ [] ++ d2) with (d1 ++ lit "-" ++ d2).
  rewrite !brace_free_app.
  rewrite (digits_brace_free d1), (digits_brace_free d2) by tauto.
  reflexivity.
Qed.

Lemma content_brace_free (e : element) (c : str) :
  well_formed e = true -> content e = Some c -> brace_free c = true.
Proof.
  destruct e as [s|t|p|d1 d2]; simpl; intros W H; try discriminate;
    injection H as <-.
  - destruct t; reflexivity.
  - exact W.
  - apply well_formed_random in W. destruct W as (W1 & W2 & _).
    apply (range_brace_free d1 d2 W1 W2).
Qed.

Lemma plain_brace_free (e : element) :
  well_formed e = true -> content e = None ->
  brace_free (element_text e) = true.
Proof. destruct e; simpl; intros W H; try discriminate. exact W. Qed.

(** The brace spans of a template are its placeholders. *)
Lemma template_matches (es : list element) (t : str) :
  forallb well_formed es = true ->
  matches (tokens match_placeholder (template es ++ t))
  = flat_map (fun e => match content e with
                       | Some c => [(element_text e, c)]
                       | None => []
                       end) es
    ++ matches (tokens match_placeholder t).
Proof.
  induction es as [|e es IH]; intros W; [reflexivity|].
  simpl in W. apply andb_true_iff in W. destruct W as [We W].
  cbn [template flat_map]. fold (template es). rewrite <- !app_assoc.
  destruct (content e) as [c|] eqn:Ec.
  - rewrite (element_span e c Ec).
    rewrite placeholder_tokens_span
      by (apply brace_free_close, (content_brace_free e c We Ec)).
    simpl. rewrite (IH W). reflexivity.
  - rewrite placeholder_tokens_plain
      by (apply brace_free_open, plain_brace_free; assumption).
    rewrite matches_app, matches_map_Char, (IH W). reflexivity.
Qed.

Lemma template_braces (es : list element) :
  forallb well_formed es = true ->
  count_char "{"%char (template es) = count_char "}"%char (template es).
Proof.
  induction es as [|e es IH]; intros W; [reflexivity|].
  simpl in W. apply andb_true_iff in W. destruct W as [We W].
  cbn [template flat_map]. fold (template es).
  rewrite !count_char_app, (IH W). f_equal.
  destruct (content e) as [c|] eqn:Ec.
  - rewrite (element_span e c Ec).
    destruct (count_span c (content_brace_free e c We Ec)) as [E1 E2].
    rewrite E1, E2. reflexivity.
  - pose proof (plain_brace_free e We Ec) as H.
    rewrite (count_open_brace_free _ H), (count_close_brace_free _ H).
    reflexivity.
Qed.

(** *** The checks of one placeholder *)

Lemma not_literal_name (c : str) (a : ascii) (r : str) :
  c = a :: r ->
  a <> "d"%char -> a <> "t"%char -> a <> "w"%char -> a <> "c"%char ->
  existsb (str_eqb c) literal_names = false.
Proof.
  intros -> H1 H2 H3 H4. apply existsb_str_eqb_false.
  intros H. simpl in H.
  repeat (destruct H as [H|H];
          [injection H as H _; congruence|]).
  exact H.
Qed.

Lemma check_literal (t : literal_tag) :
  check_placeholder (tag_text t, tag_name t) = [].
Proof. destruct t; vm_compute; reflexivity. Qed.

Lemma check_input (prompt : str) :
  check_placeholder (input_span prompt, lit "input:" ++ prompt)
  = element_issues (Input prompt).
Proof.
  unfold check_placeholder. cbn [fst snd].
  rewrite (not_literal_name _ "i"%char (lit "nput:" ++ prompt))
    by (reflexivity || discriminate).
  rewrite startswith_app.
  change (skipn 6 (lit "input:" ++ prompt)) with prompt.
  destruct prompt; reflexivity.
Qed.

Lemma strip_digits (d : str) :
  d <> [] -> forallb is_digit09 d = true -> strip d = d.
Proof.
  intros Hd H. pose proof (strip_padded [] d [] Hd H eq_refl eq_refl) as E.
  rewrite app_nil_r in E. exact E.
Qed.

Lemma check_range_digits (full d1 d2 : str) :
  digits d1 = true -> digits d2 = true ->
  check_range full (random_range d1 [] [] d2)
  = if within_int_limit d1 && within_int_limit d2
    then if (decimal_value d1 >=? decimal_value d2)%Z
         then [Min_not_below_max full] else []
    else [Range_not_numeric full].
Proof.
  intros H1 H2. apply digits_spec in H1, H2.
  destruct H1 as [N1 D1], H2 as [N2 D2].
  unfold check_range.
  replace (nonempty (random_range d1 [] [] d2)) with true
    by (destruct d1; [congruence|reflexivity]).
  unfold random_range at 1.
  change ([] ++ lit "-" ++ [] ++ d2) with (lit "-" ++ d2).
  rewrite contains_app. cbn [negb orb].
  rewrite (split_dash_range d1 [] [] d2 D1 eq_refl).
  rewrite app_nil_r. change ([] ++ d2) with d2.
  rewrite (strip_digits d1 N1 D1), (strip_digits d2 N2 D2).
  rewrite (int_of_str_digits d1 N1 D1), (int_of_str_digits d2 N2 D2).
  destruct (within_int_limit d1); [|reflexivity].
  destruct (within_int_limit d2); reflexivity.
Qed.

Lemma check_random (d1 d2 : str) :
  digits d1 = true -> digits d2 = true ->
  within_int_limit d1 = true -> within_int_limit d2 = true ->
  check_placeholder (element_text (Random d1 d2),
                     lit "random:" ++ random_range d1 [] [] d2)
  = element_issues (Random d1 d2).
Proof.
  intros H1 H2 L1 L2. unfold check_placeholder. cbn [fst snd].
  rewrite (not_literal_name _ "r"%char
             (lit "andom:" ++ random_range d1 [] [] d2))
    by (reflexivity || discriminate).
  replace (startswith (lit "random:" ++ random_range d1 [] [] d2)
                      (lit "input:")) with false by reflexivity.
  rewrite startswith_app.
  change (skipn 7 (lit "random:" ++ random_range d1 [] [] d2))
    with (random_range d1 [] [] d2).
  rewrite (check_range_digits _ d1 d2 H1 H2), L1, L2. reflexivity.
Qed.

Lemma check_element (e : element) (c : str) :
  well_formed e = true -> content e = Some c ->
  check_placeholder (element_text e, c) = element_issues e.
Proof.
  destruct e as [s|t|p|d1 d2]; simpl; intros W H; try discriminate;
    injection H as <-.
  - apply check_literal.
  - apply check_input.
  - apply well_formed_random in W. destruct W as (W1 & W2 & L1 & L2).
    apply (check_random d1 d2 W1 W2 L1 L2).
Qed.

Lemma plain_no_issue (e : element) :
  content e = None -> element_issues e = [].
Proof. destruct e; simpl; intros H; try discriminate. reflexivity. Qed.

(** The issues of a template are those of its elements, in order. *)
Lemma issues_template (es : list element) :
  forallb well_formed es = true ->
  issues (template es) = flat_map element_issues es.
Proof.
  intros W. unfold issues, check_braces.
  rewrite (template_braces es W), Nat.eqb_refl. cbn [negb]. rewrite app_nil_l.
  rewrite <- (app_nil_r (template es)), (template_matches es [] W).
  rewrite app_nil_r.
  induction es as [|e es IH]; [reflexivity|].
  simpl in W. apply andb_true_iff in W. destruct W as [We W].
  cbn [flat_map]. rewrite flat_map_app, (IH W). f_equal.
  destruct (content e) as [c|] eqn:Ec.
  - cbn [flat_map]. rewrite app_nil_r. apply (check_element e c We Ec).
  - rewrite (plain_no_issue e Ec). reflexivity.
Qed.

End EditorFacts.

(** ** Facts about the evaluation of a template *)

Module TemplateFacts.

Import Builtins Editor Terms EditorFacts.

Lemma template_of_app (ps qs : list piece) :
  template_of (ps ++ qs) = template_of ps ++ template_of qs.
Proof. apply flat_map_app. Qed.

Lemma value_of_app (w : world) (ps qs : list piece) :
  value_of w (ps ++ qs) = value_of w ps ++ value_of w qs.
Proof. apply flat_map_app. Qed.

Lemma plain_pieces_snoc (ps : list piece) (p : piece) :
  plain_pieces ps -> (forall s, p = Text s -> no_open_brace s) ->
  plain_pieces (ps ++ [p]).
Proof.
  intros H Hp s Hin. apply in_app_or in Hin.
  destruct Hin as [Hin|[->|[]]]; [apply H, Hin|apply Hp; reflexivity].
Qed.

Lemma input_span_passed_over (prompt : str) :
  no_open_brace prompt -> passed_over (lit "input:" ++ prompt ++ lit "}").
Proof.
  intros Hp. split.
  - apply no_open_brace_app; [no_brace|].
    apply no_open_brace_app; [exact Hp|no_brace].
  - intros l t Hl. simpl in Hl.
    repeat (destruct Hl as [<-|Hl]; [reflexivity|]). contradiction.
Qed.

(** The blocks of the input and random placeholders, behind the opening
    brace. *)
Lemma block_passed_over (e : element) :
  well_formed e = true ->
  match e with
  | Input _ | Random _ _ =>
      exists b, element_text e = "{"%char :: b /\ passed_over b
  | _ => True
  end.
Proof.
  destruct e as [s|t|p|d1 d2]; intros W; try exact I.
  - exists (lit "input:" ++ p ++ lit "}"). split; [reflexivity|].
    apply input_span_passed_over, brace_free_open, W.
  - apply well_formed_random in W. destruct W as (W1 & W2 & _).
    apply digits_spec in W1, W2.
    exists (lit "random:" ++ random_range d1 [] [] d2 ++ lit "}").
    split; [reflexivity|].
    apply random_span_passed_over; tauto.
Qed.

Lemma expand_literals_nil (w : world) : expand_literals w [] = [].
Proof. reflexivity. Qed.

(** The literal substitutions, element by element. *)
Lemma expand_literals_elements (w : world) (es : list element) :
  forallb well_formed es = true ->
  forall ps, plain_pieces ps ->
    expand_literals w (template_of ps ++ template es)
    = value_of w ps ++ flat_map (literals_done w) es.
Proof.
  induction es as [|e es IH]; intros W ps Hps.
  - cbn [template flat_map]. rewrite !app_nil_r.
    apply expand_literals_pieces, Hps.
  - simpl in W. apply andb_true_iff in W. destruct W as [We W].
    cbn [template flat_map]. fold (template es).
    pose proof (block_passed_over e We) as Hb.
    destruct e as [s|t|p|d1 d2].
    + rewrite app_assoc.
      replace (element_text (Plain_text s)) with (template_of [Text s])
        by (simpl; apply app_nil_r).
      rewrite <- template_of_app, (IH W).
      * rewrite value_of_app. simpl. rewrite app_nil_r, <- app_assoc.
        reflexivity.
      * apply plain_pieces_snoc; [exact Hps|].
        intros s' E. injection E as <-. apply brace_free_open, We.
    + rewrite app_assoc.
      replace (element_text (Literal t)) with (template_of [Placeholder t])
        by (simpl; apply app_nil_r).
      rewrite <- template_of_app, (IH W).
      * rewrite value_of_app. simpl. rewrite app_nil_r, <- app_assoc.
        reflexivity.
      * apply plain_pieces_snoc; [exact Hps|]. intros s' E. discriminate.
    + destruct Hb as (b & Eb & Hb). rewrite Eb.
      change (("{"%char :: b) ++ template es)
        with ("{"%char :: b ++ template es).
      rewrite (expand_literals_block w b _ _ Hb).
      rewrite (expand_literals_pieces w ps Hps).
      change (template es) with (template_of [] ++ template es).
      rewrite (IH W []) by (intros s' []).
      cbn [literals_done]. rewrite Eb. reflexivity.
    + destruct Hb as (b & Eb & Hb). rewrite Eb.
      change (("{"%char :: b) ++ template es)
        with ("{"%char :: b ++ template es).
      rewrite (expand_literals_block w b _ _ Hb).
      rewrite (expand_literals_pieces w ps Hps).
      change (template es) with (template_of [] ++ template es).
      rewrite (IH W []) by (intros s' []).
      cbn [literals_done]. rewrite Eb. reflexivity.
Qed.

Lemma expand_literals_template (w : world) (es : list element) :
  forallb well_formed es = true ->
  expand_literals w (template es) = flat_map (literals_done w) es.
Proof.
  intros W.
  apply (expand_literals_elements w es W []). intros s [].
Qed.

(** *** The random substitutions *)

Lemma tag_value_plain (w : world) (t : literal_tag) :
  (t = Tag_clipboard -> no_open_brace (get_clipboard_content w)) ->
  no_open_brace (tag_value w t).
Proof.
  intros H. destruct (clock_texts_plain (now w)) as (H1 & H2 & H3 & H4).
  destruct t; simpl; try assumption. apply H. reflexivity.
Qed.

Lemma input_span_inert_random (prompt : str) :
  no_open_brace prompt -> inert match_random (input_span prompt).
Proof.
  intros Hp.
  change (input_span prompt)
    with ("{"%char :: lit "input:" ++ prompt ++ lit "}").
  apply inert_block; [exact match_random_head| |reflexivity].
  apply no_open_brace_app; [no_brace|].
  apply no_open_brace_app; [exact Hp|no_brace].
Qed.

(** What an element other than a random placeholder has become is passed
    over by the random substitution. *)
Lemma literals_done_inert (w : world) (e : element) :
  well_formed e = true ->
  (e = Literal Tag_clipboard -> no_open_brace (get_clipboard_content w)) ->
  match e with
  | Random _ _ => True
  | _ => inert match_random (literals_done w e)
  end.
Proof.
  intros W Hc. destruct e as [s|t|p|d1 d2]; simpl; [| | |exact I].
  - apply inert_no_open_brace; [exact match_random_head|].
    apply brace_free_open, W.
  - apply inert_no_open_brace; [exact match_random_head|].
    apply tag_value_plain. intros ->. apply Hc. reflexivity.
  - apply input_span_inert_random, brace_free_open, W.
Qed.

Lemma expand_random_elements (w : world) (es : list element) :
  forallb well_formed es = true ->
  (In (Literal Tag_clipboard) es -> no_open_brace (get_clipboard_content w)) ->
  forall k,
    expand_random_from w k (flat_map (literals_done w) es)
    = randoms_done w k es.
Proof.
  induction es as [|e es IH]; intros W Hc k; [reflexivity|].
  simpl in W. apply andb_true_iff in W. destruct W as [We W].
  assert (Hc' : In (Literal Tag_clipboard) es ->
                no_open_brace (get_clipboard_content w))
    by (intros H; apply Hc; right; exact H).
  pose proof (literals_done_inert w e We) as Hi.
  cbn [flat_map].
  destruct e as [s|t|p|d1 d2].
  - rewrite expand_random_inert by (apply Hi; discriminate).
    cbn [randoms_done]. rewrite (IH W Hc'). reflexivity.
  - rewrite expand_random_inert
      by (apply Hi; intros E; apply Hc; left; exact E).
    cbn [randoms_done]. rewrite (IH W Hc'). reflexivity.
  - rewrite expand_random_inert by (apply Hi; discriminate).
    cbn [randoms_done]. rewrite (IH W Hc'). reflexivity.
  - apply well_formed_random in We. destruct We as (W1 & W2 & L1 & L2).
    apply digits_spec in W1, W2. destruct W1 as [N1 D1], W2 as [N2 D2].
    cbn [literals_done element_text randoms_done].
    rewrite (expand_random_match w k _ _
               (random_span (random_range d1 [] [] d2),
                random_range d1 [] [] d2));
      [|discriminate
       |apply (match_random_occ d1 [] [] d2); auto].
    rewrite (replace_random_range w k _ d1 [] [] d2) by auto.
    rewrite L1, L2. cbn [andb].
    destruct (decimal_value d1 <=? decimal_value d2)%Z;
      cbn [fst snd]; rewrite (IH W Hc'); reflexivity.
Qed.

(** *** The input substitutions *)

Lemma answers_in_place_chars (w : world) (k : nat) (s : str)
  (ts : list (token (str * str))) :
  answers_in_place w k (map Char s ++ ts) = s ++ answers_in_place w k ts.
Proof. induction s as [|c s IH]; simpl; [reflexivity|]. rewrite IH. reflexivity. Qed.

Lemma outside_chars (s : str) (ts : list (token (str * str))) :
  outside (map Char s ++ ts) = s ++ outside ts.
Proof. induction s as [|c s IH]; simpl; [reflexivity|]. rewrite IH. reflexivity. Qed.

Lemma input_tokens_plain (s t : str) :
  no_open_brace s ->
  tokens match_input (s ++ t) = map Char s ++ tokens match_input t.
Proof.
  intros H. apply (tokens_inert _ match_input match_input_shrinks).
  apply inert_no_open_brace; [exact match_input_head|exact H].
Qed.

Lemma input_tokens_span (prompt t : str) :
  forallb no_close_brace prompt = true ->
  tokens match_input (input_span prompt ++ t)
  = Match (input_span prompt, prompt) :: tokens match_input t.
Proof.
  intros H.
  apply (tokens_match_head _ match_input match_input_shrinks).
  - unfold input_span. discriminate.
  - apply match_input_occ, H.
Qed.

(** What the walk of the input pattern finds in a template whose other
    placeholders have been substituted: the answers go where the input
    placeholders stand, the text around them holds no opening brace, and
    the prompts are those of the template. *)
Lemma input_walk_elements (w : world) (es : list element) :
  forallb well_formed es = true ->
  (In (Literal Tag_clipboard) es -> no_open_brace (get_clipboard_content w)) ->
  forall k j,
    let ts := tokens match_input (randoms_done w k es) in
    answers_in_place w j ts = render w k j es /\
    no_open_brace (outside ts) /\
    map snd (matches ts) = prompts es.
Proof.
  induction es as [|e es IH]; intros W Hc k j.
  - simpl. repeat split. intros [].
  - simpl in W. apply andb_true_iff in W. destruct W as [We W].
    assert (Hc' : In (Literal Tag_clipboard) es ->
                  no_open_brace (get_clipboard_content w))
      by (intros H; apply Hc; right; exact H).
    assert (Hplain : forall v k' rest_render,
              no_open_brace v ->
              (forall j', render w k' j' es = rest_render j') ->
              let ts := tokens match_input (v ++ randoms_done w k' es) in
              answers_in_place w j ts = v ++ rest_render j /\
              no_open_brace (outside ts) /\
              map snd (matches ts) = prompts es).
    { intros v k' rr Hv Hr. cbv zeta.
      destruct (IH W Hc' k' j) as (A & B & C).
      rewrite (input_tokens_plain v _ Hv).
      rewrite answers_in_place_chars, outside_chars, matches_app,
        matches_map_Char, A, Hr.
      repeat split; [|exact C].
      apply no_open_brace_app; assumption. }
    destruct e as [s|t|p|d1 d2]; cbn [randoms_done render prompts flat_map
                                        literals_done element_text].
    + apply (Hplain s k (fun j' => render w k j' es));
        [apply brace_free_open, We|reflexivity].
    + apply (Hplain (tag_value w t) k (fun j' => render w k j' es));
        [|reflexivity].
      apply tag_value_plain. intros ->. apply Hc. left. reflexivity.
    + cbv zeta. destruct (IH W Hc' k (S j)) as (A & B & C).
      rewrite (input_tokens_span p _ (brace_free_close p We)).
      cbn [answers_in_place outside matches map snd].
      rewrite A, C. repeat split. exact B.
    + destruct (decimal_value d1 <=? decimal_value d2)%Z.
      * apply (Hplain _ (S k) (fun j' => render w (S k) j' es));
          [apply py_str_no_open_brace|reflexivity].
      * apply (Hplain _ k (fun j' => render w k j' es));
          [apply min_max_marker_no_open_brace|reflexivity].
Qed.

Lemma collect_inputs_plain (w : world) (ms : list (str * str)) :
  plain_answers w ->
  forall k, Forall no_open_brace (map snd (collect_inputs w k ms)).
Proof.
  intros H. induction ms as [|[g0 g1] ms IH]; intros k; simpl.
  - constructor.
  - constructor; [apply H|apply IH].
Qed.

(** The evaluation of a template made of elements. *)
Lemma process_elements (w : world) (es : list element) :
  forallb well_formed es = true ->
  (In (Literal Tag_clipboard) es -> no_open_brace (get_clipboard_content w)) ->
  plain_answers w ->
  process_placeholders w (template es) = render w 0 0 es /\
  process_placeholders_dialogs w (template es) = prompts es.
Proof.
  intros W Hc Ha.
  unfold process_placeholders, process_placeholders_dialogs, before_inputs,
    expand_random.
  rewrite (expand_literals_template w es W).
  rewrite (expand_random_elements w es W Hc 0).
  destruct (input_walk_elements w es W Hc 0 0) as (A & B & C).
  split; [|exact C].
  rewrite expand_inputs_in_place_eq; [exact A|exact B|].
  apply collect_inputs_plain, Ha.
Qed.

End TemplateFacts.

(** ** Facts about [strip] and [int] *)

Module StripFacts.

Import Builtins Editor Terms EditorFacts.

Lemma lstrip_decomp (s : str) :
  exists l, s = l ++ lstrip s /\ forallb isspace l = true.
Proof.
  induction s as [|c s IH].
  - exists []. split; reflexivity.
  - simpl. destruct (isspace c) eqn:E.
    + destruct IH as (l & E1 & E2). exists (c :: l). simpl.
      rewrite E, E2, <- E1. split; reflexivity.
    + exists []. split; reflexivity.
Qed.

Lemma lstrip_stopped (s : str) : stops isspace (lstrip s).
Proof.
  induction s as [|c s IH]; simpl; [exact I|].
  destruct (isspace c) eqn:E; [exact IH|exact E].
Qed.

(** [strip] removes white space at both ends. *)
Lemma strip_decomp (s : str) :
  exists l r, s = l ++ strip s ++ r /\
              forallb isspace l = true /\ forallb isspace r = true.
Proof.
  destruct (lstrip_decomp s) as (l & E1 & Hl).
  destruct (lstrip_decomp (rev (lstrip s))) as (r & E2 & Hr).
  exists l, (rev r). unfold strip. split; [|split].
  - rewrite <- rev_app_distr, <- E2, rev_involutive. exact E1.
  - exact Hl.
  - rewrite forallb_rev. exact Hr.
Qed.

Lemma strip_forallb (p : ascii -> bool) (s : str) :
  forallb p s = true -> forallb p (strip s) = true.
Proof.
  intros H. destruct (strip_decomp s) as (l & r & E & _).
  rewrite E, !forallb_app in H.
  apply andb_true_iff in H. destruct H as [_ H].
  apply andb_true_iff in H. tauto.
Qed.

Lemma strip_stopped (s : str) :
  stops isspace (strip s) /\ stops isspace (rev (strip s)).
Proof.
  unfold strip. rewrite rev_involutive. split; [|apply lstrip_stopped].
  destruct (lstrip_decomp (rev (lstrip s))) as (r & E & _).
  apply (f_equal (@rev ascii)) in E.
  rewrite rev_involutive, rev_app_distr in E.
  pose proof (lstrip_stopped s) as H. rewrite E in H.
  destruct (rev (lstrip (rev (lstrip s)))); [exact I|exact H].
Qed.

Lemma strip_idempotent (s : str) : strip (strip s) = strip s.
Proof.
  destruct (strip_stopped s) as [H1 H2].
  unfold strip at 1. rewrite (lstrip_stops _ H1), (lstrip_stops _ H2).
  apply rev_involutive.
Qed.

Lemma int_lstrip_decomp (s : str) :
  exists l, s = l ++ int_lstrip s /\ forallb int_space l = true.
Proof.
  induction s as [|c s IH].
  - exists []. split; reflexivity.
  - simpl. destruct (int_space c) eqn:E.
    + destruct IH as (l & E1 & E2). exists (c :: l). simpl.
      rewrite E, E2, <- E1. split; reflexivity.
    + exists []. split; reflexivity.
Qed.

Lemma int_strip_decomp (s : str) :
  exists l r, s = l ++ int_strip s ++ r /\
              forallb int_space l = true /\ forallb int_space r = true.
Proof.
  destruct (int_lstrip_decomp s) as (l & E1 & Hl).
  destruct (int_lstrip_decomp (rev (int_lstrip s))) as (r & E2 & Hr).
  exists l, (rev r). unfold int_strip. split; [|split].
  - rewrite <- rev_app_distr, <- E2, rev_involutive. exact E1.
  - exact Hl.
  - rewrite forallb_rev. exact Hr.
Qed.

Lemma int_space_not_brace (c : ascii) :
  int_space c = true -> not_brace c = true.
Proof. ascii_cases c. Qed.

Lemma underscore_not_brace (c : ascii) :
  ascii_eqb c "_"%char = true -> not_brace c = true.
Proof. ascii_cases c. Qed.

Lemma sign_not_brace (c : ascii) :
  ascii_eqb c "+"%char = true \/ ascii_eqb c "-"%char = true ->
  not_brace c = true.
Proof. intros [H|H]; revert H; ascii_cases c. Qed.

Lemma int_digits_brace_free (s : str) :
  forall acc b v, int_digits acc b s = Some v -> brace_free s = true.
Proof.
  induction s as [|c s IH]; intros acc b v H; [reflexivity|].
  simpl in H. simpl. destruct (is_digit09 c) eqn:Ed.
  - rewrite (digit_not_brace c Ed). exact (IH _ _ _ H).
  - destruct (ascii_eqb c "_"%char) eqn:Eu; [|discriminate].
    destruct b; [|discriminate]. simpl in H.
    rewrite (underscore_not_brace c Eu). exact (IH _ _ _ H).
Qed.

Lemma int_limited_digits (r : str) (v : Z) :
  int_limited r = Some v -> int_digits 0 false r = Some v.
Proof.
  unfold int_limited. destruct (int_digits 0 false r); [|discriminate].
  destruct (within_int_limit _); [tauto|discriminate].
Qed.

(** What [int] accepts holds no brace. *)
Lemma int_of_str_brace_free (s : str) (v : Z) :
  int_of_str s = Some v -> brace_free s = true.
Proof.
  unfold int_of_str. intros H.
  destruct (int_strip_decomp s) as (l & r & E & Hl & Hr).
  assert (Hcore : brace_free (int_strip s) = true).
  { destruct (int_strip s) as [|c core]; [discriminate|].
    destruct (ascii_eqb c "+"%char) eqn:Ep.
    - simpl. rewrite (sign_not_brace c (or_introl Ep)).
      exact (int_digits_brace_free _ _ _ _ (int_limited_digits _ _ H)).
    - destruct (ascii_eqb c "-"%char) eqn:Em.
      + simpl. rewrite (sign_not_brace c (or_intror Em)).
        destruct (int_limited core) eqn:Ed; [|discriminate].
        exact (int_digits_brace_free _ _ _ _ (int_limited_digits _ _ Ed)).
      + exact (int_digits_brace_free _ _ _ _ (int_limited_digits _ _ H)). }
  assert (Bl : brace_free l = true)
    by (apply (forallb_weaken _ _ l int_space_not_brace Hl)).
  assert (Br : brace_free r = true)
    by (apply (forallb_weaken _ _ r int_space_not_brace Hr)).
  rewrite E, !brace_free_app, Hcore, Bl, Br. reflexivity.
Qed.

Lemma int_of_str_nonempty (s : str) (v : Z) :
  int_of_str s = Some v -> s <> [].
Proof. intros H ->. discriminate. Qed.

(** *** [endswith] on one character *)

Lemma endswith_nil (c : ascii) : endswith [] [c] = false.
Proof. reflexivity. Qed.

Lemma endswith_last (s : str) (c d : ascii) :
  endswith (s ++ [c]) [d] = ascii_eqb c d.
Proof.
  destruct (ascii_eqb c d) eqn:E.
  - apply ascii_eqb_eq in E. subst. apply endswith_app.
  - destruct (endswith (s ++ [c]) [d]) eqn:E'; [|reflexivity].
    apply endswith_inv in E'. destruct E' as [pre E'].
    apply app_inj_tail in E'. destruct E' as [_ ->].
    apply ascii_eqb_neq in E. congruence.
Qed.

End StripFacts.

(** ** Facts about dictionaries *)

Module DictFacts.

Import Builtins Dict.

Section Facts.

Variable V : Type.

Implicit Types (d : dict V) (k : str) (v : V).

Lemma lookup_set_same d k v : lookup (set_item d k v) k = Some v.
Proof.
  induction d as [|[k' v'] d IH]; simpl.
  - rewrite (proj2 (str_eqb_eq k k) eq_refl). reflexivity.
  - destruct (str_eqb k' k) eqn:E; simpl; rewrite E; [reflexivity|exact IH].
Qed.

Lemma lookup_set_other d k v k' :
  k' <> k -> lookup (set_item d k v) k' = lookup d k'.
Proof.
  intros Hne. induction d as [|[k1 v1] d IH]; simpl.
  - destruct (str_eqb k k') eqn:E; [|reflexivity].
    apply str_eqb_eq in E. congruence.
  - destruct (str_eqb k1 k) eqn:E; simpl.
    + apply str_eqb_eq in E. subst k1.
      destruct (str_eqb k k') eqn:E'; [|reflexivity].
      apply str_eqb_eq in E'. congruence.
    + rewrite IH. reflexivity.
Qed.

Lemma has_key_In d k : has_key d k = true <-> In k (map fst d).
Proof.
  unfold has_key. induction d as [|[k' v'] d IH]; simpl.
  - split; [discriminate|tauto].
  - destruct (str_eqb k' k) eqn:E.
    + apply str_eqb_eq in E. split; auto.
    + rewrite IH. split; [tauto|]. intros [H|H]; [|exact H].
      apply str_eqb_eq in H. congruence.
Qed.

Lemma has_key_false d k : has_key d k = false <-> ~ In k (map fst d).
Proof.
  rewrite <- has_key_In. destruct (has_key d k); split; intros; congruence.
Qed.

Lemma lookup_None d k : lookup d k = None <-> ~ In k (map fst d).
Proof.
  rewrite <- has_key_false. unfold has_key.
  destruct (lookup d k); split; intros; congruence.
Qed.

Lemma lookup_In d k v : lookup d k = Some v -> In (k, v) d.
Proof.
  induction d as [|[k' v'] d IH]; simpl; [discriminate|].
  destruct (str_eqb k' k) eqn:E.
  - apply str_eqb_eq in E. intros H. injection H as <-. subst. auto.
  - auto.
Qed.

Lemma In_lookup d k v :
  distinct_keys d -> In (k, v) d -> lookup d k = Some v.
Proof.
  unfold distinct_keys. induction d as [|[k' v'] d IH]; simpl; [tauto|].
  intros Hd [H|H]; inversion Hd as [|? ? Hn Hd']; subst.
  - injection H as -> ->. rewrite (proj2 (str_eqb_eq k k) eq_refl).
    reflexivity.
  - destruct (str_eqb k' k) eqn:E; [|apply IH; assumption].
    apply str_eqb_eq in E. subst k'. exfalso. apply Hn.
    apply (in_map fst) in H. exact H.
Qed.

Lemma keys_set d k v :
  map fst (set_item d k v)
  = if has_key d k then map fst d else map fst d ++ [k].
Proof.
  unfold has_key. induction d as [|[k' v'] d IH]; simpl; [reflexivity|].
  destruct (str_eqb k' k) eqn:E; simpl; [reflexivity|].
  rewrite IH. destruct (lookup d k); reflexivity.
Qed.

Lemma length_set d k v :
  length (set_item d k v) = if has_key d k then length d else S (length d).
Proof.
  rewrite <- (length_map fst), keys_set.
  destruct (has_key d k); rewrite ?length_app, length_map; simpl; lia.
Qed.

Lemma distinct_set d k v :
  distinct_keys d -> distinct_keys (set_item d k v).
Proof.
  unfold distinct_keys. intros H. rewrite keys_set.
  destruct (has_key d k) eqn:E; [exact H|].
  apply has_key_false in E.
  apply NoDup_rev in H. rewrite <- (rev_involutive (map fst d ++ [k])).
  apply NoDup_rev. rewrite rev_app_distr. simpl.
  constructor; [|exact H]. rewrite <- in_rev. exact E.
Qed.

Lemma keys_del d k : forall x, In x (map fst (del_item d k)) -> In x (map fst d).
Proof.
  induction d as [|[k' v'] d IH]; simpl; [tauto|].
  intros x. destruct (str_eqb k' k); simpl; [tauto|].
  intros [H|H]; [left; exact H|right; apply IH, H].
Qed.

Lemma distinct_del d k : distinct_keys d -> distinct_keys (del_item d k).
Proof.
  unfold distinct_keys. induction d as [|[k' v'] d IH]; simpl; [tauto|].
  intros H. inversion H as [|? ? Hn Hd]; subst.
  destruct (str_eqb k' k); [exact Hd|]. simpl.
  constructor; [|apply IH, Hd]. intros Hin. apply Hn, (keys_del d k), Hin.
Qed.

Lemma lookup_del_same d k :
  distinct_keys d -> lookup (del_item d k) k = None.
Proof.
  unfold distinct_keys. induction d as [|[k' v'] d IH]; simpl; [reflexivity|].
  intros H. inversion H as [|? ? Hn Hd]; subst.
  destruct (str_eqb k' k) eqn:E.
  - apply str_eqb_eq in E. subst k'. apply lookup_None. exact Hn.
  - simpl. rewrite E. apply IH, Hd.
Qed.

Lemma lookup_del_other d k k' :
  k' <> k -> lookup (del_item d k) k' = lookup d k'.
Proof.
  intros Hne. induction d as [|[k1 v1] d IH]; simpl; [reflexivity|].
  destruct (str_eqb k1 k) eqn:E; simpl.
  - apply str_eqb_eq in E. subst k1.
    destruct (str_eqb k k') eqn:E'; [|reflexivity].
    apply str_eqb_eq in E'. congruence.
  - rewrite IH. reflexivity.
Qed.

Lemma length_del d k :
  has_key d k = true -> S (length (del_item d k)) = length d.
Proof.
  unfold has_key. induction d as [|[k' v'] d IH]; simpl; [discriminate|].
  destruct (str_eqb k' k); simpl; [reflexivity|].
  intros H. rewrite (IH H). reflexivity.
Qed.

Lemma del_absent d k : has_key d k = false -> del_item d k = d.
Proof.
  unfold has_key. induction d as [|[k' v'] d IH]; simpl; [reflexivity|].
  destruct (str_eqb k' k); [discriminate|].
  intros H. rewrite (IH H). reflexivity.
Qed.

(** [update]: the other dictionary wins, the rest is kept. *)
Lemma lookup_update (other : dict V) :
  distinct_keys other ->
  forall d k,
    lookup (update d other) k
    = match lookup other k with
      | Some v => Some v
      | None => lookup d k
      end.
Proof.
  unfold distinct_keys, update.
  induction other as [|[k1 v1] other IH]; intros H d k; [reflexivity|].
  simpl in H. inversion H as [|? ? Hn Hd]; subst.
  cbn [fold_left fst snd lookup]. rewrite (IH Hd).
  destruct (str_eqb k1 k) eqn:E.
  - apply str_eqb_eq in E. subst k1.
    rewrite (proj2 (lookup_None other k) Hn). apply lookup_set_same.
  - destruct (lookup other k); [reflexivity|].
    apply lookup_set_other. intros ->.
    rewrite (proj2 (str_eqb_eq k1 k1) eq_refl) in E. discriminate.
Qed.

Lemma keys_update (other : dict V) :
  forall d k, In k (map fst d) -> In k (map fst (update d other)).
Proof.
  unfold update. induction other as [|[k1 v1] other IH]; intros d k H;
    [exact H|].
  cbn [fold_left fst snd]. apply IH. rewrite keys_set.
  destruct (has_key d k1); [exact H|]. apply in_or_app. left. exact H.
Qed.

Lemma distinct_update (other : dict V) :
  forall d, distinct_keys d -> distinct_keys (update d other).
Proof.
  unfold update. induction other as [|[k1 v1] other IH]; intros d H;
    [exact H|].
  cbn [fold_left fst snd]. apply IH, distinct_set, H.
Qed.

End Facts.

Lemma lookup_get_item (d : snippets) (k : str) : lookup d k = get_item d k.
Proof.
  induction d as [|[k' v'] d IH]; simpl; [reflexivity|].
  rewrite IH. reflexivity.
Qed.

End DictFacts.

(** ** Facts about the order of strings and [sorted] *)

Module SortFacts.

Import Builtins.

Lemma code_inj (x y : ascii) : code x = code y -> x = y.
Proof.
  unfold code. intros H.
  rewrite <- (ascii_N_embedding x), <- (ascii_N_embedding y), H.
  reflexivity.
Qed.

Lemma str_ltb_cons (x y : ascii) (a b : str) :
  str_ltb (x :: a) (y :: b)
  = (code x <? code y)%N || ((code x =? code y)%N && str_ltb a b).
Proof. reflexivity. Qed.

Lemma str_ltb_irrefl (a : str) : str_ltb a a = false.
Proof.
  induction a as [|x a IH]; [reflexivity|].
  rewrite str_ltb_cons, IH, N.ltb_irrefl, andb_false_r. reflexivity.
Qed.

Lemma str_trichotomy (a b : str) :
  str_ltb a b = true \/ a = b \/ str_ltb b a = true.
Proof.
  revert b. induction a as [|x a IH]; intros [|y b].
  - right. left. reflexivity.
  - left. reflexivity.
  - right. right. reflexivity.
  - rewrite !str_ltb_cons.
    destruct (N.lt_trichotomy (code x) (code y)) as [H|[H|H]].
    + left. apply N.ltb_lt in H. rewrite H. reflexivity.
    + apply code_inj in H. subst y.
      rewrite N.ltb_irrefl, N.eqb_refl. simpl.
      destruct (IH b) as [H|[H|H]]; [left; exact H| |right; right; exact H].
      right. left. congruence.
    + right. right. apply N.ltb_lt in H. rewrite H. reflexivity.
Qed.

Lemma str_ltb_trans (a b c : str) :
  str_ltb a b = true -> str_ltb b c = true -> str_ltb a c = true.
Proof.
  revert b c. induction a as [|x a IH]; intros [|y b] [|z c];
    try discriminate; try reflexivity.
  rewrite !str_ltb_cons. intros H1 H2.
  apply orb_true_iff in H1, H2. apply orb_true_iff.
  destruct H1 as [H1|H1], H2 as [H2|H2].
  - left. apply N.ltb_lt in H1, H2. apply N.ltb_lt. lia.
  - apply andb_true_iff in H2. destruct H2 as [E _].
    apply N.eqb_eq in E. left. rewrite <- E. exact H1.
  - apply andb_true_iff in H1. destruct H1 as [E _].
    apply N.eqb_eq in E. left. rewrite E. exact H2.
  - apply andb_true_iff in H1, H2. destruct H1 as [E1 H1], H2 as [E2 H2].
    apply N.eqb_eq in E1, E2. right.
    rewrite E1, E2, N.eqb_refl. simpl. exact (IH _ _ H1 H2).
Qed.

Lemma str_ltb_asym (a b : str) : str_ltb a b = true -> str_ltb b a = false.
Proof.
  intros H. destruct (str_ltb b a) eqn:E; [|reflexivity].
  pose proof (str_ltb_trans _ _ _ H E) as T.
  rewrite str_ltb_irrefl in T. discriminate.
Qed.

(** [a <= b] *)
Lemma str_le_trans (a b c : str) :
  str_ltb b a = false -> str_ltb c b = false -> str_ltb c a = false.
Proof.
  intros H1 H2. destruct (str_ltb c a) eqn:E; [|reflexivity].
  destruct (str_trichotomy b c) as [H|[H|H]].
  - rewrite (str_ltb_trans _ _ _ H E) in H1. discriminate.
  - subst. congruence.
  - congruence.
Qed.

Lemma insert_sorted_perm (s : str) (l : list str) :
  Permutation (insert_sorted s l) (s :: l).
Proof.
  induction l as [|h t IH]; simpl; [apply Permutation_refl|].
  destruct (str_ltb h s); [|apply Permutation_refl].
  eapply perm_trans; [apply perm_skip, IH|apply perm_swap].
Qed.

Lemma sorted_perm (l : list str) : Permutation (sorted l) l.
Proof.
  induction l as [|s l IH]; simpl; [constructor|].
  eapply perm_trans; [apply insert_sorted_perm|apply perm_skip, IH].
Qed.

Lemma sorted_In (l : list str) (x : str) : In x (sorted l) <-> In x l.
Proof.
  split; apply Permutation_in;
    [|apply Permutation_sym]; apply sorted_perm.
Qed.

Lemma sorted_length (l : list str) : length (sorted l) = length l.
Proof. apply Permutation_length, sorted_perm. Qed.

Lemma insert_sorted_ascending (s : str) (l : list str) :
  StronglySorted (fun a b => str_ltb b a = false) l ->
  StronglySorted (fun a b => str_ltb b a = false) (insert_sorted s l).
Proof.
  induction 1 as [|h t Hs IH Hall]; simpl.
  - repeat constructor.
  - destruct (str_ltb h s) eqn:E.
    + constructor; [exact IH|].
      eapply Permutation_Forall;
        [apply Permutation_sym, insert_sorted_perm|].
      constructor; [apply str_ltb_asym, E|exact Hall].
    + constructor; [constructor; assumption|].
      constructor; [exact E|].
      eapply Forall_impl; [|exact Hall].
      intros x Hx. cbv beta in *. apply (str_le_trans s h x); assumption.
Qed.

Lemma sorted_ascending (l : list str) :
  StronglySorted (fun a b => str_ltb b a = false) (sorted l).
Proof.
  induction l; simpl; [constructor|apply insert_sorted_ascending; assumption].
Qed.

(** A sorted list without repetition is strictly ascending. *)
Lemma sorted_strict (l : list str) :
  NoDup l -> StronglySorted str_lt (sorted l).
Proof.
  intros Hn.
  assert (Hd : NoDup (sorted l)).
  { eapply Permutation_NoDup; [apply Permutation_sym, sorted_perm|exact Hn]. }
  pose proof (sorted_ascending l) as Hs.
  induction Hs as [|h t Hs IH Hall]; [constructor|].
  inversion Hd as [|? ? Hnot Hd']; subst.
  constructor; [apply IH, Hd'|].
  rewrite Forall_forall in *. intros x Hx. unfold str_lt.
  destruct (str_trichotomy h x) as [H|[H|H]]; [exact H| |].
  - subst. contradiction.
  - rewrite (Hall x Hx) in H. discriminate.
Qed.

(** *** Sets of strings *)

Lemma set_add_In (x y : str) (s : list str) :
  In y (set_add x s) <-> y = x \/ In y s.
Proof.
  unfold set_add. destruct (existsb (str_eqb x) s) eqn:E.
  - split; [auto|]. intros [->|H]; [|exact H].
    apply existsb_exists in E. destruct E as (z & Hz & E).
    apply str_eqb_eq in E. subst. exact Hz.
  - rewrite in_app_iff. simpl. split; [intros [H|[H|[]]]|intros [H|H]]; auto.
Qed.

Lemma set_add_NoDup (x : str) (s : list str) :
  NoDup s -> NoDup (set_add x s).
Proof.
  unfold set_add. intros H. destruct (existsb (str_eqb x) s) eqn:E; [exact H|].
  apply NoDup_rev in H. rewrite <- (rev_involutive (s ++ [x])).
  apply NoDup_rev. rewrite rev_app_distr. simpl.
  constructor; [|exact H]. rewrite <- in_rev. intros Hin.
  assert (T : existsb (str_eqb x) s = true).
  { apply existsb_exists. exists x. split; [exact Hin|].
    apply str_eqb_eq. reflexivity. }
  congruence.
Qed.

Lemma fold_set_add (l acc : list str) :
  NoDup acc ->
  NoDup (fold_left (fun a x => set_add x a) l acc) /\
  forall y, In y (fold_left (fun a x => set_add x a) l acc)
            <-> In y l \/ In y acc.
Proof.
  revert acc. induction l as [|x l IH]; intros acc H; simpl.
  - split; [exact H|]. intros y. tauto.
  - destruct (IH (set_add x acc) (set_add_NoDup x acc H)) as [H1 H2].
    split; [exact H1|]. intros y. rewrite H2, set_add_In.
    split; [intros [A|[A|A]]|intros [[A|A]|A]]; subst; auto.
Qed.

End SortFacts.

(** ** Facts about the refreshed list *)

Module ApplicationFacts.

Import Builtins Dict SnippetManager Editor.

Lemma refreshed_fields (e : fields) (d : snippets) (history : list str) :
  snippets_of (refreshed e d history) = d /\
  history_of (refreshed e d history) = history /\
  (rows_of (refreshed e d history), status_of (refreshed e d history))
  = refresh_snippet_list (search_var e) (category_filter_var e) d.
Proof. repeat split. Qed.

Lemma refreshed_status (e : fields) (d : snippets) (history : list str)
  (shortcut : str) :
  status_of (refreshed e d history) <> lit "Saved: " ++ shortcut /\
  status_of (refreshed e d history) <> lit "Deleted: " ++ shortcut.
Proof.
  unfold refreshed, refresh_snippet_list. cbn [status_of].
  destruct (_ && _); split; intros E; simpl in E; discriminate E.
Qed.

End ApplicationFacts.

(** * The claims *)

(** ** Shortcut matcher and input buffer *)

Module MatcherClaims.

Lemma suffix_same_length (l1 l2 a b : str) :
  l1 ++ a = l2 ++ b -> length a = length b -> a = b.
Proof.
  intros E L. rewrite <- (last_n_app l1 a), <- (last_n_app l2 b), L, E.
  reflexivity.
Qed.

Lemma on_key_press_scan (d : snippets) (st : listener) (k : key) :
  is_listening st = true -> resets_buffer k = false ->
  on_key_press d st k =
  let input := buffered (current_input st) k in
  match scan d input (possible_shortcuts d) with
  | Expand shortcut text_to_expand =>
      (set_input st [], Some (shortcut, text_to_expand))
  | Raised => (set_input st [], None)
  | NoMatch => (set_input st input, None)
  end.
Proof.
  intros L R. unfold on_key_press. rewrite L. simpl negb. cbv iota.
  destruct k; try reflexivity; discriminate.
Qed.

Lemma sig_no_match (v1 v2 : snippet) (pre : str) :
  scan (sig_snippets v1 v2) (pre ++ lit "xsig")
       (possible_shortcuts (sig_snippets v1 v2)) = NoMatch.
Proof.
  assert (H1 : endswith (pre ++ lit "xsig") (lit "/sig") = false).
  { destruct (endswith (pre ++ lit "xsig") (lit "/sig")) eqn:E;
      [|reflexivity].
    apply endswith_inv in E. destruct E as [p E].
    apply suffix_same_length in E; [discriminate|reflexivity]. }
  assert (H2 : should_expand (pre ++ lit "xsig") (lit "sig") = Some false).
  { change (pre ++ lit "xsig") with (pre ++ [ "x"%char ] ++ lit "sig").
    rewrite app_assoc, should_expand_suffix.
    unfold boundary. rewrite rev_unit. reflexivity. }
  change (possible_shortcuts (sig_snippets v1 v2))
    with [lit "/sig"; lit "sig"].
  cbn [scan]. rewrite H1, H2.
  destruct (endswith (pre ++ lit "xsig") (lit "sig")); reflexivity.
Qed.

(** C2: when a key event reaches the scan, the candidates are tried in
    order of descending shortcut length; the shortcut that fires is a suffix
    of the buffer that is command-like (first character not alphanumeric), or
    starts at buffer position 0, or is preceded by a non-alphanumeric
    character; no candidate before it in the order meets that condition and
    no shortcut meeting it is longer; nothing fires exactly when no shortcut
    meets the condition.  With the shortcuts "/sig" and "sig" and a buffer
    ending in "xsig" nothing fires. *)
Theorem C2_longest_match_first (d : snippets) (st : listener) (k : key) :
  is_listening st = true -> resets_buffer k = false ->
  let input := buffered (current_input st) k in
  StronglySorted longer_or_equal (possible_shortcuts d) /\
  Permutation (possible_shortcuts d) (keys d) /\
  match snd (on_key_press d st k) with
  | Some (s, t) =>
      (exists v, In (s, v) d /\ get_item d s = Some v /\ t = text v) /\
      expansion_condition input s /\
      (exists l1 l2, possible_shortcuts d = l1 ++ s :: l2 /\
         forall x, In x l1 -> ~ expansion_condition input x) /\
      (forall s', In s' (keys d) -> expansion_condition input s' ->
                  length s' <= length s)
  | None => forall s', In s' (keys d) -> ~ expansion_condition input s'
  end /\
  (forall v1 v2 pre, d = sig_snippets v1 v2 -> input = pre ++ lit "xsig" ->
     on_key_press d st k = (set_input st input, None)).
Proof.
  intros L R input.
  split; [apply sorted_longest_first_sorted|].
  split; [apply sorted_longest_first_perm|].
  rewrite (on_key_press_scan d st k L R). fold input. cbv zeta.
  split.
  - pose proof (scan_possible_shortcuts d input) as H.
    destruct (scan d input (possible_shortcuts d)); simpl; tauto.
  - intros v1 v2 pre -> E. rewrite E, sig_no_match. reflexivity.
Qed.

Lemma C2_longest_match_first_witness :
  let d := sig_snippets (Build_snippet (lit "Regards") [] [])
                        (Build_snippet (lit "signature") [] []) in
  let st := {| is_listening := true; current_input := lit "a /si" |} in
  let k := KeyCode (Some "g"%char) in
  is_listening st = true /\ resets_buffer k = false /\
  snd (on_key_press d st k) = Some (lit "/sig", lit "Regards") /\
  expansion_condition (lit "a /sig") (lit "/sig").
Proof.
  intros d st k.
  split; [reflexivity|]. split; [reflexivity|]. split; [reflexivity|].
  pose proof (C2_longest_match_first d st k eq_refl eq_refl) as H.
  destruct H as (_ & _ & H & _).
  change (snd (on_key_press d st k))
    with (Some (lit "/sig", lit "Regards")) in H.
  destruct H as (_ & H & _). exact H.
Defined.







(** A backspace on a buffer within capacity only removes the last
    character before the scan. *)
Lemma buffered_backspace (input : str) :
  length input <= max_buffer ->
  buffered input Key_backspace = removelast input.
Proof.
  intros H. unfold buffered.
  assert (L : length (removelast input) <= length input).
  { destruct input as [|c r] using rev_ind; [simpl; lia|].
    rewrite removelast_last, length_app. lia. }
  replace (max_buffer <? length (removelast input)) with false
    by (symmetry; apply Nat.ltb_ge; lia).
  reflexivity.
Qed.

(** C3, as the code has it: a backspace removes the last character of the
    buffer (nothing, on an empty buffer) and raises nothing; the scan then
    runs on the shortened buffer, so that an expansion is scheduled exactly
    when a shortcut meets its expansion condition there, and otherwise the
    shortened buffer is kept. *)
Theorem C3_backspace_then_scan (d : snippets) (st : listener) :
  is_listening st = true ->
  length (current_input st) <= max_buffer ->
  let shortened := removelast (current_input st) in
  (current_input st = [] -> shortened = []) /\
  (forall s c, current_input st = s ++ [c] -> shortened = s) /\
  match on_key_press d st Key_backspace with
  | (st', None) =>
      st' = set_input st shortened /\
      forall s', In s' (keys d) -> ~ expansion_condition shortened s'
  | (st', Some (s, t)) =>
      st' = set_input st [] /\
      expansion_condition shortened s /\
      exists v, In (s, v) d /\ t = text v
  end.
Proof.
  intros L Hlen shortened.
  split; [intros E; unfold shortened; rewrite E; reflexivity|].
  split; [intros s c E; unfold shortened; rewrite E; apply removelast_last|].
  rewrite (on_key_press_scan d st Key_backspace L eq_refl). cbv zeta.
  rewrite (buffered_backspace (current_input st) Hlen). fold shortened.
  pose proof (scan_possible_shortcuts d shortened) as H.
  destruct (scan d shortened (possible_shortcuts d)) as [|s t|].
  - split; [reflexivity|exact H].
  - destruct H as ((v & Hin & _ & Ht) & Hc & _). eauto.
  - contradiction.
Qed.

Lemma C3_backspace_then_scan_witness :
  let d := sig_snippets (Build_snippet (lit "Regards") [] [])
                        (Build_snippet (lit "signature") [] []) in
  let st := {| is_listening := true; current_input := [] |} in
  is_listening st = true /\
  length (current_input st) <= max_buffer /\
  on_key_press d st Key_backspace = (st, None).
Proof.
  intros d st. split; [reflexivity|]. split; [simpl; lia|].
  pose proof (C3_backspace_then_scan d st eq_refl (Nat.le_0_l _)) as H.
  destruct H as (_ & _ & H).
  change (on_key_press d st Key_backspace) with (st, @None (str * str)) in H.
  reflexivity.
Defined.

(** C3 as stated fails: typed from an empty buffer, with the snippet
    dictionary unchanged, these keys schedule no expansion, and the backspace
    that follows them schedules the expansion of "sig". *)
Lemma C3_backspace_dispatches :
  let '(st, scheduled) := run sig_only started overflow_then_erase in
  scheduled = [] /\
  current_input st = lit "sigz" /\
  on_key_press sig_only st Key_backspace
    = (set_input st [], Some (lit "sig", lit "signature")).
Proof. vm_compute. repeat split. Qed.

End MatcherClaims.

(** ** Template evaluator *)

Module EvaluatorClaims.

Lemma random_matches_spans (result : str) (m : str * str) :
  In m (matches (tokens match_random result)) ->
  fst m = random_span (snd m) /\
  exists d1 w1 w2 d2,
    snd m = random_range d1 w1 w2 d2 /\ d1 <> [] /\ d2 <> [] /\
    forallb is_digit09 d1 = true /\ forallb is_digit09 d2 = true /\
    forallb isspace w1 = true /\ forallb isspace w2 = true.
Proof.
  intros H. apply (matches_tokens_inv _ match_random match_random_shrinks) in H.
  destruct H as (s' & rest & H). destruct m as [g0 g1].
  apply match_random_inv in H. simpl. tauto.
Qed.

(** C1, as the code has it: a placeholder {random:min-max} with decimal
    bounds is handed to [replace_random] where it stands, the text before
    and behind it being treated on its own.  When each bound has at most
    4300 digits, which is what [int] converts, the body of the [try] does
    not raise: with min <= max the placeholder is replaced by the decimal
    string of an integer of [min, max] (digits that read back as that
    integer), with min > max by the marker
    "[Random Error: min(MIN) > max(MAX)]".  When a bound has more than 4300
    digits [int] raises and the placeholder is replaced by the marker
    "[Random Error: {random:min-max}]" of the [except] branch.  The
    evaluation is a total function: nothing is raised to the caller.  When
    the rest of the template holds no opening brace, the output is the
    template with this substitution made. *)
Theorem C1_random_in_range (w : world) (pre post d1 d2 : str) :
  randint_in_range w ->
  d1 <> [] -> d2 <> [] ->
  forallb is_digit09 d1 = true -> forallb is_digit09 d2 = true ->
  let min_val := decimal_value d1 in
  let max_val := decimal_value d2 in
  let occurrence := lit "{random:" ++ (d1 ++ lit "-" ++ d2) ++ lit "}" in
  exists substituted calls,
    before_inputs w (pre ++ occurrence ++ post)
    = expand_random w (expand_literals w pre) ++ substituted
      ++ expand_random_from w calls (expand_literals w post) /\
    process_placeholders w (pre ++ occurrence ++ post)
    = expand_inputs w
        (expand_random w (expand_literals w pre) ++ substituted
         ++ expand_random_from w calls (expand_literals w post)) /\
    ((Z.of_nat (length d1) <= 4300)%Z -> (Z.of_nat (length d2) <= 4300)%Z ->
     (exists k, replace_random_try w k (d1 ++ lit "-" ++ d2)
                = Some (substituted, calls)) /\
     ((min_val <= max_val)%Z ->
        exists n, (min_val <= n <= max_val)%Z /\ substituted = py_str n /\
                  forallb is_digit09 substituted = true /\
                  decimal_value substituted = n) /\
     ((max_val < min_val)%Z ->
        substituted
        = lit "[Random Error: min(" ++ py_str min_val ++ lit ") > max("
          ++ py_str max_val ++ lit ")]")) /\
    ((4300 < Z.of_nat (length d1))%Z \/ (4300 < Z.of_nat (length d2))%Z ->
     (forall k, replace_random_try w k (d1 ++ lit "-" ++ d2) = None) /\
     substituted = lit "[Random Error: " ++ occurrence ++ lit "]") /\
    (no_open_brace pre -> no_open_brace post ->
     process_placeholders w (pre ++ occurrence ++ post)
     = pre ++ substituted ++ post).
Proof.
  intros Hr N1 N2 D1 D2 min_val max_val occurrence.
  pose proof (random_occurrence w pre post d1 [] [] d2 N1 N2 D1 D2
                eq_refl eq_refl) as H.
  cbv zeta in H.
  set (k := random_calls w 0 (expand_literals w pre)) in *.
  assert (T : forall j,
             replace_random_try w j (d1 ++ lit "-" ++ d2)
             = if within_int_limit d1 && within_int_limit d2
               then Some (if (min_val <=? max_val)%Z
                          then (py_str (randint w j min_val max_val), S j)
                          else (min_max_marker min_val max_val, j))
               else None)
    by (intros j;
        apply (replace_random_try_range w j d1 [] [] d2 N1 N2 D1 D2
                 eq_refl eq_refl)).
  rewrite (replace_random_range w k _ d1 [] [] d2 N1 N2 D1 D2
             eq_refl eq_refl) in H.
  fold min_val max_val in H.
  change (random_span (random_range d1 [] [] d2)) with occurrence in H.
  assert (P : forall x, no_open_brace x -> expand_literals w x = x)
    by (intros x Hx; apply expand_literals_plain, Hx).
  assert (R : forall j x, no_open_brace x -> expand_random_from w j x = x)
    by (intros j x Hx; apply expand_random_inert_all, inert_no_open_brace;
        [intros c q Hc; apply match_random_head, Hc|exact Hx]).
  destruct (within_int_limit d1 && within_int_limit d2) eqn:L.
  - apply andb_true_iff in L. destruct L as [L1 L2].
    set (r := if (min_val <=? max_val)%Z
              then (py_str (randint w k min_val max_val), S k)
              else (min_max_marker min_val max_val, k)) in *.
    exists (fst r), (snd r).
    split; [exact H|].
    split; [unfold process_placeholders; rewrite H; reflexivity|].
    split; [|split].
    + intros _ _.
      split; [exists k; rewrite T; unfold r;
              destruct (min_val <=? max_val)%Z; reflexivity|].
      split.
      * intros Hle. unfold r.
        replace (min_val <=? max_val)%Z with true
          by (symmetry; apply Z.leb_le, Hle).
        eexists. split; [apply Hr, Hle|]. split; [reflexivity|].
        apply py_str_decimal.
        pose proof (decimal_value_nonneg d1 D1) as Hd1. fold min_val in Hd1.
        pose proof (Hr k min_val max_val Hle) as Hin. lia.
      * intros Hgt. unfold r.
        replace (min_val <=? max_val)%Z with false
          by (symmetry; apply Z.leb_gt, Hgt).
        reflexivity.
    + apply within_int_limit_iff in L1, L2. intros [B|B]; lia.
    + intros Hpre Hpost. unfold process_placeholders. rewrite H.
      unfold expand_random. rewrite !P, !R by assumption.
      apply expand_inputs_none, plain_no_matches.
      repeat apply no_open_brace_app; try assumption.
      unfold r. destruct (min_val <=? max_val)%Z;
        [apply py_str_no_open_brace|apply min_max_marker_no_open_brace].
  - exists (lit "[Random Error: " ++ occurrence ++ lit "]"), k.
    split; [exact H|].
    split; [unfold process_placeholders; rewrite H; reflexivity|].
    split; [|split].
    + intros L1 L2. apply within_int_limit_iff in L1, L2.
      rewrite L1, L2 in L. discriminate.
    + intros _. split; [intros j; apply T|reflexivity].
    + intros Hpre Hpost. unfold process_placeholders. rewrite H.
      unfold expand_random. cbn [fst snd]. rewrite !P, !R by assumption.
      destruct (single_random_beyond w pre post d1 d2 Hpre Hpost N1 N2 D1 D2 L)
        as (_ & E & _).
      exact E.
Qed.

Lemma highest_in_range (clip : clipboard) (answers : list str) :
  randint_in_range (sample_world clip highest answers).
Proof. intros k lo hi H. simpl. unfold highest. lia. Qed.

Lemma lowest_in_range (clip : clipboard) (answers : list str) :
  randint_in_range (sample_world clip lowest answers).
Proof. intros k lo hi H. simpl. unfold lowest. lia. Qed.

Lemma C1_random_in_range_witness :
  let w := sample_world ClipboardMissing highest [] in
  randint_in_range w /\
  lit "1" <> [] /\ lit "10" <> [] /\
  forallb is_digit09 (lit "1") = true /\
  forallb is_digit09 (lit "10") = true /\
  exists n, (1 <= n <= 10)%Z /\
    before_inputs w (lit "roll {random:1-10}!")
    = lit "roll " ++ py_str n ++ lit "!".
Proof.
  intros w.
  assert (Hr : randint_in_range w) by apply highest_in_range.
  split; [exact Hr|].
  split; [discriminate|]. split; [discriminate|].
  split; [reflexivity|]. split; [reflexivity|].
  destruct (C1_random_in_range w (lit "roll ") (lit "!") (lit "1") (lit "10")
              Hr ltac:(discriminate) ltac:(discriminate) eq_refl eq_refl)
    as (substituted & calls & H & _ & Hin & _).
  destruct Hin as (_ & Hle & _);
    [vm_compute; discriminate|vm_compute; discriminate|].
  destruct Hle as (n & Hn & -> & _); [vm_compute; discriminate|].
  exists n. split; [exact Hn|]. exact H.
Defined.

(** C1 as stated fails: min = 1 and max = 99...9 with 4301 digits are
    decimal integers with min <= max, and the placeholder is not replaced
    by the decimal string of an integer: [int] refuses the upper bound, and
    the output is the marker of the [except] branch. *)
Lemma C1_bound_beyond_int_limit :
  let w := sample_world ClipboardMissing highest [] in
  let max_digits := repeat "9"%char 4301 in
  let template := lit "{random:1-" ++ max_digits ++ lit "}" in
  randint_in_range w /\
  forallb is_digit09 max_digits = true /\
  (decimal_value (lit "1") <= decimal_value max_digits)%Z /\
  process_placeholders w template
  = lit "[Random Error: " ++ template ++ lit "]" /\
  forall n, process_placeholders w template <> py_str n.
Proof.
  intros w max_digits template.
  assert (E : process_placeholders w template
              = lit "[Random Error: " ++ template ++ lit "]")
    by (vm_compute; reflexivity).
  split; [apply highest_in_range|].
  split; [vm_compute; reflexivity|].
  split; [apply Z.leb_le; vm_compute; reflexivity|].
  split; [exact E|].
  intros n En. apply (py_str_no_open_brace n). rewrite <- En, E.
  apply in_or_app. right. apply in_or_app. left. left. reflexivity.
Qed.

(** C4, as the code has it: the pattern is \{random:([0-9]+\s*-\s*[0-9]+)\},
    with white space allowed around the dash only.  Every span matching it
    is replaced: by the number of [random.randint] or by the min > max
    marker when each bound has at most 4300 digits, and by the marker
    "[Random Error: ...]" spelling the span when a bound has more, which is
    when the body of the [try] raises; only such spans are replaced, and a
    text without any is left as it is; the evaluation is a total
    function. *)
Theorem C4_random_pattern (w : world) (pre post d1 w1 w2 d2 : str) :
  d1 <> [] -> d2 <> [] ->
  forallb is_digit09 d1 = true -> forallb is_digit09 d2 = true ->
  forallb isspace w1 = true -> forallb isspace w2 = true ->
  let group1 := d1 ++ w1 ++ lit "-" ++ w2 ++ d2 in
  let occurrence := lit "{random:" ++ group1 ++ lit "}" in
  let min_val := decimal_value d1 in
  let max_val := decimal_value d2 in
  let convertible :=
    ((Z.of_nat (length d1) <=? 4300) && (Z.of_nat (length d2) <=? 4300))%Z in
  (exists calls calls',
     (replace_random_try w calls group1 = None <-> convertible = false) /\
     before_inputs w (pre ++ occurrence ++ post)
     = expand_random w (expand_literals w pre)
       ++ (if convertible
           then if (min_val <=? max_val)%Z
                then py_str (randint w calls min_val max_val)
                else lit "[Random Error: min(" ++ py_str min_val
                     ++ lit ") > max(" ++ py_str max_val ++ lit ")]"
           else lit "[Random Error: " ++ occurrence ++ lit "]")
       ++ expand_random_from w calls' (expand_literals w post)) /\
  (forall result m, In m (matches (tokens match_random result)) ->
     fst m = random_span (snd m) /\
     exists e1 v1 v2 e2,
       snd m = random_range e1 v1 v2 e2 /\ e1 <> [] /\ e2 <> [] /\
       forallb is_digit09 e1 = true /\ forallb is_digit09 e2 = true /\
       forallb isspace v1 = true /\ forallb isspace v2 = true) /\
  (forall result, matches (tokens match_random result) = [] ->
     expand_random w result = result).
Proof.
  intros N1 N2 D1 D2 W1 W2 group1 occurrence min_val max_val convertible.
  split; [|split; [apply random_matches_spans|
                   apply expand_random_no_matches]].
  pose proof (random_occurrence w pre post d1 w1 w2 d2 N1 N2 D1 D2 W1 W2)
    as H.
  cbv zeta in H.
  pose proof (replace_random_range w
                (random_calls w 0 (expand_literals w pre))
                (random_span group1) d1 w1 w2 d2 N1 N2 D1 D2 W1 W2) as R.
  cbv zeta in R. fold min_val max_val in R.
  change (random_range d1 w1 w2 d2) with group1 in H, R.
  change (random_span group1) with occurrence in H, R.
  change (within_int_limit d1 && within_int_limit d2) with convertible in R.
  exists (random_calls w 0 (expand_literals w pre)).
  exists (snd (replace_random w (random_calls w 0 (expand_literals w pre))
                 (occurrence, group1))).
  split.
  - unfold group1.
    change (d1 ++ w1 ++ lit "-" ++ w2 ++ d2) with (random_range d1 w1 w2 d2).
    rewrite replace_random_try_range by assumption.
    change (within_int_limit d1 && within_int_limit d2) with convertible.
    destruct convertible; split; congruence.
  - rewrite H. f_equal. f_equal. rewrite R.
    destruct convertible; [|reflexivity].
    destruct (min_val <=? max_val)%Z; reflexivity.
Qed.

Lemma C4_random_pattern_witness :
  let w := sample_world ClipboardMissing highest [] in
  lit "3" <> [] /\ lit "7" <> [] /\
  forallb is_digit09 (lit "3") = true /\
  forallb is_digit09 (lit "7") = true /\
  forallb isspace (lit " ") = true /\ forallb isspace (lit "  ") = true /\
  before_inputs w (lit "{random:3 -  7}") = lit "7".
Proof.
  intros w.
  split; [discriminate|]. split; [discriminate|].
  split; [reflexivity|]. split; [reflexivity|].
  split; [reflexivity|]. split; [reflexivity|].
  destruct (C4_random_pattern w [] [] (lit "3") (lit " ") (lit "  ") (lit "7")
              ltac:(discriminate) ltac:(discriminate)
              eq_refl eq_refl eq_refl eq_refl)
    as ((calls & calls' & _ & H) & _).
  exact H.
Defined.

(** C4 as stated fails: a span of the white-space tolerant pattern of the
    design, with a blank behind the colon or before the closing brace, is
    not replaced, and a random placeholder whose range is not numeric stays
    in the output as it is, without an error marker. *)
Lemma C4_spans_left_in_output :
  let w := sample_world ClipboardMissing highest [] in
  process_placeholders w (lit "{random: 1-10}") = lit "{random: 1-10}" /\
  process_placeholders w (lit "{random:1-10 }") = lit "{random:1-10 }" /\
  process_placeholders w (lit "{random:a-b}") = lit "{random:a-b}".
Proof. vm_compute. repeat split. Qed.

(** C5: the claim does not hold of the code on the template
    "{input:a}{input:b}" when the first dialog is answered "{input:b}" and
    the second "X".  Both dialogs are shown, in order, but the second
    [replace(..., 1)] searches the result of the first one and finds the
    text of the second placeholder inside the first answer: the first
    answer is overwritten and the second occurrence is left in the output,
    where every occurrence substituted by its own answer gives
    "{input:b}X". *)
Lemma C5_answer_taken_for_placeholder :
  let w := sample_world ClipboardMissing highest [lit "{input:b}"; lit "X"] in
  let template := lit "{input:a}{input:b}" in
  process_placeholders_dialogs w template = [lit "a"; lit "b"] /\
  given_answers w (before_inputs w template) = [lit "{input:b}"; lit "X"] /\
  process_placeholders w template = lit "X{input:b}" /\
  expand_inputs_in_place w (before_inputs w template) = lit "{input:b}X".
Proof. vm_compute. repeat split. Qed.

(** X27: the input placeholders are asked for one by one and substituted
    in place.  For every template, one dialog is shown for every occurrence
    of an input placeholder in the text left by the earlier steps, from left
    to right, also when prompts repeat, and one answer is collected for
    each.  When the text outside these placeholders and the answers hold no
    opening brace, every occurrence is replaced, where it stands, by its
    own answer. *)
Theorem inputs_substituted_in_place (w : world) (template : str) :
  let result := before_inputs w template in
  spelled (tokens match_input result) = result /\
  (forall m, In m (input_matches result) -> fst m = input_span (snd m)) /\
  process_placeholders_dialogs w template = map snd (input_matches result) /\
  length (given_answers w result) = length (input_matches result) /\
  (no_open_brace (outside (tokens match_input result)) ->
   Forall no_open_brace (given_answers w result) ->
   process_placeholders w template = expand_inputs_in_place w result).
Proof.
  intros result.
  split; [apply input_tokens_spelled|].
  split; [intros m Hm; apply (input_matches_spans result m Hm)|].
  split; [reflexivity|].
  split.
  - unfold given_answers. rewrite length_map.
    generalize 0. induction (input_matches result) as [|[g0 g1] ms IH];
      intros k; simpl; [reflexivity|]. rewrite IH. reflexivity.
  - intros Ho Ha. apply expand_inputs_in_place_eq; assumption.
Qed.

Lemma inputs_substituted_in_place_witness :
  let w := sample_world ClipboardMissing highest [lit "Ann"; lit "Bob"] in
  let template := lit "{input:Name?} and {input:Name?}" in
  no_open_brace (outside (tokens match_input (before_inputs w template))) /\
  Forall no_open_brace (given_answers w (before_inputs w template)) /\
  process_placeholders_dialogs w template = [lit "Name?"; lit "Name?"] /\
  process_placeholders w template = lit "Ann and Bob".
Proof.
  intros w template.
  assert (Ho : no_open_brace
                 (outside (tokens match_input (before_inputs w template))))
    by no_brace.
  assert (Ha : Forall no_open_brace
                 (given_answers w (before_inputs w template)))
    by (vm_compute; repeat constructor; no_brace).
  split; [exact Ho|]. split; [exact Ha|].
  destruct (inputs_substituted_in_place w template) as (_ & _ & Hd & _ & Hp).
  split; [rewrite Hd|rewrite (Hp Ho Ha)]; vm_compute; reflexivity.
Defined.

(** C7, as the code has it: when the text left by the date, time and
    clipboard substitutions holds no random and no input placeholder, the
    output is that text, which depends on the clock and on the clipboard
    only: two evaluations with the same now and the same clipboard agree,
    and show no dialog.  This is the case of every template made of text
    without opening brace and of the literal placeholders, as soon as the
    clipboard text, where {clipboard} occurs, holds no opening brace. *)
Theorem C7_literals_deterministic (w1 w2 : world) (template : str) :
  now w1 = now w2 -> clipboard_state w1 = clipboard_state w2 ->
  let result := expand_literals w1 template in
  (matches (tokens match_random result) = [] ->
   input_matches result = [] ->
   process_placeholders w1 template = result /\
   process_placeholders w2 template = result /\
   process_placeholders_dialogs w1 template = [] /\
   process_placeholders_dialogs w2 template = []) /\
  (forall ps,
     template = template_of ps -> plain_pieces ps ->
     (In (Placeholder Tag_clipboard) ps ->
      no_open_brace (get_clipboard_content w1)) ->
     process_placeholders w1 template = value_of w1 ps /\
     process_placeholders w2 template = value_of w1 ps /\
     process_placeholders_dialogs w1 template = [] /\
     process_placeholders_dialogs w2 template = []).
Proof.
  intros Hn Hc result.
  assert (G : matches (tokens match_random result) = [] ->
              input_matches result = [] ->
              process_placeholders w1 template = result /\
              process_placeholders w2 template = result /\
              process_placeholders_dialogs w1 template = [] /\
              process_placeholders_dialogs w2 template = []).
  { intros Hr Hi.
    assert (E : forall w, expand_literals w template = result ->
                          process_placeholders w template = result /\
                          process_placeholders_dialogs w template = []).
    { intros w Hw.
      unfold process_placeholders, process_placeholders_dialogs,
        requested_inputs, before_inputs.
      rewrite Hw, (expand_random_no_matches w result Hr), Hi.
      split; [apply expand_inputs_none, Hi|reflexivity]. }
    destruct (E w1 eq_refl) as [P1 Q1].
    destruct (E w2 (eq_sym (expand_literals_ext w1 w2 template Hn Hc)))
      as [P2 Q2].
    tauto. }
  split; [exact G|].
  intros ps -> Hps Hclip.
  assert (R : result = value_of w1 ps)
    by (unfold result; apply expand_literals_pieces, Hps).
  rewrite <- R.
  destruct (plain_no_matches result) as [Hr Hi];
    [rewrite R; apply value_of_plain; assumption|].
  apply G; assumption.
Qed.

Lemma C7_literals_deterministic_witness :
  let w1 := sample_world (ClipboardText (lit "note")) lowest [] in
  let w2 := sample_world (ClipboardText (lit "note")) highest [lit "x"] in
  let template := lit "{weekday} {date_long}, {date} {time}: {clipboard}" in
  now w1 = now w2 /\ clipboard_state w1 = clipboard_state w2 /\
  matches (tokens match_random (expand_literals w1 template)) = [] /\
  input_matches (expand_literals w1 template) = [] /\
  process_placeholders w2 template
  = lit "Tuesday May 20, 2025, 05/20/2025 09:05: note".
Proof.
  intros w1 w2 template.
  split; [reflexivity|]. split; [reflexivity|].
  assert (Hr : matches (tokens match_random (expand_literals w1 template))
               = []) by (vm_compute; reflexivity).
  assert (Hi : input_matches (expand_literals w1 template) = [])
    by (vm_compute; reflexivity).
  split; [exact Hr|]. split; [exact Hi|].
  destruct (C7_literals_deterministic w1 w2 template eq_refl eq_refl)
    as [H _].
  destruct (H Hr Hi) as (_ & H2 & _).
  rewrite H2. vm_compute. reflexivity.
Defined.

(** C7 as stated fails: the template "{clipboard}" holds a literal
    placeholder only, and with the same now and the same clipboard text
    "{random:1-6}" two evaluations give "1" and "6". *)
Lemma C7_clipboard_brings_placeholder :
  let w1 := sample_world (ClipboardText (lit "{random:1-6}")) lowest [] in
  let w2 := sample_world (ClipboardText (lit "{random:1-6}")) highest [] in
  now w1 = now w2 /\ clipboard_state w1 = clipboard_state w2 /\
  randint_in_range w1 /\ randint_in_range w2 /\
  process_placeholders w1 (lit "{clipboard}") = lit "1" /\
  process_placeholders w2 (lit "{clipboard}") = lit "6".
Proof.
  intros w1 w2.
  split; [reflexivity|]. split; [reflexivity|].
  split; [apply lowest_in_range|]. split; [apply highest_in_range|].
  vm_compute. split; reflexivity.
Qed.

End EvaluatorClaims.

(** ** The clipboard placeholder *)

Module ClipboardClaims.

Lemma date_placeholder_blocks (tag : str) :
  In tag date_placeholders ->
  exists b, tag = "{"%char :: b /\
            foreign_block match_random b /\ foreign_block match_input b.
Proof.
  simpl. intros [<-|[<-|[<-|[<-|[]]]]]; eexists;
    (split; [reflexivity|]);
    split; (split; [apply no_open_brace_lit; reflexivity|reflexivity]).
Qed.

(** C10: the clipboard text takes the place of {clipboard} after the date
    and time substitutions and before the two scans: on a template of plain
    text and literal placeholders, the scans run on the text in which every
    placeholder has been replaced by what it stands for.  A random placeholder
    in the clipboard text is therefore handed to [replace_random] and
    replaced by the number drawn (by the min > max marker when min > max,
    and by the marker of the [except] branch when a bound has more than the
    4300 digits that [int] converts), an input placeholder in it opens a
    dialog and is replaced by the answer, and {date}, {time}, {date_long} or
    {weekday} in it reach the output as they are. *)
Theorem C10_clipboard_before_scans (w : world) (pre post c : str) :
  no_open_brace pre -> no_open_brace post ->
  clipboard_state w = ClipboardText c ->
  let template := pre ++ lit "{clipboard}" ++ post in
  (forall ps, plain_pieces ps ->
     process_placeholders w (template_of ps)
     = expand_inputs w (expand_random w (value_of w ps)) /\
     process_placeholders_dialogs w (template_of ps)
     = requested_inputs (expand_random w (value_of w ps))) /\
  expand_literals w template = pre ++ c ++ post /\
  process_placeholders w template
  = expand_inputs w (expand_random w (pre ++ c ++ post)) /\
  process_placeholders_dialogs w template
  = requested_inputs (expand_random w (pre ++ c ++ post)) /\
  (forall c1 c2 d1 d2,
     c = c1 ++ (lit "{random:" ++ (d1 ++ lit "-" ++ d2) ++ lit "}") ++ c2 ->
     no_open_brace c1 -> no_open_brace c2 ->
     d1 <> [] -> d2 <> [] ->
     forallb is_digit09 d1 = true -> forallb is_digit09 d2 = true ->
     let min_val := decimal_value d1 in
     let max_val := decimal_value d2 in
     process_placeholders w template
     = pre ++ c1
       ++ (if ((Z.of_nat (length d1) <=? 4300)
               && (Z.of_nat (length d2) <=? 4300))%Z
           then if (min_val <=? max_val)%Z
                then py_str (randint w 0 min_val max_val)
                else lit "[Random Error: min(" ++ py_str min_val
                     ++ lit ") > max(" ++ py_str max_val ++ lit ")]"
           else lit "[Random Error: {random:" ++ (d1 ++ lit "-" ++ d2)
                ++ lit "}]")
       ++ c2 ++ post) /\
  (forall c1 c2 prompt,
     c = c1 ++ (lit "{input:" ++ prompt ++ lit "}") ++ c2 ->
     no_open_brace c1 -> no_open_brace c2 -> no_open_brace prompt ->
     forallb no_close_brace prompt = true ->
     process_placeholders_dialogs w template = [prompt] /\
     process_placeholders w template
     = pre ++ c1 ++ answer w 0 prompt ++ c2 ++ post) /\
  (forall c1 c2 tag,
     In tag date_placeholders -> c = c1 ++ tag ++ c2 ->
     no_open_brace c1 -> no_open_brace c2 ->
     process_placeholders_dialogs w template = [] /\
     process_placeholders w template = pre ++ c1 ++ tag ++ c2 ++ post).
Proof.
  intros Hpre Hpost Hc template.
  assert (E : expand_literals w template = pre ++ c ++ post).
  { unfold template. rewrite expand_literals_clipboard by assumption.
    unfold get_clipboard_content. rewrite Hc. reflexivity. }
  assert (P : process_placeholders w template
              = expand_inputs w (expand_random w (pre ++ c ++ post)))
    by (unfold process_placeholders, before_inputs; rewrite E;
        reflexivity).
  assert (Q : process_placeholders_dialogs w template
              = requested_inputs (expand_random w (pre ++ c ++ post)))
    by (unfold process_placeholders_dialogs, before_inputs; rewrite E;
        reflexivity).
  split.
  { intros ps Hps.
    unfold process_placeholders, process_placeholders_dialogs, before_inputs.
    rewrite (expand_literals_pieces w ps Hps). split; reflexivity. }
  split; [exact E|]. split; [exact P|]. split; [exact Q|].
  split; [|split].
  - intros c1 c2 d1 d2 -> H1 H2 N1 N2 D1 D2 min_val max_val.
    rewrite P.
    change (lit "{random:" ++ (d1 ++ lit "-" ++ d2) ++ lit "}")
      with (random_span (random_range d1 [] [] d2)).
    replace (pre ++ (c1 ++ random_span (random_range d1 [] [] d2) ++ c2)
             ++ post)
      with ((pre ++ c1) ++ random_span (random_range d1 [] [] d2)
            ++ (c2 ++ post))
      by (repeat rewrite <- app_assoc; reflexivity).
    assert (Hx : no_open_brace (pre ++ c1))
      by (apply no_open_brace_app; assumption).
    assert (Hy : no_open_brace (c2 ++ post))
      by (apply no_open_brace_app; assumption).
    change ((Z.of_nat (length d1) <=? 4300) && (Z.of_nat (length d2) <=? 4300))%Z
      with (within_int_limit d1 && within_int_limit d2).
    destruct (within_int_limit d1 && within_int_limit d2) eqn:L.
    + apply andb_true_iff in L. destruct L as [L1 L2].
      destruct (single_random w (pre ++ c1) (c2 ++ post) d1 d2
                  Hx Hy N1 N2 D1 D2 L1 L2) as [R Hn].
      cbv zeta in R, Hn. fold min_val max_val in R, Hn.
      rewrite R.
      rewrite expand_inputs_none
        by (apply input_matches_inert, inert_no_open_brace;
            [intros a r Ha; apply match_input_head, Ha|exact Hn]).
      repeat rewrite <- app_assoc. reflexivity.
    + destruct (single_random_beyond w (pre ++ c1) (c2 ++ post) d1 d2
                  Hx Hy N1 N2 D1 D2 L) as (R & I & _).
      cbv zeta in R, I. rewrite R, I.
      unfold random_span, random_range.
      repeat rewrite <- app_assoc. reflexivity.
  - intros c1 c2 prompt -> H1 H2 Hp Hcl.
    rewrite P, Q.
    change (lit "{input:" ++ prompt ++ lit "}") with (input_span prompt).
    replace (pre ++ (c1 ++ input_span prompt ++ c2) ++ post)
      with ((pre ++ c1) ++ input_span prompt ++ (c2 ++ post))
      by (repeat rewrite <- app_assoc; reflexivity).
    destruct (single_input w (pre ++ c1) (c2 ++ post) prompt)
      as (R & D & I); try assumption;
      try (apply no_open_brace_app; assumption).
    rewrite R, D, I. split; [reflexivity|].
    repeat rewrite <- app_assoc. reflexivity.
  - intros c1 c2 tag Ht -> H1 H2.
    destruct (date_placeholder_blocks tag Ht) as (b & -> & Br & Bi).
    rewrite P, Q.
    replace (pre ++ (c1 ++ ("{"%char :: b) ++ c2) ++ post)
      with ((pre ++ c1) ++ "{"%char :: b ++ (c2 ++ post))
      by (repeat rewrite <- app_assoc; reflexivity).
    destruct (scans_pass_block w (pre ++ c1) b (c2 ++ post))
      as [S D]; try assumption;
      try (apply no_open_brace_app; assumption).
    rewrite S, D. split; [reflexivity|].
    repeat rewrite <- app_assoc. reflexivity.
Qed.

Lemma C10_clipboard_before_scans_witness :
  let w := sample_world (ClipboardText (lit "{date} {random:2-9}"))
                        highest [] in
  no_open_brace (lit "on ") /\ no_open_brace (lit ".") /\
  clipboard_state w = ClipboardText (lit "{date} {random:2-9}") /\
  expand_literals w (lit "on {clipboard}.") = lit "on {date} {random:2-9}." /\
  process_placeholders w (lit "on {clipboard}.") = lit "on {date} 9.".
Proof.
  intros w.
  assert (H1 : no_open_brace (lit "on ")) by no_brace.
  assert (H2 : no_open_brace (lit ".")) by no_brace.
  split; [exact H1|]. split; [exact H2|]. split; [reflexivity|].
  destruct (C10_clipboard_before_scans w (lit "on ") (lit ".")
              (lit "{date} {random:2-9}") H1 H2 eq_refl)
    as (_ & E & P & _).
  split; [exact E|].
  change (lit "on {clipboard}.")
    with (lit "on " ++ lit "{clipboard}" ++ lit ".").
  rewrite P. vm_compute. reflexivity.
Defined.

End ClipboardClaims.

(** ** Replacement protocol and coordinator *)

Module ProtocolClaims.











(** *** The history *)

Lemma in_history_iff (shortcut : str) (history : list str) :
  in_history shortcut history = true <-> In shortcut history.
Proof.
  unfold in_history. rewrite existsb_exists. split.
  - intros (x & Hx & E). apply str_eqb_eq in E. subst. exact Hx.
  - intros H. exists shortcut. split; [exact H|]. apply str_eqb_eq.
    reflexivity.
Qed.

Lemma record_history_In (history : list str) (shortcut : str) :
  In shortcut (record_history history shortcut).
Proof.
  unfold record_history.
  destruct (in_history shortcut history) eqn:E.
  - apply in_history_iff, E.
  - destruct (10 <? length (history ++ [shortcut])) eqn:L.
    + destruct history as [|h t]; [discriminate|].
      simpl. apply in_elt.
    + apply in_elt.
Qed.

Lemma record_history_length (history : list str) (shortcut : str) :
  length history <= 10 -> length (record_history history shortcut) <= 10.
Proof.
  intros H. unfold record_history.
  destruct (in_history shortcut history); [exact H|].
  destruct (10 <? length (history ++ [shortcut])) eqn:L.
  - rewrite length_app in L. simpl in L.
    destruct history as [|h t]; [discriminate|].
    simpl in *. rewrite length_app. simpl. lia.
  - apply Nat.ltb_ge in L. exact L.
Qed.

Lemma remove_first_length (shortcut : str) (history : list str) :
  length (remove_first shortcut history) <= length history.
Proof.
  induction history as [|h t IH]; simpl; [lia|].
  destruct (str_eqb h shortcut); simpl; lia.
Qed.

Lemma step_history_length (history : list str) (e : history_step) :
  length history <= 10 -> length (step_history history e) <= 10.
Proof.
  intros H. destruct e as [s|s|s|s]; simpl.
  - apply record_history_length, H.
  - exact H.
  - apply record_history_length, H.
  - unfold forget. destruct (in_history s history); [|exact H].
    pose proof (remove_first_length s history). lia.
Qed.

Lemma history_after_length (steps : list history_step) :
  length (history_after steps) <= 10.
Proof.
  unfold history_after.
  assert (H : forall h, length h <= 10 ->
                        length (fold_left step_history steps h) <= 10).
  { induction steps as [|e steps IH]; intros h Hh; simpl; [exact Hh|].
    apply IH, step_history_length, Hh. }
  apply H. simpl. lia.
Qed.

(** C9: after an expansion that did not raise, the shortcut is in the
    history; the history never holds more than 10 entries, whatever the
    application does to it; when a new shortcut meets a full history, the
    entry at the front, the oldest, is dropped and the shortcut is added at
    the back. *)
Theorem C9_bounded_history (w : world) (p : platform) (s : session)
  (shortcut text_to_expand : str) :
  let s' := fst (process_and_replace w p false s shortcut text_to_expand) in
  In shortcut (snippet_history s') /\
  (length (snippet_history s) <= 10 -> length (snippet_history s') <= 10) /\
  (forall steps, length (history_after steps) <= 10) /\
  (forall steps,
     length (history_after (steps ++ [Expanded shortcut])) <= 10 /\
     In shortcut (history_after (steps ++ [Expanded shortcut]))) /\
  (forall oldest others,
     snippet_history s = oldest :: others -> length others = 9 ->
     ~ In shortcut (snippet_history s) ->
     snippet_history s' = others ++ [shortcut]) /\
  (In shortcut (snippet_history s) -> snippet_history s' = snippet_history s) /\
  (length (snippet_history s) < 10 -> ~ In shortcut (snippet_history s) ->
   snippet_history s' = snippet_history s ++ [shortcut]).
Proof.
  intros s'. unfold s'. simpl.
  split; [apply record_history_In|].
  split; [apply record_history_length|].
  split; [apply history_after_length|].
  split.
  { intros steps. split; [apply history_after_length|].
    unfold history_after. rewrite fold_left_app. simpl.
    apply record_history_In. }
  assert (N : forall h, ~ In shortcut h -> in_history shortcut h = false).
  { intros h Hn. destruct (in_history shortcut h) eqn:E; [|reflexivity].
    apply in_history_iff in E. contradiction. }
  split; [|split].
  - intros oldest others E L Hn. unfold record_history.
    rewrite (N _ Hn), E. simpl. rewrite length_app, L. reflexivity.
  - intros H. unfold record_history.
    apply in_history_iff in H. rewrite H. reflexivity.
  - intros L Hn. unfold record_history. rewrite (N _ Hn).
    rewrite length_app. simpl.
    replace (10 <? length (snippet_history s) + 1) with false
      by (symmetry; apply Nat.ltb_ge; lia).
    reflexivity.
Qed.

Lemma C9_bounded_history_witness :
  let full := map (fun c => [c]) (lit "abcdefghij") in
  let s := {| snippet_history := full; status := lit "Ready" |} in
  let w := sample_world ClipboardMissing highest [] in
  let p := sample_platform true [] in
  length (snippet_history s) <= 10 /\
  snippet_history
    (fst (process_and_replace w p false s (lit "/date") (lit "{date}")))
  = map (fun c => [c]) (lit "bcdefghij") ++ [lit "/date"].
Proof.
  intros full s w p. split; [apply Nat.leb_le; reflexivity|].
  destruct (C9_bounded_history w p s (lit "/date") (lit "{date}"))
    as (_ & _ & _ & _ & H & _).
  apply (H [ "a"%char ]); [reflexivity|reflexivity|].
  vm_compute. intros F.
  repeat (destruct F as [F|F]; [discriminate F|]). exact F.
Defined.

End ProtocolClaims.

(** * Further properties *)

(** ** The matcher on whole key sequences *)

Module MatcherRuns.

Import SnippetManager Terms.

Lemma get_item_In_keys (d : snippets) (k : str) (v : snippet) :
  get_item d k = Some v -> In k (keys d).
Proof.
  induction d as [|[k' v'] d IH]; simpl; [discriminate|].
  destruct (str_eqb k' k) eqn:E.
  - intros _. left. apply str_eqb_eq, E.
  - intros H. right. apply IH, H.
Qed.

(** A key that is neither ignored nor a reset goes through the scan. *)
Lemma key_reaches_scan (d : snippets) (st : listener) (k : key) :
  is_listening st = true -> resets_buffer k = false ->
  on_key_press d st k =
  match scan d (buffered (current_input st) k) (possible_shortcuts d) with
  | Expand shortcut text_to_expand =>
      (set_input st [], Some (shortcut, text_to_expand))
  | Raised => (set_input st [], None)
  | NoMatch => (set_input st (buffered (current_input st) k), None)
  end.
Proof.
  intros L R. unfold on_key_press. rewrite L. simpl negb. cbv iota.
  destruct k; try reflexivity; discriminate.
Qed.

(** What is scheduled met its expansion condition on the buffer. *)
Lemma scheduled_meets_condition (d : snippets) (st st' : listener) (k : key)
  (s t : str) :
  on_key_press d st k = (st', Some (s, t)) ->
  is_listening st = true /\ resets_buffer k = false /\
  st' = set_input st [] /\
  expansion_condition (buffered (current_input st) k) s /\
  exists v, get_item d s = Some v /\ t = text v.
Proof.
  intros H. destruct (is_listening st) eqn:L.
  2:{ unfold on_key_press in H. rewrite L in H. discriminate. }
  destruct (resets_buffer k) eqn:R.
  { unfold on_key_press in H. rewrite L in H.
    destruct k; simpl in *; discriminate. }
  rewrite (key_reaches_scan d st k L R) in H.
  pose proof (scan_possible_shortcuts d (buffered (current_input st) k)) as S.
  destruct (scan d _ (possible_shortcuts d)) as [|s' t'|];
    try discriminate.
  injection H as <- <- <-.
  destruct S as ((v & _ & Hv & Ht) & Hc & _).
  repeat split; try assumption. exists v. tauto.
Qed.

Lemma scan_no_suffix (d : snippets) (input : str) (cands : list str) :
  existsb (endswith input) cands = false -> scan d input cands = NoMatch.
Proof.
  induction cands as [|c cands IH]; simpl; [reflexivity|].
  intros H. apply orb_false_iff in H. destruct H as [Hc H].
  rewrite Hc. apply IH, H.
Qed.

Lemma existsb_perm (f : str -> bool) (l l' : list str) :
  Permutation l l' -> existsb f l = existsb f l'.
Proof.
  induction 1; simpl.
  - reflexivity.
  - rewrite IHPermutation. reflexivity.
  - destruct (f x), (f y); reflexivity.
  - congruence.
Qed.

Lemma expansion_condition_self (s : str) : expansion_condition s s.
Proof. exists []. split; [reflexivity|]. right. left. reflexivity. Qed.

Lemma expansion_condition_length (input s : str) :
  expansion_condition input s -> length s <= length input.
Proof. intros (pre & -> & _). rewrite length_app. lia. Qed.

(** On a buffer that is the shortcut itself, the shortcut fires. *)
Lemma scan_whole_buffer (d : snippets) (s : str) (v : snippet) :
  get_item d s = Some v ->
  scan d s (possible_shortcuts d) = Expand s (text v).
Proof.
  intros Hv. pose proof (scan_possible_shortcuts d s) as S.
  pose proof (get_item_In_keys _ _ _ Hv) as Hin.
  destruct (scan d s (possible_shortcuts d)) as [|s' t'|].
  - exfalso. exact (S s Hin (expansion_condition_self s)).
  - destruct S as ((v' & _ & Hv' & Ht) & Hc & _ & Hmax).
    specialize (Hmax s Hin (expansion_condition_self s)).
    pose proof (expansion_condition_length _ _ Hc) as Hle.
    destruct Hc as (pre & E & _).
    assert (E' : s' = s).
    { destruct pre as [|c pre]; [symmetry; exact E|].
      apply (f_equal (@length ascii)) in E.
      rewrite length_app in E. simpl in E. lia. }
    subst s'. rewrite Hv in Hv'. injection Hv' as <-. subst t'. reflexivity.
  - contradiction.
Qed.

Lemma firstn_succ (s : str) (n : nat) (c : ascii) (r : str) :
  skipn n s = c :: r -> firstn (S n) s = firstn n s ++ [c] /\ skipn (S n) s = r.
Proof.
  revert s. induction n as [|n IH]; intros s H.
  - simpl in H. subst s. split; reflexivity.
  - destruct s as [|a s]; [discriminate|]. simpl in H.
    destruct (IH s H) as [H1 H2]. split; [|exact H2].
    change (firstn (S (S n)) (a :: s)) with (a :: firstn (S n) s).
    rewrite H1. reflexivity.
Qed.

Lemma buffered_char (input : str) (c : ascii) :
  length input < max_buffer ->
  buffered input (KeyCode (Some c)) = input ++ [c].
Proof.
  intros H. unfold buffered. rewrite length_app. simpl length.
  replace (max_buffer <? length input + 1) with false
    by (symmetry; apply Nat.ltb_ge; lia).
  reflexivity.
Qed.

(** Typing the rest of a shortcut, when its first [n] characters are in
    the buffer. *)
Lemma typing_from (d : snippets) (s : str) (v : snippet) :
  get_item d s = Some v -> length s <= max_buffer ->
  (forall n, 0 < n < length s ->
     existsb (endswith (firstn n s)) (keys d) = false) ->
  forall m n, m = length s - n -> n < length s ->
    run d {| is_listening := true; current_input := firstn n s |}
          (map (fun c => KeyCode (Some c)) (skipn n s))
    = (started, [(s, text v)]).
Proof.
  intros Hv Hlen Hfree. induction m as [|m IH]; intros n Hm Hn; [lia|].
  destruct (skipn n s) as [|c r] eqn:E.
  { apply (f_equal (@length ascii)) in E. rewrite length_skipn in E.
    simpl in E. lia. }
  destruct (firstn_succ _ _ _ _ E) as [E1 E2]. subst r.
  cbn [map run].
  rewrite key_reaches_scan by reflexivity.
  cbn [current_input].
  rewrite buffered_char by (rewrite length_firstn; lia).
  rewrite <- E1.
  destruct (Nat.eq_dec (S n) (length s)) as [Hlast|Hmore].
  - replace (skipn (S n) s) with (@nil ascii)
      by (rewrite Hlast, skipn_all; reflexivity).
    rewrite Hlast, firstn_all, (scan_whole_buffer d s v Hv). reflexivity.
  - rewrite scan_no_suffix.
    2:{ rewrite (existsb_perm _ _ (keys d)).
        - apply Hfree. lia.
        - apply sorted_longest_first_perm. }
    specialize (IH (S n)).
    unfold set_input. cbn [is_listening].
    rewrite IH by lia. reflexivity.
Qed.

(** X1: a snippet of the dictionary is expanded by typing its shortcut.
    From an empty buffer, when the shortcut has at most 60 characters and no
    shortcut of the dictionary ends one of its proper prefixes, typing the
    characters of the shortcut schedules exactly one expansion, that of the
    shortcut with the text stored for it, on the last character, and leaves
    the buffer empty. *)
Theorem typed_shortcut_expands (d : snippets) (s : str) (v : snippet) :
  get_item d s = Some v -> s <> [] -> length s <= max_buffer ->
  (forall n, 0 < n < length s ->
     existsb (endswith (firstn n s)) (keys d) = false) ->
  run d started (map (fun c => KeyCode (Some c)) s)
  = (started, [(s, text v)]).
Proof.
  intros Hv Hs Hlen Hfree.
  apply (typing_from d s v Hv Hlen Hfree (length s) 0); [lia|].
  destruct s; [congruence|simpl; lia].
Qed.

Lemma typed_shortcut_expands_witness :
  run default_snippets started (typed "/sig")
  = (started,
     [(lit "/sig",
       lit "Best regards," ++ Builtins.newline :: lit "{input:Your Name?}")]).
Proof.
  refine (typed_shortcut_expands default_snippets (lit "/sig")
            (Build_snippet _ (lit "Email") (lit "Email signature")) _ _ _ _).
  - vm_compute. reflexivity.
  - discriminate.
  - vm_compute. lia.
  - intros n Hn. change (length (lit "/sig")) with 4 in Hn.
    destruct n as [|[|[|[|n]]]]; try lia; vm_compute; reflexivity.
Defined.

(** *** A shortcut that holds a command-like shortcut *)

Lemma last_n_suffix (n : nat) (s : str) : exists x, s = x ++ last_n n s.
Proof.
  exists (firstn (length s - n) s). unfold last_n.
  symmetry. apply firstn_skipn.
Qed.

Lemma removelast_prefix (s : str) : exists y, s = removelast s ++ y.
Proof.
  destruct s as [|c r] using rev_ind.
  - exists []. reflexivity.
  - exists [c]. rewrite removelast_last. reflexivity.
Qed.

(** The buffer handed to the scan is a piece of the old buffer, or a
    suffix of the old buffer with the new character. *)
Lemma buffered_piece (input : str) (k : key) :
  (exists c x, input ++ [c] = x ++ buffered input k) \/
  (exists x y, input = x ++ buffered input k ++ y).
Proof.
  unfold buffered.
  set (input1 := match k with
                 | Key_backspace => removelast input
                 | _ => _
                 end).
  assert (H1 : (exists c, input1 = input ++ [c]) \/
               (exists y, input = input1 ++ y)).
  { subst input1. destruct k as [[c|]| | | | | |];
      try (right; exists []; symmetry; apply app_nil_r);
      try (left; eexists; reflexivity).
    right. apply removelast_prefix. }
  assert (H2 : exists x, input1 = x ++
            (if max_buffer <? length input1
             then last_n max_buffer input1 else input1)).
  { destruct (max_buffer <? length input1).
    - apply last_n_suffix.
    - exists []. reflexivity. }
  destruct H2 as [x H2]. destruct H1 as [[c H1]|[y H1]].
  - left. exists c, x. rewrite <- H1. exact H2.
  - right. exists x, y. rewrite H1 at 1. rewrite H2 at 1.
    rewrite <- app_assoc. reflexivity.
Qed.

Lemma occurs_in_piece (p b x y : str) :
  occurs_in p b -> occurs_in p (x ++ b ++ y).
Proof.
  intros (u & v & ->). exists (x ++ u), (v ++ y).
  rewrite <- !app_assoc. reflexivity.
Qed.

(** An occurrence that does not end the extended buffer lies in the old
    buffer. *)
Lemma occurs_before_last (p input x u r : str) (c : ascii) :
  input ++ [c] = x ++ u ++ p ++ r -> r <> [] -> occurs_in p input.
Proof.
  intros E Hr. destruct r as [|a r _] using rev_ind; [congruence|].
  rewrite !app_assoc in E. apply app_inj_tail in E. destruct E as [E _].
  exists (x ++ u), r. rewrite E, <- !app_assoc. reflexivity.
Qed.

Lemma scan_command_like (d : snippets) (input p : str) (cands : list str) :
  In p cands -> endswith input p = true -> is_command_like p = true ->
  scan d input cands <> NoMatch.
Proof.
  intros Hin He Hc. induction cands as [|c cands IH]; [contradiction|].
  simpl. destruct (list_eq_dec ascii_dec c p) as [->|Hne].
  - rewrite He. unfold should_expand. rewrite Hc.
    destruct (get_item d p); discriminate.
  - destruct Hin as [Hin|Hin]; [congruence|].
    destruct (endswith input c); [|apply IH, Hin].
    destruct (should_expand input c) as [[|]|]; [| apply IH, Hin |];
      try discriminate.
    destruct (get_item d c); discriminate.
Qed.

(** One key: the buffer stays free of [p], and what is scheduled does not
    go on behind an occurrence of [p]. *)
Lemma step_keeps_free (d : snippets) (p : str) (st st' : listener) (k : key)
  (sched : option (str * str)) :
  In p (keys d) -> is_command_like p = true ->
  ~ occurs_in p (current_input st) ->
  on_key_press d st k = (st', sched) ->
  ~ occurs_in p (current_input st') /\
  forall a r t, sched = Some (a ++ p ++ r, t) -> r = [].
Proof.
  intros Hin Hc Hfree H.
  assert (Hp : p <> []) by (destruct p; [discriminate|congruence]).
  assert (Hnil : ~ occurs_in p []).
  { intros (x & y & E). destruct x; [destruct p|]; simpl in E; congruence. }
  destruct (is_listening st) eqn:L.
  2:{ unfold on_key_press in H. rewrite L in H. injection H as <- <-.
      split; [exact Hfree|discriminate]. }
  destruct (resets_buffer k) eqn:R.
  { unfold on_key_press in H. rewrite L in H.
    destruct k; simpl in *; try discriminate; injection H as <- <-;
      (split; [exact Hnil|discriminate]). }
  rewrite (key_reaches_scan d st k L R) in H.
  set (input := buffered (current_input st) k) in *.
  assert (Hocc : forall u r, input = u ++ p ++ r -> r = []).
  { intros u r E. destruct r as [|a r]; [reflexivity|]. exfalso.
    apply Hfree.
    destruct (buffered_piece (current_input st) k)
      as [(c & x & B)|(x & y & B)]; fold input in B.
    - rewrite E in B. eapply occurs_before_last; [exact B|discriminate].
    - rewrite B. apply occurs_in_piece. exists u, (a :: r). exact E. }
  pose proof (scan_possible_shortcuts d input) as S.
  destruct (scan d input (possible_shortcuts d)) as [|s' t'|] eqn:Es.
  - injection H as <- <-. split; [|discriminate].
    simpl. intros (u & r & E). pose proof (Hocc _ _ E) as ->.
    rewrite app_nil_r in E.
    apply (scan_command_like d input p (possible_shortcuts d));
      [apply possible_shortcuts_In, Hin| |exact Hc|exact Es].
    rewrite E. apply endswith_app.
  - injection H as <- <-. split; [exact Hnil|].
    intros a r t E. injection E as -> _.
    destruct S as (_ & (pre & E & _) & _).
    apply (Hocc (pre ++ a) r). rewrite E, <- !app_assoc. reflexivity.
  - contradiction.
Qed.

Lemma run_keeps_free (d : snippets) (p : str) (ks : list key) :
  In p (keys d) -> is_command_like p = true ->
  forall st, ~ occurs_in p (current_input st) ->
  forall a r t, In (a ++ p ++ r, t) (snd (run d st ks)) -> r = [].
Proof.
  intros Hin Hc. induction ks as [|k ks IH]; intros st Hfree a r t H.
  - contradiction.
  - simpl in H.
    destruct (on_key_press d st k) as [st1 sched] eqn:E.
    destruct (step_keeps_free d p st st1 k sched Hin Hc Hfree E)
      as [Hfree1 Hs].
    specialize (IH st1 Hfree1 a r t).
    destruct (run d st1 ks) as [st2 rest]. simpl in *.
    destruct sched as [e|]; [|apply IH, H].
    destruct H as [->|H]; [|apply IH, H].
    eapply Hs. reflexivity.
Qed.

(** X2: a command-like shortcut shadows every shortcut that goes on behind
    it.  When [p] is a shortcut of the dictionary whose first character is
    not alphanumeric, a shortcut that holds [p] followed by at least one
    more character is never expanded, whatever is typed from an empty
    buffer: [p] (or a longer shortcut ending there) fires and clears the
    buffer as soon as [p] is complete.  With the default snippets,
    "/datetime" is never expanded: "/date" is. *)
Theorem shadowed_shortcut_never_expands (d : snippets) (p a r : str)
  (ks : list key) :
  In p (keys d) -> is_command_like p = true -> r <> [] ->
  ~ In (a ++ p ++ r) (map fst (snd (run d started ks))).
Proof.
  intros Hin Hc Hr H. apply in_map_iff in H.
  destruct H as ([s t] & E & H). simpl in E. subst s.
  apply Hr.
  apply (run_keeps_free d p ks Hin Hc started) with (a := a) (t := t);
    [|exact H].
  intros (x & y & E). destruct x; [destruct p|]; simpl in *; congruence.
Qed.

Lemma shadowed_shortcut_never_expands_witness :
  ~ In (lit "/datetime")
       (map fst (snd (run default_snippets started (typed "/datetime")))) /\
  snd (run default_snippets started (typed "/datetime"))
  = [(lit "/date", lit "{date}")].
Proof.
  split.
  - apply (shadowed_shortcut_never_expands default_snippets (lit "/date") []
             (lit "time") (typed "/datetime")).
    + vm_compute. tauto.
    + reflexivity.
    + discriminate.
  - vm_compute. reflexivity.
Defined.

(** *** Shortcuts that do not fit the buffer *)

Lemma scheduled_fits (d : snippets) (ks : list key) (st : listener)
  (s t : str) :
  In (s, t) (snd (run d st ks)) -> length s <= max_buffer.
Proof.
  revert st. induction ks as [|k ks IH]; intros st H; [contradiction|].
  simpl in H. destruct (on_key_press d st k) as [st1 sched] eqn:E.
  specialize (IH st1). destruct (run d st1 ks) as [st2 rest]. simpl in *.
  destruct sched as [[s' t']|]; [|apply IH, H].
  destruct H as [H|H]; [|apply IH, H]. injection H as -> ->.
  destruct (scheduled_meets_condition _ _ _ _ _ _ E) as (_ & _ & _ & Hc & _).
  apply expansion_condition_length in Hc.
  pose proof (buffered_length (current_input st) k). lia.
Qed.

(** X3: a shortcut of more than 60 characters is never expanded.  The
    buffer keeps 60 characters at most and a shortcut fires only as a suffix
    of the buffer, so whatever the listener state and whatever is typed, no
    expansion is scheduled for a longer shortcut. *)
Theorem long_shortcut_never_expands (d : snippets) (st : listener)
  (ks : list key) (s : str) :
  max_buffer < length s -> ~ In s (map fst (snd (run d st ks))).
Proof.
  intros Hlen H. apply in_map_iff in H. destruct H as ([s' t] & E & H).
  simpl in E. subst s'. apply scheduled_fits in H. lia.
Qed.

Lemma long_shortcut_never_expands_witness :
  let s := repeat "a"%char 61 in
  max_buffer < length s /\
  ~ In s (map fst (snd (run [(s, Build_snippet (lit "text") [] [])] started
                            (map (fun c => KeyCode (Some c)) s)))).
Proof.
  assert (L : max_buffer < length (repeat "a"%char 61))
    by (vm_compute; lia).
  split; [exact L|]. apply long_shortcut_never_expands. exact L.
Defined.

(** *** Keys typed while the listener is paused *)

Lemma paused_ignores (p : platform) (d : snippets) (ks : list key)
  (st : listener) :
  is_listening st = false ->
  app_run p st (map (Key_pressed d) ks) = (st, []).
Proof.
  intros L. induction ks as [|k ks IH]; [reflexivity|].
  simpl. unfold on_key_press. rewrite L. simpl. rewrite IH. reflexivity.
Qed.

Lemma app_run_app (p : platform) (es1 es2 : list app_event) (st : listener) :
  app_run p st (es1 ++ es2)
  = let '(st1, s1) := app_run p st es1 in
    let '(st2, s2) := app_run p st1 es2 in
    (st2, s1 ++ s2).
Proof.
  revert st. induction es1 as [|e es1 IH]; intros st; simpl.
  - destruct (app_run p st es2). reflexivity.
  - destruct (app_step p st e) as [st1 sched]. rewrite IH.
    destruct (app_run p st1 es1) as [st2 s1].
    destruct (app_run p st2 es2) as [st3 s2].
    destruct sched; reflexivity.
Qed.

(** X4: pausing keeps the buffer.  With the keyboard module available and
    the listener listening, "Pause", any keys, "Resume" schedule nothing and
    leave the listener as it was: the keys typed in between are dropped, and
    the characters typed before the pause are still in the buffer, so that a
    shortcut begun before the pause is completed by what is typed after
    it. *)
Theorem pause_keeps_buffer (p : platform) (d : snippets) (ks : list key)
  (st : listener) :
  KEYBOARD_AVAILABLE p = true -> is_listening st = true ->
  app_run p st ([Toggle_listener] ++ map (Key_pressed d) ks
                ++ [Toggle_listener])
  = (st, []).
Proof.
  intros K L. cbn [app app_run app_step].
  unfold toggle_listener at 1. rewrite K, L. cbn [negb].
  rewrite app_run_app, paused_ignores by reflexivity.
  cbn [app_run app_step]. unfold toggle_listener. rewrite K.
  cbn [negb is_listening current_input app]. destruct st as [l b].
  simpl in L. subst l. reflexivity.
Qed.

Lemma pause_keeps_buffer_witness :
  app_run (sample_platform true [])
    {| is_listening := true; current_input := lit "/si" |}
    ([Toggle_listener] ++ map (Key_pressed default_snippets) (typed "xyz")
     ++ [Toggle_listener] ++ [Key_pressed default_snippets
                                (KeyCode (Some "g"%char))])
  = (started,
     [(lit "/sig",
       lit "Best regards," ++ Builtins.newline :: lit "{input:Your Name?}")]).
Proof.
  change ([Toggle_listener] ++ map (Key_pressed default_snippets) (typed "xyz")
          ++ [Toggle_listener]
          ++ [Key_pressed default_snippets (KeyCode (Some "g"%char))])
    with (([Toggle_listener] ++ map (Key_pressed default_snippets) (typed "xyz")
           ++ [Toggle_listener])
          ++ [Key_pressed default_snippets (KeyCode (Some "g"%char))]).
  rewrite app_run_app.
  rewrite (pause_keeps_buffer (sample_platform true []) default_snippets
             (typed "xyz") {| is_listening := true; current_input := lit "/si" |}
             eq_refl eq_refl).
  vm_compute. reflexivity.
Defined.

End MatcherRuns.

(** ** Validation, highlighting and evaluation of templates *)

Module TemplateProperties.

Import Builtins Editor Terms EditorFacts TemplateFacts.

Lemma flat_map_all_nil (A B : Type) (f : A -> list B) (l : list A) :
  (forall a, In a l -> f a = []) -> flat_map f l = [].
Proof.
  induction l as [|a l IH]; intros H; [reflexivity|].
  simpl. rewrite (H a) by (left; reflexivity).
  apply IH. intros b Hb. apply H. right. exact Hb.
Qed.

(** X5: what validation reports on a template written with the
    placeholders of the design.  For text without braces, the five literal
    placeholders, input placeholders whose prompt holds no brace and random
    placeholders with two decimal bounds of at most 4300 digits each (what
    [int] converts), [validate_placeholders] reports,
    in order, exactly the input placeholders with an empty prompt ("missing
    prompt") and the random placeholders whose minimum is not below their
    maximum ("min value >= max value"), and no unmatched brace; so a
    template in which every prompt is given and every minimum is below its
    maximum has no issue. *)
Theorem validation_of_templates (es : list element) :
  forallb well_formed es = true ->
  validate_placeholders (template es)
  = map issue_text (flat_map element_issues es) /\
  ((forall p, In (Input p) es -> p <> []) ->
   (forall d1 d2, In (Random d1 d2) es ->
      (decimal_value d1 < decimal_value d2)%Z) ->
   validate_placeholders (template es) = []).
Proof.
  intros W. unfold validate_placeholders. rewrite (issues_template es W).
  split; [reflexivity|]. intros Hp Hr.
  rewrite flat_map_all_nil; [reflexivity|].
  intros [s|t|p|d1 d2] Hin; try reflexivity.
  - specialize (Hp p Hin). destruct p; [congruence|reflexivity].
  - specialize (Hr d1 d2 Hin). simpl.
    replace (decimal_value d1 >=? decimal_value d2)%Z with false;
      [reflexivity|].
    symmetry. rewrite Z.geb_leb. apply Z.leb_gt. exact Hr.
Qed.

Lemma validation_of_templates_witness :
  validate_placeholders
    (lit "Dear {input:Name?}, it is {time} and your number is {random:7-7}{input:}")
  = [lit "{random:7-7} (min value >= max value)";
     lit "{input:} (missing prompt)"].
Proof.
  apply (proj1 (validation_of_templates
           [Plain_text (lit "Dear "); Input (lit "Name?");
            Plain_text (lit ", it is "); Literal Tag_time;
            Plain_text (lit " and your number is ");
            Random (lit "7") (lit "7"); Input []] eq_refl)).
Defined.

(** X6: the evaluation of a template written with the placeholders of the
    design (the bounds of the random placeholders having at most 4300
    digits each) is the substitution in place that the design describes.
    When the clipboard text (if the template uses it) and the answers of the
    dialogs hold no opening brace, [process_placeholders] returns the text
    in which every literal placeholder stands for its value, the k-th random
    placeholder with min <= max for the k-th draw of [random.randint] on its
    bounds (a placeholder with min > max for its error marker, without a
    draw), and the j-th input placeholder for the answer of the j-th dialog;
    the dialogs shown are those of the input placeholders, in order. *)
Theorem evaluation_of_templates (w : world) (es : list element) :
  forallb well_formed es = true ->
  (In (Literal Tag_clipboard) es -> no_open_brace (get_clipboard_content w)) ->
  plain_answers w ->
  process_placeholders w (template es) = render w 0 0 es /\
  process_placeholders_dialogs w (template es) = prompts es.
Proof. apply process_elements. Qed.

Lemma scripted_plain (clip : clipboard) (rand : nat -> Z -> Z -> Z)
  (answers : list str) :
  Forall no_open_brace answers ->
  plain_answers (sample_world clip rand answers).
Proof.
  intros H k prompt. simpl. unfold scripted.
  revert k. induction H as [|a l Ha _ IH]; intros k.
  - destruct k; intros [].
  - destruct k; [exact Ha|apply IH].
Qed.

Lemma evaluation_of_templates_witness :
  let w := sample_world (ClipboardText (lit "a}b")) highest
                        [lit "Ann"; lit "Bob"] in
  process_placeholders w
    (lit "{input:Who?} {random:1-6}{random:9-2} {clipboard} {input:Who?} {date}")
  = lit "Ann 6[Random Error: min(9) > max(2)] a}b Bob 05/20/2025" /\
  process_placeholders_dialogs w
    (lit "{input:Who?} {random:1-6}{random:9-2} {clipboard} {input:Who?} {date}")
  = [lit "Who?"; lit "Who?"].
Proof.
  intros w.
  refine (evaluation_of_templates w
            [Input (lit "Who?"); Plain_text (lit " ");
             Random (lit "1") (lit "6"); Random (lit "9") (lit "2");
             Plain_text (lit " "); Literal Tag_clipboard;
             Plain_text (lit " "); Input (lit "Who?");
             Plain_text (lit " "); Literal Tag_date] eq_refl _ _).
  - intros _. no_brace.
  - apply scripted_plain. repeat constructor; no_brace.
Defined.

(** *** One brace span in plain text *)

Lemma locate_chars (pos : nat) (s : str) (ts : list (token (str * str))) :
  locate pos (map Char s ++ ts) = locate (pos + length s) ts.
Proof.
  revert pos. induction s as [|c s IH]; intros pos; simpl.
  - rewrite Nat.add_0_r. reflexivity.
  - rewrite IH. f_equal. lia.
Qed.

Lemma single_span_tokens (x c y : str) :
  brace_free x = true -> brace_free c = true -> brace_free y = true ->
  tokens match_placeholder (x ++ ("{"%char :: c ++ lit "}") ++ y)
  = map Char x ++ Match ("{"%char :: c ++ lit "}", c) :: map Char y.
Proof.
  intros Hx Hc Hy.
  rewrite placeholder_tokens_plain by (apply brace_free_open, Hx).
  rewrite placeholder_tokens_span by (apply brace_free_close, Hc).
  rewrite <- (app_nil_r y) at 1.
  rewrite placeholder_tokens_plain by (apply brace_free_open, Hy).
  rewrite app_nil_r. reflexivity.
Qed.

Lemma issues_single_span (x c y : str) :
  brace_free x = true -> brace_free c = true -> brace_free y = true ->
  issues (x ++ ("{"%char :: c ++ lit "}") ++ y)
  = check_placeholder ("{"%char :: c ++ lit "}", c).
Proof.
  intros Hx Hc Hy. unfold issues, check_braces.
  rewrite !count_char_app.
  destruct (count_span c Hc) as [E1 E2]. rewrite E1, E2.
  rewrite !(count_open_brace_free _ Hx), !(count_close_brace_free _ Hx),
    !(count_open_brace_free _ Hy), !(count_close_brace_free _ Hy).
  cbn [Nat.add Nat.eqb negb]. rewrite app_nil_l.
  rewrite (single_span_tokens x c y Hx Hc Hy).
  rewrite matches_app, matches_map_Char, app_nil_l. cbn [matches].
  rewrite matches_map_Char. cbn [flat_map]. apply app_nil_r.
Qed.

Lemma highlight_single_span (x c y : str) :
  brace_free x = true -> brace_free c = true -> brace_free y = true ->
  highlight_placeholders (x ++ ("{"%char :: c ++ lit "}") ++ y)
  = [(tag_of ("{"%char :: c ++ lit "}"), length x,
      length x + length ("{"%char :: c ++ lit "}"))].
Proof.
  intros Hx Hc Hy. unfold highlight_placeholders.
  rewrite (single_span_tokens x c y Hx Hc Hy).
  rewrite locate_chars. cbn [locate fst Nat.add].
  rewrite <- (app_nil_r (map Char y)), locate_chars. reflexivity.
Qed.

(** A span that no pattern of the evaluator matches comes out as it is. *)
Lemma foreign_span_kept (w : world) (x b y : str) :
  no_open_brace x -> no_open_brace y -> passed_over b ->
  foreign_block match_random b -> foreign_block match_input b ->
  process_placeholders w (x ++ "{"%char :: b ++ y) = x ++ "{"%char :: b ++ y /\
  process_placeholders_dialogs w (x ++ "{"%char :: b ++ y) = [].
Proof.
  intros Hx Hy Hb Hr Hi.
  unfold process_placeholders, process_placeholders_dialogs, before_inputs.
  rewrite (expand_literals_block w b x y Hb).
  rewrite (expand_literals_plain w x Hx), (expand_literals_plain w y Hy).
  apply scans_pass_block; assumption.
Qed.

Lemma span_tail_plain (c : str) :
  brace_free c = true -> no_open_brace (c ++ lit "}").
Proof.
  intros Hc. apply no_open_brace_app; [apply brace_free_open, Hc|no_brace].
Qed.

(** A content other than the five names is passed over by the literal
    substitutions. *)
Lemma span_passed_over (c : str) :
  brace_free c = true -> existsb (str_eqb c) literal_names = false ->
  passed_over (c ++ lit "}").
Proof.
  intros Hc Hn. split; [apply span_tail_plain, Hc|].
  intros l t Hl. apply existsb_str_eqb_false in Hn.
  unfold match_literal, strip_prefix.
  change (startswith ("{"%char :: (c ++ lit "}") ++ t) ("{"%char :: l))
    with (ascii_eqb "{"%char "{"%char && startswith ((c ++ lit "}") ++ t) l).
  change (ascii_eqb "{"%char "{"%char) with true. cbn [andb].
  rewrite <- app_assoc. change (lit "}" ++ t) with ("}"%char :: t).
  destruct (startswith (c ++ "}"%char :: t) l) eqn:E; [|reflexivity].
  exfalso. apply Hn.
  pose proof (fun n Hn' => startswith_span_eq c n t (brace_free_close c Hc)
                             Hn') as S.
  simpl in Hl. destruct Hl as [<-|[<-|[<-|[<-|[<-|[]]]]]].
  - rewrite (S (lit "date") eq_refl E). simpl. tauto.
  - rewrite (S (lit "time") eq_refl E). simpl. tauto.
  - rewrite (S (lit "date_long") eq_refl E). simpl. tauto.
  - rewrite (S (lit "weekday") eq_refl E). simpl. tauto.
  - rewrite (S (lit "clipboard") eq_refl E). simpl. tauto.
Qed.

Lemma span_foreign (A : Type) (try_match : str -> option (A * str))
  (l c : str) :
  (forall s, try_match ("{"%char :: s)
             = match strip_prefix l s with
               | Some r => try_match ("{"%char :: s)
               | None => None
               end) ->
  forallb no_close_brace l = true ->
  brace_free c = true -> startswith c l = false ->
  foreign_block try_match (c ++ lit "}").
Proof.
  intros Hm Hl Hc Hs. split; [apply span_tail_plain, Hc|].
  intros t. rewrite Hm. unfold strip_prefix.
  rewrite <- app_assoc.
  change (lit "}" ++ t) with ("}"%char :: t).
  rewrite (startswith_content c l t Hl), Hs. reflexivity.
Qed.

Lemma match_random_prefix (s : str) :
  match_random ("{"%char :: s)
  = match strip_prefix (lit "random:") s with
    | Some r => match_random ("{"%char :: s)
    | None => None
    end.
Proof.
  unfold match_random, strip_prefix.
  change (startswith ("{"%char :: s) (lit "{random:"))
    with (ascii_eqb "{"%char "{"%char && startswith s (lit "random:")).
  change (ascii_eqb "{"%char "{"%char) with true. cbn [andb].
  destruct (startswith s (lit "random:")); reflexivity.
Qed.

Lemma match_input_prefix (s : str) :
  match_input ("{"%char :: s)
  = match strip_prefix (lit "input:") s with
    | Some r => match_input ("{"%char :: s)
    | None => None
    end.
Proof.
  unfold match_input, strip_prefix.
  change (startswith ("{"%char :: s) (lit "{input:"))
    with (ascii_eqb "{"%char "{"%char && startswith s (lit "input:")).
  change (ascii_eqb "{"%char "{"%char) with true. cbn [andb].
  destruct (startswith s (lit "input:")); reflexivity.
Qed.

Lemma str_eqb_span (c n : str) :
  str_eqb ("{"%char :: c ++ lit "}") ("{"%char :: n ++ lit "}") = str_eqb c n.
Proof.
  destruct (str_eqb c n) eqn:E.
  - apply str_eqb_eq in E. subst. apply str_eqb_eq. reflexivity.
  - destruct (str_eqb ("{"%char :: c ++ lit "}") ("{"%char :: n ++ lit "}"))
      eqn:E2; [|reflexivity].
    apply str_eqb_eq in E2. injection E2 as E2.
    apply app_inv_tail in E2. subst.
    rewrite (proj2 (str_eqb_eq n n) eq_refl) in E. discriminate.
Qed.

Lemma known_iff_literal (c : str) :
  existsb (str_eqb ("{"%char :: c ++ lit "}")) known_placeholders
  = existsb (str_eqb c) literal_names.
Proof.
  change known_placeholders
    with (map (fun n => "{"%char :: n ++ lit "}") literal_names).
  induction literal_names as [|n l IH]; [reflexivity|].
  cbn [map existsb]. rewrite str_eqb_span, IH. reflexivity.
Qed.

Lemma tag_of_span (c : str) :
  forallb no_close_brace c = true ->
  tag_of ("{"%char :: c ++ lit "}")
  = if startswith c (lit "input:") then input_placeholder
    else if existsb (str_eqb c) literal_names
            || startswith c (lit "random:")
    then placeholder
    else unknown_placeholder.
Proof.
  intros Hc. unfold tag_of. rewrite known_iff_literal.
  change (startswith ("{"%char :: c ++ lit "}") (lit "{input:"))
    with (ascii_eqb "{"%char "{"%char
          && startswith (c ++ "}"%char :: []) (lit "input:")).
  change (startswith ("{"%char :: c ++ lit "}") (lit "{random:"))
    with (ascii_eqb "{"%char "{"%char
          && startswith (c ++ "}"%char :: []) (lit "random:")).
  rewrite !startswith_content by reflexivity. reflexivity.
Qed.

(** X7: a brace span that is none of the placeholders of the design.  In
    text without braces, a span whose content holds no brace, is none of
    the five literal names and starts neither with "input:" nor with
    "random:" is reported by validation as the one issue "unknown
    placeholder", carries the tag "unknown_placeholder" over exactly its
    characters, and is left as it is by the evaluation, which shows no
    dialog. *)
Theorem unknown_placeholder_reported_and_kept (w : world) (x c y : str) :
  brace_free x = true -> brace_free c = true -> brace_free y = true ->
  existsb (str_eqb c) literal_names = false ->
  startswith c (lit "input:") = false ->
  startswith c (lit "random:") = false ->
  let full := "{"%char :: c ++ lit "}" in
  validate_placeholders (x ++ full ++ y)
  = [full ++ lit " (unknown placeholder)"] /\
  highlight_placeholders (x ++ full ++ y)
  = [(unknown_placeholder, length x, length x + length full)] /\
  process_placeholders w (x ++ full ++ y) = x ++ full ++ y /\
  process_placeholders_dialogs w (x ++ full ++ y) = [].
Proof.
  intros Hx Hc Hy Hn Hi Hr full. subst full.
  split; [|split].
  - unfold validate_placeholders.
    rewrite (issues_single_span x c y Hx Hc Hy).
    unfold check_placeholder. cbn [fst snd]. rewrite Hn, Hi, Hr. reflexivity.
  - rewrite (highlight_single_span x c y Hx Hc Hy).
    rewrite (tag_of_span c (brace_free_close c Hc)), Hn, Hi, Hr. reflexivity.
  - change (("{"%char :: c ++ lit "}") ++ y)
      with ("{"%char :: (c ++ lit "}") ++ y).
    apply foreign_span_kept.
    + apply brace_free_open, Hx.
    + apply brace_free_open, Hy.
    + apply span_passed_over; assumption.
    + apply (span_foreign _ match_random (lit "random:") c
               match_random_prefix eq_refl Hc Hr).
    + apply (span_foreign _ match_input (lit "input:") c
               match_input_prefix eq_refl Hc Hi).
Qed.

Lemma unknown_placeholder_reported_and_kept_witness :
  let w := sample_world ClipboardMissing lowest [] in
  validate_placeholders (lit "Hello {foo}!")
  = [lit "{foo} (unknown placeholder)"] /\
  highlight_placeholders (lit "Hello {foo}!")
  = [(unknown_placeholder, 6, 11)] /\
  process_placeholders w (lit "Hello {foo}!") = lit "Hello {foo}!" /\
  process_placeholders_dialogs w (lit "Hello {foo}!") = [].
Proof.
  intros w.
  exact (unknown_placeholder_reported_and_kept w (lit "Hello ") (lit "foo")
           (lit "!") eq_refl eq_refl eq_refl eq_refl eq_refl eq_refl).
Defined.

(** *** Ranges that validation and evaluation see differently *)

Lemma random_text (d1 d2 : str) :
  element_text (Random d1 d2)
  = lit "{random:" ++ d1 ++ lit "-" ++ d2 ++ lit "}".
Proof.
  unfold element_text, random_span, random_range.
  rewrite <- !app_assoc. reflexivity.
Qed.

(** X8: a range whose bounds are equal is reported by validation and
    expanded by the evaluation.  In text without braces, for a string [d]
    of at most 4300 decimal digits (what [int] converts),
    [validate_placeholders] reports "{random:d-d}" with
    "min value >= max value", while [process_placeholders] replaces it by
    the number written by [d] (the generator respecting its bounds): the
    evaluation only refuses min > max. *)
Theorem equal_bounds_flagged_but_expanded (w : world) (x d y : str) :
  randint_in_range w ->
  brace_free x = true -> digits d = true ->
  (Z.of_nat (length d) <= 4300)%Z -> brace_free y = true ->
  let full := lit "{random:" ++ d ++ lit "-" ++ d ++ lit "}" in
  validate_placeholders (x ++ full ++ y)
  = [full ++ lit " (min value >= max value)"] /\
  process_placeholders w (x ++ full ++ y)
  = x ++ py_str (decimal_value d) ++ y.
Proof.
  intros Hw Hx Hd L Hy full. subst full. rewrite <- (random_text d d).
  apply within_int_limit_iff in L.
  assert (W : forallb well_formed
                [Plain_text x; Random d d; Plain_text y] = true).
  { simpl. rewrite Hx, Hy, Hd, L. reflexivity. }
  assert (E : x ++ element_text (Random d d) ++ y
              = template [Plain_text x; Random d d; Plain_text y]).
  { cbn [template flat_map]. rewrite app_nil_r. reflexivity. }
  split.
  - rewrite E. unfold validate_placeholders.
    rewrite (issues_template _ W).
    cbn [flat_map element_issues]. rewrite Z.geb_leb, Z.leb_refl.
    reflexivity.
  - unfold process_placeholders, before_inputs.
    rewrite E, (expand_literals_template w _ W).
    cbn [flat_map literals_done]. rewrite app_nil_r.
    apply digits_spec in Hd. destruct Hd as [Nd Dd].
    destruct (single_random w x y d d (brace_free_open x Hx)
                (brace_free_open y Hy) Nd Nd Dd Dd L L) as [Er Hp].
    cbn [element_text]. rewrite Er, Z.leb_refl in *.
    rewrite expand_inputs_none by (apply plain_no_matches, Hp).
    pose proof (Hw 0 (decimal_value d) (decimal_value d) (Z.le_refl _)) as R.
    replace (randint w 0 (decimal_value d) (decimal_value d))
      with (decimal_value d) by lia.
    reflexivity.
Qed.

Lemma equal_bounds_flagged_but_expanded_witness :
  let w := sample_world ClipboardMissing lowest [] in
  validate_placeholders (lit "Roll: {random:5-5}.")
  = [lit "{random:5-5} (min value >= max value)"] /\
  process_placeholders w (lit "Roll: {random:5-5}.") = lit "Roll: 5.".
Proof.
  intros w.
  refine (equal_bounds_flagged_but_expanded w (lit "Roll: ") (lit "5")
            (lit ".") _ eq_refl eq_refl _ eq_refl).
  - intros k lo hi H. simpl. unfold lowest. lia.
  - vm_compute. discriminate.
Defined.

Lemma split_dash_at (u v : str) :
  forallb (fun c => negb (ascii_eqb c "-"%char)) u = true ->
  split_dash (u ++ "-"%char :: v) = Some (u, v).
Proof.
  intros H. unfold split_dash.
  rewrite (span_app_stop _ u ("-"%char :: v) H) by reflexivity.
  reflexivity.
Qed.

Lemma no_dash_padded (a d : str) :
  forallb isspace a = true -> forallb is_digit09 d = true ->
  forallb (fun c => negb (ascii_eqb c "-"%char)) (a ++ d) = true.
Proof.
  intros Ha Hd. rewrite forallb_app. apply andb_true_iff. split.
  - eapply forallb_weaken; [|exact Ha].
    intros c Hc. rewrite (space_not_dash c Hc). reflexivity.
  - eapply forallb_weaken; [|exact Hd].
    intros c Hc. rewrite (digit_not_dash c Hc). reflexivity.
Qed.

Lemma check_range_padded (full a d1 d2 b : str) :
  digits d1 = true -> digits d2 = true ->
  forallb isspace a = true -> forallb isspace b = true ->
  check_range full (a ++ d1 ++ lit "-" ++ d2 ++ b)
  = if within_int_limit d1 && within_int_limit d2
    then if (decimal_value d1 >=? decimal_value d2)%Z
         then [Min_not_below_max full] else []
    else [Range_not_numeric full].
Proof.
  intros H1 H2 Ha Hb. apply digits_spec in H1, H2.
  destruct H1 as [N1 D1], H2 as [N2 D2].
  unfold check_range.
  replace (nonempty (a ++ d1 ++ lit "-" ++ d2 ++ b)) with true
    by (destruct a; [destruct d1; [congruence|]|]; reflexivity).
  rewrite (app_assoc a d1).
  rewrite (contains_app (a ++ d1) (lit "-") (d2 ++ b)). cbn [negb orb].
  change (lit "-" ++ d2 ++ b) with ("-"%char :: d2 ++ b).
  rewrite (split_dash_at (a ++ d1) (d2 ++ b) (no_dash_padded a d1 Ha D1)).
  pose proof (strip_padded a d1 [] N1 D1 Ha eq_refl) as E1.
  rewrite app_nil_r in E1.
  pose proof (strip_padded [] d2 b N2 D2 eq_refl Hb) as E2.
  change ([] ++ d2 ++ b) with (d2 ++ b) in E2.
  rewrite E1, E2.
  rewrite (int_of_str_digits d1 N1 D1), (int_of_str_digits d2 N2 D2).
  destruct (within_int_limit d1); [|reflexivity].
  destruct (within_int_limit d2); reflexivity.
Qed.

Lemma space_not_close (c : ascii) :
  isspace c = true -> ascii_eqb c "}"%char = false.
Proof. ascii_cases c. Qed.

(** The pattern of the random placeholders takes no white space behind
    the colon or before the closing brace. *)
Lemma match_random_padded (a d1 d2 b t : str) :
  digits d1 = true -> digits d2 = true ->
  forallb isspace a = true -> forallb isspace b = true ->
  nonempty (a ++ b) = true ->
  match_random (lit "{random:" ++ a ++ d1 ++ lit "-" ++ d2 ++ b
                ++ lit "}" ++ t) = None.
Proof.
  intros H1 H2 Ha Hb Hn. apply digits_spec in H1, H2.
  destruct H1 as [N1 D1], H2 as [N2 D2].
  unfold match_random. rewrite strip_prefix_app.
  destruct a as [|c a].
  - destruct b as [|c b]; [discriminate|].
    simpl in Hb. apply andb_true_iff in Hb. destruct Hb as [Hc Hb].
    change ([] ++ d1 ++ lit "-" ++ d2 ++ (c :: b) ++ lit "}" ++ t)
      with (d1 ++ "-"%char :: d2 ++ c :: b ++ lit "}" ++ t).
    rewrite (span_app_stop is_digit09 d1 _ D1) by reflexivity.
    change (span isspace ("-"%char :: d2 ++ c :: b ++ lit "}" ++ t))
      with (@nil ascii, "-"%char :: d2 ++ c :: b ++ lit "}" ++ t).
    cbv iota beta. rewrite expect_cons.
    destruct d1 as [|e1 d1]; [congruence|].
    destruct d2 as [|e2 d2]; [congruence|].
    pose proof D2 as D2'. simpl in D2'. apply andb_true_iff in D2'.
    destruct D2' as [He2 _].
    assert (S1 : span isspace ((e2 :: d2) ++ c :: b ++ lit "}" ++ t)
                 = ([], (e2 :: d2) ++ c :: b ++ lit "}" ++ t)).
    { simpl. rewrite (digit_not_space e2 He2). reflexivity. }
    rewrite S1. cbv iota beta.
    rewrite (span_app_stop is_digit09 (e2 :: d2) _ D2)
      by (simpl; apply space_not_digit, Hc).
    cbv iota beta. simpl expect. rewrite (space_not_close c Hc).
    reflexivity.
  - simpl in Ha. apply andb_true_iff in Ha. destruct Ha as [Hc Ha].
    assert (S1 : span is_digit09
                   ((c :: a) ++ d1 ++ lit "-" ++ d2 ++ b ++ lit "}" ++ t)
                 = ([], (c :: a) ++ d1 ++ lit "-" ++ d2 ++ b ++ lit "}" ++ t)).
    { simpl. rewrite (space_not_digit c Hc). reflexivity. }
    rewrite S1.
    destruct (span isspace _) as [w1 r2].
    destruct (expect "-"%char r2); reflexivity.
Qed.

(** X9: white space behind the colon or before the closing brace of a
    random placeholder passes validation and stops the evaluation.  In text
    without braces, "{random:" followed by white space, decimal digits, a
    dash, decimal digits, white space and "}", with white space on one side
    at least, at most 4300 digits in each number and the first number below
    the second, has no validation issue ([int] and [strip] accept the white
    space), and [process_placeholders] returns the text unchanged: the
    placeholder is never replaced by a number. *)
Theorem padded_range_accepted_not_expanded (w : world)
  (x a d1 d2 b y : str) :
  brace_free x = true -> brace_free y = true ->
  digits d1 = true -> digits d2 = true ->
  (Z.of_nat (length d1) <= 4300)%Z -> (Z.of_nat (length d2) <= 4300)%Z ->
  forallb isspace a = true -> forallb isspace b = true ->
  nonempty (a ++ b) = true ->
  (decimal_value d1 < decimal_value d2)%Z ->
  let full := lit "{random:" ++ a ++ d1 ++ lit "-" ++ d2 ++ b ++ lit "}" in
  validate_placeholders (x ++ full ++ y) = [] /\
  process_placeholders w (x ++ full ++ y) = x ++ full ++ y.
Proof.
  intros Hx Hy H1 H2 L1 L2 Ha Hb Hn Hlt full.
  apply within_int_limit_iff in L1, L2.
  set (c := lit "random:" ++ a ++ d1 ++ lit "-" ++ d2 ++ b).
  assert (Ef : full = "{"%char :: c ++ lit "}").
  { subst full c. simpl. rewrite <- ?app_assoc. simpl.
    rewrite <- ?app_assoc. reflexivity. }
  assert (Hc : brace_free c = true).
  { subst c. pose proof (digits_spec _ H1) as [_ D1].
    pose proof (digits_spec _ H2) as [_ D2].
    rewrite !brace_free_app, (spaces_brace_free a Ha),
      (spaces_brace_free b Hb), (digits_brace_free d1 D1),
      (digits_brace_free d2 D2). reflexivity. }
  assert (Hname : existsb (str_eqb c) literal_names = false).
  { apply (not_literal_name c "r"%char
             (lit "andom:" ++ a ++ d1 ++ lit "-" ++ d2 ++ b));
      (reflexivity || discriminate). }
  rewrite Ef. split.
  - unfold validate_placeholders.
    rewrite (issues_single_span x c y Hx Hc Hy).
    unfold check_placeholder. cbn [fst snd]. rewrite Hname.
    replace (startswith c (lit "input:")) with false by reflexivity.
    replace (startswith c (lit "random:")) with true
      by (symmetry; apply startswith_app).
    change (skipn 7 c) with (a ++ d1 ++ lit "-" ++ d2 ++ b).
    rewrite (check_range_padded _ a d1 d2 b H1 H2 Ha Hb), L1, L2.
    cbn [andb]. rewrite Z.geb_leb.
    replace (decimal_value d2 <=? decimal_value d1)%Z with false
      by (symmetry; apply Z.leb_gt; exact Hlt).
    reflexivity.
  - change (("{"%char :: c ++ lit "}") ++ y)
      with ("{"%char :: (c ++ lit "}") ++ y).
    apply foreign_span_kept.
    + apply brace_free_open, Hx.
    + apply brace_free_open, Hy.
    + apply span_passed_over; assumption.
    + split; [apply span_tail_plain, Hc|]. intros t.
      replace ("{"%char :: (c ++ lit "}") ++ t)
        with (lit "{random:" ++ a ++ d1 ++ lit "-" ++ d2 ++ b
              ++ lit "}" ++ t)
        by (subst c; simpl; rewrite <- ?app_assoc; simpl;
            rewrite <- ?app_assoc; reflexivity).
      apply match_random_padded; assumption.
    + apply (span_foreign _ match_input (lit "input:") c
               match_input_prefix eq_refl Hc eq_refl).
Qed.

Lemma padded_range_accepted_not_expanded_witness :
  let w := sample_world ClipboardMissing highest [] in
  validate_placeholders (lit "Pick {random: 1-10 }") = [] /\
  process_placeholders w (lit "Pick {random: 1-10 }")
  = lit "Pick {random: 1-10 }".
Proof.
  intros w.
  refine (padded_range_accepted_not_expanded w (lit "Pick ") (lit " ")
            (lit "1") (lit "10") (lit " ") [] eq_refl eq_refl eq_refl
            eq_refl _ _ eq_refl eq_refl eq_refl _).
  - vm_compute. discriminate.
  - vm_compute. discriminate.
  - vm_compute. reflexivity.
Defined.

(** X28: a bound with more digits than [int] converts.  In text without
    braces, "{random:MIN-MAX}" with decimal bounds of which one has more
    than 4300 digits is reported by [validate_placeholders] with "range
    values not numeric", and [process_placeholders] replaces it by the
    marker "[Random Error: {random:MIN-MAX}]" without drawing a number and
    without showing a dialog; nothing is raised. *)
Theorem bound_beyond_int_limit (w : world) (x d1 d2 y : str) :
  brace_free x = true -> brace_free y = true ->
  digits d1 = true -> digits d2 = true ->
  (4300 < Z.of_nat (length d1))%Z \/ (4300 < Z.of_nat (length d2))%Z ->
  let full := lit "{random:" ++ d1 ++ lit "-" ++ d2 ++ lit "}" in
  validate_placeholders (x ++ full ++ y)
  = [full ++ lit " (range values not numeric)"] /\
  process_placeholders w (x ++ full ++ y)
  = x ++ (lit "[Random Error: " ++ full ++ lit "]") ++ y /\
  process_placeholders_dialogs w (x ++ full ++ y) = [] /\
  random_calls w 0 (expand_literals w (x ++ full ++ y)) = 0.
Proof.
  intros Hx Hy H1 H2 B full.
  assert (L : within_int_limit d1 && within_int_limit d2 = false)
    by (apply andb_false_iff;
        destruct B as [B|B]; [left|right]; apply beyond_int_limit_iff, B).
  pose proof (digits_spec _ H1) as [N1 D1].
  pose proof (digits_spec _ H2) as [N2 D2].
  set (c := lit "random:" ++ random_range d1 [] [] d2).
  assert (Ef : full = "{"%char :: c ++ lit "}").
  { subst full c. unfold random_range. simpl. rewrite <- ?app_assoc. simpl.
    rewrite <- ?app_assoc. reflexivity. }
  assert (Er : full = random_span (random_range d1 [] [] d2)).
  { rewrite Ef. subst c. unfold random_span. simpl.
    rewrite <- ?app_assoc. reflexivity. }
  assert (Hc : brace_free c = true).
  { subst c. unfold random_range.
    rewrite !brace_free_app, (digits_brace_free d1 D1),
      (digits_brace_free d2 D2). reflexivity. }
  assert (Ox : no_open_brace x) by (apply brace_free_open, Hx).
  assert (Oy : no_open_brace y) by (apply brace_free_open, Hy).
  assert (El : expand_literals w (x ++ full ++ y) = x ++ full ++ y).
  { rewrite Ef.
    change (("{"%char :: c ++ lit "}") ++ y)
      with ("{"%char :: (c ++ lit "}") ++ y).
    rewrite expand_literals_block
      by (subst c; rewrite <- app_assoc;
          apply (random_span_passed_over d1 [] [] d2 D1 D2 eq_refl eq_refl)).
    rewrite !expand_literals_plain by assumption. reflexivity. }
  destruct (single_random_beyond w x y d1 d2 Ox Oy N1 N2 D1 D2 L)
    as (R & I & Q).
  cbv zeta in R, I, Q. rewrite <- Er in R, I, Q.
  split; [|split; [|split]].
  - rewrite Ef. unfold validate_placeholders.
    rewrite (issues_single_span x c y Hx Hc Hy).
    unfold check_placeholder. cbn [fst snd].
    rewrite (not_literal_name c "r"%char
               (lit "andom:" ++ random_range d1 [] [] d2))
      by (reflexivity || discriminate).
    replace (startswith c (lit "input:")) with false by reflexivity.
    replace (startswith c (lit "random:")) with true
      by (symmetry; apply startswith_app).
    change (skipn 7 c) with (random_range d1 [] [] d2).
    rewrite (check_range_digits _ d1 d2 H1 H2), L. reflexivity.
  - unfold process_placeholders, before_inputs. rewrite El, R. exact I.
  - unfold process_placeholders_dialogs, before_inputs. rewrite El, R.
    exact Q.
  - rewrite El. unfold random_calls. rewrite Er.
    assert (Hh : forall c r, c <> "{"%char -> match_random (c :: r) = None)
      by (intros a r Ha; apply match_random_head, Ha).
    rewrite (tokens_inert _ match_random match_random_shrinks)
      by (apply inert_no_open_brace; assumption).
    rewrite (tokens_match_head _ match_random match_random_shrinks _ y
               (random_span (random_range d1 [] [] d2),
                random_range d1 [] [] d2))
      by (discriminate || (apply match_random_occ; auto)).
    rewrite (tokens_inert_all _ match_random match_random_shrinks y)
      by (apply inert_no_open_brace; assumption).
    assert (C : forall s ts k,
               calls_after w k (map Char s ++ ts) = calls_after w k ts)
      by (induction s as [|a s IH]; intros ts k; simpl; auto).
    rewrite C. cbn [calls_after].
    rewrite (replace_random_range w 0 _ d1 [] [] d2) by auto.
    rewrite L. cbn [snd]. apply calls_after_chars.
Qed.

Lemma bound_beyond_int_limit_witness :
  let w := sample_world ClipboardMissing highest [] in
  let full := lit "{random:1-" ++ repeat "9"%char 4301 ++ lit "}" in
  validate_placeholders (lit "Roll " ++ full ++ lit "!")
  = [full ++ lit " (range values not numeric)"] /\
  process_placeholders w (lit "Roll " ++ full ++ lit "!")
  = lit "Roll " ++ (lit "[Random Error: " ++ full ++ lit "]") ++ lit "!".
Proof.
  intros w full.
  assert (H2 : digits (repeat "9"%char 4301) = true)
    by (vm_compute; reflexivity).
  assert (B : (4300 < Z.of_nat (length (lit "1")))%Z
              \/ (4300 < Z.of_nat (length (repeat "9"%char 4301)))%Z)
    by (right; vm_compute; reflexivity).
  destruct (bound_beyond_int_limit w (lit "Roll ") (lit "1")
              (repeat "9"%char 4301) (lit "!") eq_refl eq_refl eq_refl H2 B)
    as (V & P & _).
  split; [exact V|exact P].
Defined.


(** *** The editor's tags and the validation *)

Lemma slice_at (pre m rest : str) :
  slice (pre ++ m ++ rest) (length pre) (length pre + length m) = m.
Proof.
  unfold slice. rewrite skipn_app, skipn_all, Nat.sub_diag. simpl.
  replace (length pre + length m - length pre) with (length m) by lia.
  rewrite firstn_app, firstn_all, Nat.sub_diag. simpl. apply app_nil_r.
Qed.

(** The tagged ranges hold the matches. *)
Lemma locate_slices (ts : list (token (str * str))) :
  forall pre,
    flat_map (fun '(t, i, j) =>
                if is_unknown t then [slice (pre ++ spelled ts) i j] else [])
             (map (fun '(i, j, full) => (tag_of full, i, j))
                  (locate (length pre) ts))
    = flat_map (fun m => if is_unknown (tag_of (fst m)) then [fst m] else [])
               (matches ts).
Proof.
  induction ts as [|[c|m] ts IH]; intros pre; [reflexivity| |].
  - cbn [locate matches spelled].
    replace (pre ++ c :: spelled ts) with ((pre ++ [c]) ++ spelled ts)
      by (rewrite <- app_assoc; reflexivity).
    replace (S (length pre)) with (length (pre ++ [c]))
      by (rewrite length_app; simpl; lia).
    apply IH.
  - cbn [locate matches spelled map flat_map].
    rewrite slice_at. f_equal.
    replace (pre ++ fst m ++ spelled ts) with ((pre ++ fst m) ++ spelled ts)
      by (rewrite <- app_assoc; reflexivity).
    replace (length pre + length (fst m)) with (length (pre ++ fst m))
      by (rewrite length_app; reflexivity).
    apply IH.
Qed.

Lemma reported_unknown_app (a b : list issue) :
  reported_unknown (a ++ b) = reported_unknown a ++ reported_unknown b.
Proof. apply flat_map_app. Qed.

Lemma check_range_known (full range_str : str) :
  reported_unknown (check_range full range_str) = [].
Proof.
  unfold check_range.
  destruct (negb (nonempty range_str) || negb (contains range_str (lit "-")));
    [reflexivity|].
  destruct (split_dash range_str) as [[a b]|]; [|reflexivity].
  destruct (int_of_str (strip a)); [|reflexivity].
  destruct (int_of_str (strip b)); [|reflexivity].
  destruct (_ >=? _)%Z; reflexivity.
Qed.

Lemma literal_not_input (c : str) :
  existsb (str_eqb c) literal_names = true ->
  startswith c (lit "input:") = false.
Proof.
  intros H. apply existsb_str_eqb in H. simpl in H.
  destruct H as [<-|[<-|[<-|[<-|[<-|[]]]]]]; reflexivity.
Qed.

(** Validation and highlighting agree on one brace span. *)
Lemma unknown_agree (c : str) :
  forallb no_close_brace c = true ->
  reported_unknown (check_placeholder ("{"%char :: c ++ lit "}", c))
  = if is_unknown (tag_of ("{"%char :: c ++ lit "}"))
    then ["{"%char :: c ++ lit "}"] else [].
Proof.
  intros Hc. rewrite (tag_of_span c Hc).
  unfold check_placeholder. cbn [fst snd].
  destruct (existsb (str_eqb c) literal_names) eqn:En.
  - rewrite (literal_not_input c En). reflexivity.
  - destruct (startswith c (lit "input:")).
    + destruct (negb (nonempty (skipn 6 c))); reflexivity.
    + destruct (startswith c (lit "random:")); [|reflexivity].
      apply check_range_known.
Qed.

Lemma flat_map_agree (A B : Type) (f g : A -> list B) (l : list A) :
  (forall a, In a l -> f a = g a) -> flat_map f l = flat_map g l.
Proof.
  induction l as [|a l IH]; intros H; [reflexivity|].
  simpl. rewrite (H a) by (left; reflexivity).
  rewrite IH; [reflexivity|]. intros b Hb. apply H. right. exact Hb.
Qed.

Lemma reported_unknown_flat_map (ms : list (str * str)) :
  reported_unknown (flat_map check_placeholder ms)
  = flat_map (fun m => reported_unknown (check_placeholder m)) ms.
Proof.
  induction ms as [|m ms IH]; [reflexivity|].
  cbn [flat_map]. rewrite reported_unknown_app, IH. reflexivity.
Qed.

(** X10: the editor marks as unknown exactly what validation reports as
    unknown.  For every text, the pieces of the text that
    [highlight_placeholders] tags "unknown_placeholder" are, in order, the
    placeholders that [validate_placeholders] reports with "unknown
    placeholder". *)
Theorem highlight_agrees_with_validation (text : str) :
  highlighted_unknown text = reported_unknown (issues text).
Proof.
  unfold highlighted_unknown, highlight_placeholders, issues.
  rewrite reported_unknown_app.
  replace (reported_unknown (check_braces text)) with (@nil str)
    by (unfold check_braces; destruct (negb _); reflexivity).
  rewrite app_nil_l, reported_unknown_flat_map.
  pose proof (locate_slices (tokens match_placeholder text) []) as L.
  change (@nil ascii ++ spelled (tokens match_placeholder text))
    with (spelled (tokens match_placeholder text)) in L.
  change (length (@nil ascii)) with 0 in L.
  rewrite (tokens_spelled match_placeholder match_placeholder_text) in L.
  rewrite L. apply flat_map_agree. intros [g0 g1] Hm.
  destruct (placeholder_matches_inv text _ Hm) as [E Hc].
  simpl in E, Hc. subst g0. symmetry. apply (unknown_agree g1 Hc).
Qed.

End TemplateProperties.

(** ** Placeholders inserted by the editor, and the dialog that asks for
    an input *)

Module InsertProperties.

Import Builtins Editor Terms InputDialog EditorFacts TemplateFacts StripFacts.

Lemma insert_placeholder_input (entered : option str) :
  insert_placeholder (lit "{input:name}") entered
  = insert_input_placeholder entered.
Proof. reflexivity. Qed.

Lemma insert_placeholder_random (entered : option str) :
  insert_placeholder (lit "{random:1-100}") entered
  = insert_random_placeholder entered.
Proof. reflexivity. Qed.

(** An input placeholder alone. *)
Lemma lone_input (w : world) (c : str) :
  brace_free c = true ->
  validate_placeholders (input_span c)
  = map issue_text (element_issues (Input c)) /\
  process_placeholders_dialogs w (input_span c) = [c] /\
  process_placeholders w (input_span c) = answer w 0 c.
Proof.
  intros Hc.
  assert (W : forallb well_formed [Input c] = true)
    by (simpl; rewrite Hc; reflexivity).
  assert (E : template [Input c] = input_span c)
    by (cbn [template flat_map element_text]; apply app_nil_r).
  destruct (single_input w [] [] c (fun H => H) (fun H => H)
              (brace_free_open c Hc) (brace_free_close c Hc))
    as (Er & Ereq & Ein).
  change ([] ++ input_span c ++ []) with (input_span c ++ []) in *.
  rewrite app_nil_r in *.
  split; [|split].
  - rewrite <- E. unfold validate_placeholders.
    rewrite (issues_template _ W). cbn [flat_map]. rewrite app_nil_r.
    reflexivity.
  - unfold process_placeholders_dialogs, before_inputs.
    rewrite <- E at 1. rewrite (expand_literals_template w _ W).
    cbn [flat_map literals_done element_text]. rewrite app_nil_r, Er.
    exact Ereq.
  - unfold process_placeholders, before_inputs.
    rewrite <- E at 1. rewrite (expand_literals_template w _ W).
    cbn [flat_map literals_done element_text]. rewrite app_nil_r, Er.
    rewrite Ein. apply app_nil_r.
Qed.

Lemma brace_free_strip (s : str) :
  brace_free s = true -> brace_free (strip s) = true.
Proof. apply strip_forallb. Qed.

(** X11: the input placeholder that the editor inserts works.  Whatever
    is entered in the dialog "Define User Input Prompt" (or nothing, when it
    is cancelled), as long as it holds no brace, [insert_placeholder]
    inserts "{input:PROMPT}" with a prompt that is not empty and ends with
    "?", ":" or "." ("?" being appended when the entry ends with none of
    them); this placeholder has no validation issue, and its evaluation
    shows one dialog, for that prompt, and returns the answer. *)
Theorem inserted_input_placeholder (w : world) (entered : option str) :
  (forall p, entered = Some p -> brace_free p = true) ->
  exists prompt,
    insert_placeholder (lit "{input:name}") entered = input_span prompt /\
    prompt <> [] /\
    endswith prompt (lit "?") || endswith prompt (lit ":")
    || endswith prompt (lit ".") = true /\
    validate_placeholders (input_span prompt) = [] /\
    process_placeholders_dialogs w (input_span prompt) = [prompt] /\
    process_placeholders w (input_span prompt) = answer w 0 prompt.
Proof.
  intros Hb. rewrite insert_placeholder_input.
  assert (Hfin : forall prompt,
            brace_free prompt = true ->
            endswith prompt (lit "?") || endswith prompt (lit ":")
            || endswith prompt (lit ".") = true ->
            prompt <> [] /\
            endswith prompt (lit "?") || endswith prompt (lit ":")
            || endswith prompt (lit ".") = true /\
            validate_placeholders (input_span prompt) = [] /\
            process_placeholders_dialogs w (input_span prompt) = [prompt] /\
            process_placeholders w (input_span prompt) = answer w 0 prompt).
  { intros prompt Hp He.
    assert (Hne : prompt <> []) by (intros ->; discriminate).
    destruct (lone_input w prompt Hp) as (V & D & P).
    repeat split; try assumption.
    rewrite V. destruct prompt; [congruence|reflexivity]. }
  destruct entered as [[|c r]|].
  - exists (lit "?"). split; [reflexivity|]. apply Hfin; reflexivity.
  - specialize (Hb (c :: r) eq_refl). apply brace_free_strip in Hb.
    unfold insert_input_placeholder.
    set (prompt := strip (c :: r)) in *.
    destruct (negb (endswith prompt (lit "?"))
              && negb (endswith prompt (lit ":"))
              && negb (endswith prompt (lit "."))) eqn:E.
    + exists (prompt ++ lit "?"). split.
      * unfold input_span. rewrite <- app_assoc. reflexivity.
      * apply Hfin.
        -- rewrite brace_free_app, Hb. reflexivity.
        -- rewrite endswith_app. reflexivity.
    + exists prompt. split; [reflexivity|]. apply Hfin; [exact Hb|].
      destruct (endswith prompt (lit "?")), (endswith prompt (lit ":")),
        (endswith prompt (lit ".")); try reflexivity; discriminate.
  - exists (lit "?"). split; [reflexivity|]. apply Hfin; reflexivity.
Qed.

Lemma inserted_input_placeholder_witness :
  let w := sample_world ClipboardMissing lowest [lit "Acme"] in
  exists prompt,
    insert_placeholder (lit "{input:name}") (Some (lit " Client name "))
    = input_span prompt /\
    prompt <> [] /\
    endswith prompt (lit "?") || endswith prompt (lit ":")
    || endswith prompt (lit ".") = true /\
    validate_placeholders (input_span prompt) = [] /\
    process_placeholders_dialogs w (input_span prompt) = [prompt] /\
    process_placeholders w (input_span prompt) = answer w 0 prompt.
Proof.
  intros w. apply (inserted_input_placeholder w).
  intros p E. injection E as <-. reflexivity.
Defined.

(** *** The random placeholder *)

Lemma default_range_clean : issues (lit "{random:1-100}") = [].
Proof. vm_compute. reflexivity. Qed.

Lemma split_dash_inv (r a b : str) :
  split_dash r = Some (a, b) ->
  r = a ++ "-"%char :: b /\
  forallb (fun c => negb (ascii_eqb c "-"%char)) a = true.
Proof.
  unfold split_dash. intros H.
  destruct (span (fun c => negb (ascii_eqb c "-"%char)) r) as [a' b'] eqn:E.
  destruct (span_decomp _ _ _ _ E) as (-> & Ha & Hb).
  destruct b' as [|c b']; [discriminate|]. injection H as <- <-.
  split; [|exact Ha]. f_equal. f_equal.
  simpl in Hb. apply negb_false_iff, ascii_eqb_eq in Hb. exact Hb.
Qed.

Lemma split_dash_first (u v : str) :
  forallb (fun c => negb (ascii_eqb c "-"%char)) u = true ->
  split_dash (u ++ "-"%char :: v) = Some (u, v).
Proof.
  intros H. unfold split_dash.
  rewrite (span_app_stop _ u ("-"%char :: v) H) by reflexivity.
  reflexivity.
Qed.

(** The range that the editor has built from two accepted numbers. *)
Lemma issues_built_range (m M : str) (v1 v2 : Z) :
  int_of_str m = Some v1 -> int_of_str M = Some v2 ->
  strip m = m -> strip M = M ->
  forallb (fun c => negb (ascii_eqb c "-"%char)) m = true ->
  let inserted := lit "{random:" ++ m ++ lit "-" ++ M ++ lit "}" in
  issues inserted
  = if (v1 >=? v2)%Z then [Min_not_below_max inserted] else [].
Proof.
  intros E1 E2 S1 S2 Hd inserted.
  set (c := lit "random:" ++ m ++ lit "-" ++ M).
  assert (Ef : inserted = "{"%char :: c ++ lit "}").
  { subst inserted c. simpl. rewrite <- ?app_assoc. simpl.
    rewrite <- ?app_assoc. reflexivity. }
  assert (Hc : brace_free c = true).
  { subst c. rewrite !brace_free_app, (int_of_str_brace_free m v1 E1),
      (int_of_str_brace_free M v2 E2). reflexivity. }
  rewrite Ef.
  pose proof (TemplateProperties.issues_single_span [] c [] eq_refl Hc eq_refl)
    as I.
  change ([] ++ ("{"%char :: c ++ lit "}") ++ [])
    with (("{"%char :: c ++ lit "}") ++ []) in I.
  rewrite app_nil_r in I. rewrite I.
  unfold check_placeholder. cbn [fst snd].
  rewrite (not_literal_name c "r"%char (lit "andom:" ++ m ++ lit "-" ++ M))
    by (reflexivity || discriminate).
  replace (startswith c (lit "input:")) with false by reflexivity.
  replace (startswith c (lit "random:")) with true
    by (symmetry; apply startswith_app).
  change (skipn 7 c) with (m ++ lit "-" ++ M).
  unfold check_range.
  replace (nonempty (m ++ lit "-" ++ M)) with true
    by (destruct m; reflexivity).
  rewrite (contains_app m (lit "-") M). cbn [negb orb].
  change (lit "-" ++ M) with ("-"%char :: M).
  rewrite (split_dash_first m M Hd), S1, S2, E1, E2. reflexivity.
Qed.

(** X12: the random placeholder that the editor inserts.  Whatever is
    entered in the dialog "Random Number Range" (or nothing),
    [insert_placeholder] inserts a placeholder on which validation finds no
    issue, or the single issue "min value >= max value": the order of the
    two numbers is not checked by the dialog.  When the entry is made of two
    strings of decimal digits around a dash, with white space anywhere
    around them, the placeholder inserted is "{random:MIN-MAX}" with these
    digits if each has at most 4300 digits, which is what [int] converts,
    and "{random:1-100}" if one has more. *)
Theorem inserted_random_placeholder (entered : option str) :
  let inserted := insert_placeholder (lit "{random:1-100}") entered in
  at_most_range_order inserted (issues inserted) /\
  (forall a d1 b c d2 e,
     entered = Some (a ++ d1 ++ b ++ lit "-" ++ c ++ d2 ++ e) ->
     digits d1 = true -> digits d2 = true ->
     forallb isspace a = true -> forallb isspace b = true ->
     forallb isspace c = true -> forallb isspace e = true ->
     inserted
     = if ((Z.of_nat (length d1) <=? 4300)
           && (Z.of_nat (length d2) <=? 4300))%Z
       then lit "{random:" ++ d1 ++ lit "-" ++ d2 ++ lit "}"
       else lit "{random:1-100}").
Proof.
  cbv zeta. rewrite insert_placeholder_random. split.
  - unfold insert_random_placeholder.
    assert (D : at_most_range_order (lit "{random:1-100}")
                  (issues (lit "{random:1-100}")))
      by (left; exact default_range_clean).
    destruct entered as [r|]; [|exact D].
    destruct (nonempty r && contains r (lit "-")); [|exact D].
    destruct (split_dash r) as [[a b]|] eqn:Es; [|exact D].
    destruct (int_of_str (strip a)) as [v1|] eqn:E1; [|exact D].
    destruct (int_of_str (strip b)) as [v2|] eqn:E2; [|exact D].
    destruct (split_dash_inv r a b Es) as [_ Ha].
    rewrite (issues_built_range (strip a) (strip b) v1 v2 E1 E2
               (strip_idempotent a) (strip_idempotent b)
               (strip_forallb _ a Ha)).
    destruct (v1 >=? v2)%Z; [right|left]; reflexivity.
  - intros a d1 b c d2 e -> H1 H2 Ha Hb Hc He.
    apply digits_spec in H1, H2. destruct H1 as [N1 D1], H2 as [N2 D2].
    unfold insert_random_placeholder.
    replace (nonempty (a ++ d1 ++ b ++ lit "-" ++ c ++ d2 ++ e)) with true
      by (destruct a; [destruct d1; [congruence|]|]; reflexivity).
    assert (Er : a ++ d1 ++ b ++ lit "-" ++ c ++ d2 ++ e
                 = (a ++ d1 ++ b) ++ lit "-" ++ (c ++ d2 ++ e))
      by (rewrite <- !app_assoc; reflexivity).
    rewrite Er, contains_app. cbn [andb].
    change (lit "-" ++ c ++ d2 ++ e) with ("-"%char :: c ++ d2 ++ e).
    rewrite split_dash_first.
    2:{ rewrite !forallb_app.
        rewrite (forallb_weaken isspace _ a), (forallb_weaken isspace _ b),
          (forallb_weaken is_digit09 _ d1); try assumption;
          try reflexivity; intros x Hx.
        - rewrite (digit_not_dash x Hx). reflexivity.
        - rewrite (space_not_dash x Hx). reflexivity.
        - rewrite (space_not_dash x Hx). reflexivity. }
    rewrite (strip_padded a d1 b N1 D1 Ha Hb),
      (strip_padded c d2 e N2 D2 Hc He).
    rewrite (int_of_str_digits d1 N1 D1), (int_of_str_digits d2 N2 D2).
    change ((Z.of_nat (length d1) <=? 4300) && (Z.of_nat (length d2) <=? 4300))%Z
      with (within_int_limit d1 && within_int_limit d2).
    destruct (within_int_limit d1); [|reflexivity].
    destruct (within_int_limit d2); reflexivity.
Qed.

(** *** The label and the position of the input dialog *)

Lemma dialog_label_cons (s : str) :
  s <> [] ->
  dialog_label s
  = if negb (endswith s (lit "?")) && negb (endswith s (lit ":"))
    then s ++ lit ":" else s.
Proof. destruct s; [congruence|reflexivity]. Qed.

(** X13: the label of the input dialog.  Whatever the prompt of the
    placeholder, the label shown by [_get_expansion_input] is not empty and
    ends with "?" or ":"; it is the prompt itself when the prompt ends so,
    "Enter text:" for an empty prompt, and the prompt followed by ":"
    otherwise; applying the rule to a label changes nothing. *)
Theorem dialog_label_marked (prompt_text : str) :
  let label := dialog_label prompt_text in
  label <> [] /\
  endswith label (lit "?") || endswith label (lit ":") = true /\
  dialog_label label = label /\
  (prompt_text = [] /\ label = lit "Enter text:" \/
   prompt_text <> [] /\
   endswith prompt_text (lit "?") || endswith prompt_text (lit ":") = true /\
   label = prompt_text \/
   prompt_text <> [] /\
   endswith prompt_text (lit "?") || endswith prompt_text (lit ":") = false /\
   label = prompt_text ++ lit ":").
Proof.
  cbv zeta.
  assert (Hfix : forall s, s <> [] ->
            endswith s (lit "?") || endswith s (lit ":") = true ->
            dialog_label s = s).
  { intros s Hs He. rewrite (dialog_label_cons s Hs).
    destruct (endswith s (lit "?")), (endswith s (lit ":"));
      try reflexivity; discriminate. }
  destruct prompt_text as [|c r].
  - repeat split; try reflexivity; [discriminate|]. left. split; reflexivity.
  - set (s := c :: r).
    assert (Hs : s <> []) by discriminate.
    destruct (endswith s (lit "?") || endswith s (lit ":")) eqn:E.
    + rewrite (Hfix s Hs E). repeat split; try assumption.
      * apply (Hfix s Hs E).
      * right. left. repeat split; assumption.
    + assert (El : dialog_label s = s ++ lit ":").
      { rewrite (dialog_label_cons s Hs).
        destruct (endswith s (lit "?")), (endswith s (lit ":"));
          try discriminate; reflexivity. }
      rewrite El.
      assert (He : endswith (s ++ lit ":") (lit "?")
                   || endswith (s ++ lit ":") (lit ":") = true)
        by (rewrite (endswith_app s (lit ":")); apply orb_true_r).
      assert (Hn : s ++ lit ":" <> []) by (subst s; discriminate).
      repeat split; try assumption.
      * apply (Hfix _ Hn He).
      * right. right. repeat split; assumption.
Qed.

(** X14: the input dialog is placed on the screen.  For a dialog that fits
    the screen, the position computed by [_get_expansion_input] keeps the
    whole dialog on the screen, wherever the mouse was last seen: next to
    the mouse (20 pixels right and below) when there is room, pushed back to
    the right and bottom edges otherwise, and centered when the mouse was
    never seen or was last seen at (0, 0). *)
Theorem dialog_stays_on_screen (last_mouse_pos : Z * Z)
  (width height screen_width screen_height : Z) :
  (0 <= width <= screen_width)%Z -> (0 <= height <= screen_height)%Z ->
  let '(x_pos, y_pos) :=
    dialog_position last_mouse_pos width height screen_width screen_height in
  (0 <= x_pos /\ x_pos + width <= screen_width /\
   0 <= y_pos /\ y_pos + height <= screen_height)%Z.
Proof.
  intros Hw Hh. destruct last_mouse_pos as [mx my].
  unfold dialog_position.
  destruct ((mx =? 0)%Z && (my =? 0)%Z).
  - pose proof (Z.div_mod width 2 ltac:(lia)).
    pose proof (Z.div_mod height 2 ltac:(lia)).
    pose proof (Z.div_mod screen_width 2 ltac:(lia)).
    pose proof (Z.div_mod screen_height 2 ltac:(lia)).
    pose proof (Z.mod_pos_bound width 2 ltac:(lia)).
    pose proof (Z.mod_pos_bound height 2 ltac:(lia)).
    pose proof (Z.mod_pos_bound screen_width 2 ltac:(lia)).
    pose proof (Z.mod_pos_bound screen_height 2 ltac:(lia)).
    lia.
  - cbv zeta.
    destruct (screen_width <? mx + 20 + width)%Z eqn:E1;
      destruct (screen_height <? my + 20 + height)%Z eqn:E2;
      repeat match goal with
             | |- context [(?a <? ?b)%Z] => destruct (Z.ltb_spec a b)
             end;
      try apply Z.ltb_lt in E1; try apply Z.ltb_lt in E2;
      try apply Z.ltb_ge in E1; try apply Z.ltb_ge in E2; lia.
Qed.

Lemma dialog_stays_on_screen_witness :
  dialog_position (1900, 1070)%Z 380 160 1920 1080 = (1540, 920)%Z /\
  (0 <= 1540 /\ 1540 + 380 <= 1920 /\ 0 <= 920 /\ 920 + 160 <= 1080)%Z.
Proof.
  split; [reflexivity|].
  exact (dialog_stays_on_screen (1900, 1070)%Z 380 160 1920 1080
           ltac:(lia) ltac:(lia)).
Defined.

End InsertProperties.

(** ** The snippet manager and the configuration manager *)

Module ManagerProperties.

Import Builtins Dict SnippetManager ConfigManager DictFacts SortFacts.

(** X15: a snippet that is added or updated is in the dictionary at once.
    After [add_update_snippet], whether or not the snippets file could be
    written (the call returns that), the shortcut is bound to the new text,
    category and description, for the manager and for the matcher alike;
    every other shortcut is bound as before; a new shortcut comes last in
    the dictionary and an updated one keeps its place; and the shortcuts
    stay pairwise distinct. *)
Theorem snippet_added_in_memory (d : snippets) (saved : bool)
  (shortcut text category description : str) :
  let r := add_update_snippet d saved shortcut text category description in
  let added := Build_snippet text category description in
  snd r = saved /\
  get_snippet (fst r) shortcut = Some added /\
  get_item (fst r) shortcut = Some added /\
  (forall k, k <> shortcut -> get_snippet (fst r) k = get_snippet d k) /\
  keys (fst r)
  = (if has_key d shortcut then keys d else keys d ++ [shortcut]) /\
  (distinct_keys d -> distinct_keys (fst r)).
Proof.
  cbv zeta. unfold add_update_snippet, get_snippet. cbn [fst snd].
  split; [reflexivity|]. split; [apply lookup_set_same|].
  split; [rewrite <- lookup_get_item; apply lookup_set_same|].
  split; [intros k Hk; apply lookup_set_other, Hk|].
  split; [apply keys_set|apply distinct_set].
Qed.

Lemma default_snippets_distinct : distinct_keys default_snippets.
Proof.
  unfold distinct_keys. vm_compute.
  repeat (constructor;
          [intros H; repeat (destruct H as [H|H]; [discriminate H|]);
           exact H|]).
  constructor.
Qed.

(** X16: a deleted snippet is gone.  In a dictionary whose shortcuts are
    pairwise distinct, after [delete_snippet] the shortcut is not bound any
    more and every other shortcut is bound as before; when the shortcut was
    not there the call returns [False] and the dictionary is as it was;
    when it was there the dictionary has one entry less, also when the file
    could not be written and the call returns [False]. *)
Theorem snippet_deleted (d : snippets) (saved : bool) (shortcut : str) :
  distinct_keys d ->
  let r := SnippetManager.delete_snippet d saved shortcut in
  get_snippet (fst r) shortcut = None /\
  (forall k, k <> shortcut -> get_snippet (fst r) k = get_snippet d k) /\
  distinct_keys (fst r) /\
  (get_snippet d shortcut = None -> r = (d, false)) /\
  (get_snippet d shortcut <> None ->
   snd r = saved /\ S (length (fst r)) = length d).
Proof.
  intros Hd. cbv zeta. unfold SnippetManager.delete_snippet, get_snippet.
  destruct (has_key d shortcut) eqn:E; cbn [fst snd].
  - split; [apply lookup_del_same, Hd|].
    split; [intros k Hk; apply lookup_del_other, Hk|].
    split; [apply distinct_del, Hd|].
    split.
    + intros H. unfold has_key in E. rewrite H in E. discriminate.
    + intros _. split; [reflexivity|apply length_del, E].
  - assert (N : lookup d shortcut = None).
    { unfold has_key in E. destruct (lookup d shortcut); congruence. }
    split; [exact N|]. split; [reflexivity|]. split; [exact Hd|].
    split; [reflexivity|]. intros H. congruence.
Qed.

Lemma snippet_deleted_witness :
  let r := SnippetManager.delete_snippet default_snippets false (lit "/sig") in
  get_snippet (fst r) (lit "/sig") = None /\
  keys (fst r) = map lit ["/date"; "/time"; "/datetime"; "/addr";
                          "/meeting"]%string /\
  snd r = false.
Proof.
  intros r.
  destruct (snippet_deleted default_snippets false (lit "/sig")
              default_snippets_distinct) as (H & _).
  split; [exact H|]. split; vm_compute; reflexivity.
Defined.

Lemma fold_left_map (A B C : Type) (f : A -> B -> A) (g : C -> B)
  (l : list C) (a : A) :
  fold_left f (map g l) a = fold_left (fun x c => f x (g c)) l a.
Proof. revert a. induction l as [|c l IH]; intros a; simpl; auto. Qed.

(** X17: the categories offered by the editor.  [get_all_categories]
    returns a strictly ascending list (sorted by code points, without
    repetition) that always holds "General" and otherwise exactly the
    categories of the snippets of the dictionary. *)
Theorem categories_sorted_and_complete (d : snippets) :
  let categories := get_all_categories d in
  StronglySorted str_lt categories /\
  In general categories /\
  forall c, In c categories <->
            c = general \/ exists k v, In (k, v) d /\ category v = c.
Proof.
  cbv zeta. unfold get_all_categories.
  assert (E : fold_left (fun acc data => set_add (category data) acc)
                        (map snd d) []
              = fold_left (fun a x => set_add x a)
                          (map category (map snd d)) [])
    by (rewrite (fold_left_map _ _ _ (fun a x => set_add x a) category
                   (map snd d)); reflexivity).
  rewrite E. clear E.
  destruct (fold_set_add (map category (map snd d)) [] (NoDup_nil _))
    as [Hn Hin].
  set (cs := fold_left (fun a x => set_add x a)
                       (map category (map snd d)) []) in *.
  assert (Hmem : forall c, In c (sorted (set_add general cs)) <->
                           c = general \/ In c (map category (map snd d))).
  { intros c. rewrite sorted_In, set_add_In, Hin. simpl. tauto. }
  split; [apply sorted_strict, set_add_NoDup, Hn|].
  split; [apply Hmem; left; reflexivity|].
  intros c. rewrite Hmem. split; intros [H|H]; auto; right.
  - apply in_map_iff in H. destruct H as (v & E & H).
    apply in_map_iff in H. destruct H as ([k v'] & E' & H).
    simpl in E'. subst v'. exists k, v. auto.
  - destruct H as (k & v & H & E). apply in_map_iff. exists v.
    split; [exact E|]. apply in_map_iff. exists (k, v). auto.
Qed.

(** *** The configuration *)

Lemma get_lookup (c : config) (key : str) (default : value) :
  ConfigManager.get c key default
  = match lookup c key with
    | Some v => v
    | None => default
    end.
Proof. reflexivity. Qed.

(** X18: loading the configuration merges the file into the defaults.
    When the configuration file holds an object, every key of the file has
    the value of the file and every other key keeps its default value, so
    that no default key is ever missing; when the file is not there or
    cannot be read, the configuration is the default one. *)
Theorem loaded_config_merges_defaults (defaults loaded : config)
  (key : str) (default : value) :
  distinct_keys loaded ->
  let c := load_config defaults (File_holds loaded) in
  ConfigManager.get c key default
  = match lookup loaded key with
    | Some v => v
    | None => ConfigManager.get defaults key default
    end /\
  (In key (map fst defaults) -> In key (map fst c)) /\
  load_config defaults File_missing = defaults /\
  load_config defaults File_unreadable = defaults.
Proof.
  intros Hd. cbv zeta. unfold load_config.
  split; [|split; [apply keys_update|split; reflexivity]].
  rewrite !get_lookup, (lookup_update value loaded Hd).
  destruct (lookup loaded key); reflexivity.
Qed.

Lemma loaded_config_merges_defaults_witness :
  let loaded := [(lit "backup_interval_days", VInt 14);
                 (lit "backup_location", VStr (lit "/tmp"))] in
  let c := load_config default_config (File_holds loaded) in
  ConfigManager.get c (lit "backup_interval_days") VNone = VInt 14 /\
  ConfigManager.get c (lit "auto_backup") VNone = VBool true.
Proof.
  intros loaded c.
  assert (Hd : distinct_keys loaded).
  { unfold distinct_keys. vm_compute.
    repeat (constructor;
            [intros H; repeat (destruct H as [H|H]; [discriminate H|]);
             exact H|]).
    constructor. }
  split.
  - exact (proj1 (loaded_config_merges_defaults default_config loaded
                    (lit "backup_interval_days") VNone Hd)).
  - exact (proj1 (loaded_config_merges_defaults default_config loaded
                    (lit "auto_backup") VNone Hd)).
Defined.

(** X20: the backup interval is kept between 1 and 30 days.  When the text
    of the spin box is an integer for [int], the interval stored is that
    integer brought into the range 1..30, the spin box shows the stored
    number, and no other key of the configuration changes; when it is not,
    the configuration is unchanged and the spin box shows the stored
    interval again (7 when there is none).  A text of decimal digits is an
    integer for [int] when it has at most 4300 digits, and is refused when
    it has more. *)
Theorem backup_interval_clamped (c : config) (backup_interval_var : str) :
  let r := update_backup_interval_from_spinbox c backup_interval_var in
  match int_of_str backup_interval_var with
  | Some n =>
      let m := Z.max 1 (Z.min 30 n) in
      (1 <= m <= 30)%Z /\
      ConfigManager.get (fst r) (lit "backup_interval_days") VNone = VInt m /\
      snd r = py_str m /\
      forall k, k <> lit "backup_interval_days" ->
                lookup (fst r) k = lookup c k
  | None =>
      fst r = c /\
      snd r = value_str (ConfigManager.get c (lit "backup_interval_days")
                                           (VInt 7))
  end /\
  (Terms.digits backup_interval_var = true ->
   int_of_str backup_interval_var
   = if (Z.of_nat (length backup_interval_var) <=? 4300)%Z
     then Some (decimal_value backup_interval_var)
     else None).
Proof.
  cbv zeta. split.
  - unfold update_backup_interval_from_spinbox.
    destruct (int_of_str backup_interval_var) as [n|]; [|split; reflexivity].
    assert (E : (if (30 <? (if (n <? 1) then 1 else n))
                 then 30 else (if (n <? 1) then 1 else n))%Z
                = Z.max 1 (Z.min 30 n)).
    { destruct (Z.ltb_spec n 1);
        [destruct (Z.ltb_spec 30 1)|destruct (Z.ltb_spec 30 n)]; lia. }
    rewrite E. cbn [fst snd]. unfold ConfigManager.set.
    split; [lia|]. split.
    + rewrite get_lookup, lookup_set_same. reflexivity.
    + split; [reflexivity|]. intros k Hk. apply lookup_set_other, Hk.
  - intros H. apply EditorFacts.digits_spec in H. destruct H as [N D].
    apply (EditorFacts.int_of_str_digits _ N D).
Qed.

End ManagerProperties.

(** ** The clipboard after a replacement, and the recent history *)

Module EffectProperties.

Import ClipboardEffects.

Lemma clipboard_after_app (p : platform) (a b : list event) :
  forall n held,
    Forall (fun e => match e with ClipboardCopy _ => False | _ => True end) a ->
    clipboard_after p n held (a ++ b) = clipboard_after p n held b.
Proof.
  induction a as [|e a IH]; intros n held H; [reflexivity|].
  inversion H as [|? ? He Ha]; subst.
  destruct e; simpl; try apply IH; try assumption. contradiction.
Qed.

Lemma select_without_copy (shortcut : str) :
  Forall (fun e => match e with ClipboardCopy _ => False | _ => True end)
         (select_shortcut shortcut ++ delete_selection).
Proof.
  unfold select_shortcut, delete_selection, pressed.
  apply Forall_app. split; [|repeat constructor].
  apply Forall_app. split; [|repeat constructor].
  constructor; [exact I|]. apply Forall_app. split; [|repeat constructor].
  induction shortcut as [|c s IH]; simpl; [constructor|].
  repeat (constructor; [exact I|]). exact IH.
Qed.

Lemma chord_without_copy (p : platform) :
  Forall (fun e => match e with ClipboardCopy _ => False | _ => True end)
         (paste_chord p).
Proof. unfold paste_chord, pressed. destruct (darwin p); repeat constructor. Qed.

Lemma filter_select (f : event -> bool) (shortcut : str) :
  f (Press Key_left) = false -> f (Release Key_left) = false ->
  f (Sleep 5) = false ->
  filter f (flat_map (fun _ => [Press Key_left; Release Key_left; Sleep 5])
                     shortcut) = [].
Proof.
  intros H1 H2 H3. induction shortcut as [|c s IH]; [reflexivity|].
  simpl. rewrite H1, H2, H3. exact IH.
Qed.

(** X21: what a replacement leaves on the clipboard.  With the keyboard
    and the clipboard modules available, when the clipboard held [held]
    and [pyperclip.paste] returns it: after [replace_text] the clipboard
    holds [held] again if the two calls of [pyperclip.copy] succeed, and
    also if the first one raises (nothing is pasted then); it holds the
    replacement, and what it held is lost, if the second call raises.  When
    [pyperclip.paste] raises, nothing is restored and the clipboard is left
    with the replacement. *)
Theorem clipboard_after_replacement (p : platform)
  (shortcut replacement held : str) :
  KEYBOARD_AVAILABLE p = true -> CLIPBOARD_AVAILABLE p = true ->
  let after := clipboard_after p 0 held (replace_text p shortcut replacement) in
  (copy_raises p 0 = true -> after = held) /\
  (copy_raises p 0 = false -> paste_result p = Some held ->
   after = if copy_raises p 1 then replacement else held) /\
  (copy_raises p 0 = false -> paste_result p = None -> after = replacement).
Proof.
  intros K C. cbv zeta. unfold replace_text. rewrite K, C. cbn [negb].
  rewrite app_assoc, clipboard_after_app by apply select_without_copy.
  unfold paste_replacement. cbn [app clipboard_after].
  destruct (copy_raises p 0) eqn:E0.
  - split; [reflexivity|]. split; discriminate.
  - split; [discriminate|].
    cbn [app clipboard_after].
    rewrite clipboard_after_app by apply chord_without_copy.
    split; intros _ Hp; rewrite Hp; cbn [app clipboard_after]; reflexivity.
Qed.

Lemma clipboard_after_replacement_witness :
  clipboard_after (sample_platform true (lit "kept")) 0 (lit "kept")
    (replace_text (sample_platform true (lit "kept")) (lit "/sig")
                  (lit "Best regards"))
  = lit "kept".
Proof.
  exact (proj1 (proj2 (clipboard_after_replacement
                         (sample_platform true (lit "kept")) (lit "/sig")
                         (lit "Best regards") (lit "kept") eq_refl eq_refl))
               eq_refl eq_refl).
Defined.

(** X22: when the replacement cannot be put on the clipboard, the shortcut
    is erased and nothing is inserted.  With the keyboard and the clipboard
    modules available, if the first call of [pyperclip.copy] raises,
    [replace_text] has selected the shortcut and sent Backspace once, and
    sends neither the paste chord nor any typed character: what follows the
    deletion is the reading of the clipboard and the failed call only. *)
Theorem failed_copy_erases_only (p : platform) (shortcut replacement : str) :
  KEYBOARD_AVAILABLE p = true -> CLIPBOARD_AVAILABLE p = true ->
  copy_raises p 0 = true ->
  replace_text p shortcut replacement
  = select_shortcut shortcut ++ delete_selection
    ++ [ClipboardPaste; ClipboardCopy replacement] /\
  count (is_press Key_delete_back) (replace_text p shortcut replacement) = 1 /\
  count (is_press Key_v) (replace_text p shortcut replacement) = 0 /\
  count (fun e => match e with TypeChar _ => true | _ => false end)
        (replace_text p shortcut replacement) = 0.
Proof.
  intros K C R.
  assert (E : replace_text p shortcut replacement
              = select_shortcut shortcut ++ delete_selection
                ++ [ClipboardPaste; ClipboardCopy replacement]).
  { unfold replace_text, paste_replacement. rewrite K, C, R. reflexivity. }
  rewrite E. split; [reflexivity|].
  unfold count, select_shortcut, delete_selection, pressed.
  rewrite !filter_app, !filter_select by reflexivity.
  repeat split; reflexivity.
Qed.

Lemma failed_copy_erases_only_witness :
  let p := {| KEYBOARD_AVAILABLE := true; CLIPBOARD_AVAILABLE := true;
              darwin := true; paste_result := Some (lit "kept");
              copy_raises := fun _ => true |} in
  count (is_press Key_delete_back) (replace_text p (lit "/sig") (lit "Hi")) = 1
  /\ count (is_press Key_v) (replace_text p (lit "/sig") (lit "Hi")) = 0.
Proof.
  intros p.
  destruct (failed_copy_erases_only p (lit "/sig") (lit "Hi")
              eq_refl eq_refl eq_refl) as (_ & H1 & H2 & _).
  split; assumption.
Defined.

(** *** The history *)

Lemma in_history_In (shortcut : str) (history : list str) :
  in_history shortcut history = true <-> In shortcut history.
Proof.
  unfold in_history. rewrite existsb_exists. split.
  - intros (x & Hx & E). apply str_eqb_eq in E. subst. exact Hx.
  - intros H. exists shortcut. split; [exact H|]. apply str_eqb_eq.
    reflexivity.
Qed.

Lemma NoDup_snoc (h : list str) (s : str) :
  NoDup h -> ~ In s h -> NoDup (h ++ [s]).
Proof.
  intros H Hn. apply NoDup_rev in H.
  rewrite <- (rev_involutive (h ++ [s])). apply NoDup_rev.
  rewrite rev_app_distr. simpl. constructor; [|exact H].
  rewrite <- in_rev. exact Hn.
Qed.

Lemma record_history_NoDup (h : list str) (s : str) :
  NoDup h -> NoDup (record_history h s).
Proof.
  intros H. unfold record_history.
  destruct (in_history s h) eqn:E; [exact H|].
  assert (Hn : ~ In s h).
  { intros Hin. apply in_history_In in Hin. congruence. }
  pose proof (NoDup_snoc h s H Hn) as N.
  destruct (10 <? length (h ++ [s])); [|exact N].
  destruct (h ++ [s]); [exact N|]. inversion N. assumption.
Qed.

Lemma remove_first_In (s x : str) (h : list str) :
  In x (remove_first s h) -> In x h.
Proof.
  induction h as [|a h IH]; simpl; [tauto|].
  destruct (str_eqb a s); simpl; [tauto|]. intros [H|H]; auto.
Qed.

Lemma remove_first_NoDup (s : str) (h : list str) :
  NoDup h -> NoDup (remove_first s h) /\ ~ In s (remove_first s h).
Proof.
  induction 1 as [|a h Ha Hh IH]; simpl; [split; [constructor|tauto]|].
  destruct (str_eqb a s) eqn:E.
  - apply str_eqb_eq in E. subst a. split; assumption.
  - destruct IH as [IH1 IH2]. split.
    + constructor; [|exact IH1]. intros Hin. apply Ha.
      apply (remove_first_In s a h Hin).
    + simpl. intros [->|Hin]; [|exact (IH2 Hin)].
      rewrite (proj2 (str_eqb_eq s s) eq_refl) in E. discriminate.
Qed.

Lemma step_history_NoDup (h : list str) (e : history_step) :
  NoDup h -> NoDup (step_history h e).
Proof.
  intros H. destruct e as [s|s|s|s]; simpl;
    try (apply record_history_NoDup, H); [exact H|].
  unfold forget. destruct (in_history s h); [|exact H].
  apply remove_first_NoDup, H.
Qed.

Lemma history_after_snoc (steps : list history_step) (e : history_step) :
  history_after (steps ++ [e]) = step_history (history_after steps) e.
Proof. unfold history_after. rewrite fold_left_app. reflexivity. Qed.

Lemma history_after_NoDup (steps : list history_step) :
  NoDup (history_after steps).
Proof.
  induction steps as [|e steps IH] using rev_ind; [constructor|].
  rewrite history_after_snoc. apply step_history_NoDup, IH.
Qed.

(** X23: the recent history holds no shortcut twice, and is no record of
    the last use.  Whatever the application has done (expansions, failed
    expansions, saves, deletions), [snippet_history] holds pairwise distinct
    shortcuts; a shortcut that is already in it is not moved when it is
    used again, so that with a full history the shortcut at the front is
    dropped by the next new shortcut even if it was the one used last.
    When a snippet is deleted in the editor it is gone from the dictionary;
    it is gone from the history as well when the snippets file was written,
    but when the file could not be written the history is left as it was,
    so that a deleted shortcut can stay in it. *)
Theorem history_without_repetition (steps : list history_step) :
  NoDup (history_after steps) /\
  (forall s t new,
     history_after steps = s :: t -> length t = 9 -> ~ In new (s :: t) ->
     history_after (steps ++ [Expanded s]) = s :: t /\
     history_after ((steps ++ [Expanded s]) ++ [Expanded new]) = t ++ [new]) /\
  (forall (selection : option str) (e : Editor.fields) (saved : bool)
          (d : snippets) (rows : list (str * str)) (status : str),
     let shortcut :=
       match selection with
       | None => strip (Editor.shortcut_var e)
       | Some selected => selected
       end in
     Dict.distinct_keys d -> get_item d shortcut <> None -> shortcut <> [] ->
     let a := {| Editor.snippets_of := d;
                 Editor.history_of := history_after steps;
                 Editor.rows_of := rows;
                 Editor.status_of := status |} in
     let r := Editor.delete_snippet selection e true saved a in
     get_item (Editor.snippets_of (fst r)) shortcut = None /\
     NoDup (Editor.history_of (fst r)) /\
     (saved = true -> ~ In shortcut (Editor.history_of (fst r))) /\
     (saved = false -> Editor.history_of (fst r) = history_after steps)).
Proof.
  pose proof (history_after_NoDup steps) as N.
  split; [exact N|]. split.
  - intros s t new E L Hn.
    assert (E1 : history_after (steps ++ [Expanded s]) = s :: t).
    { rewrite history_after_snoc, E. simpl. unfold record_history.
      replace (in_history s (s :: t)) with true; [reflexivity|].
      symmetry. apply in_history_In. left. reflexivity. }
    split; [exact E1|].
    rewrite history_after_snoc, E1. simpl. unfold record_history.
    replace (in_history new (s :: t)) with false.
    2:{ symmetry. destruct (in_history new (s :: t)) eqn:E2; [|reflexivity].
        apply in_history_In in E2. contradiction. }
    replace (10 <? length ((s :: t) ++ [new])) with true; [reflexivity|].
    symmetry. apply Nat.ltb_lt. simpl. rewrite length_app. simpl. lia.
  - intros selection e saved d rows status shortcut Hd Hk Hs a r.
    assert (K : Dict.has_key d shortcut = true).
    { unfold Dict.has_key. rewrite DictFacts.lookup_get_item.
      destruct (get_item d shortcut); [reflexivity|congruence]. }
    assert (G : get_item (Dict.del_item d shortcut) shortcut = None)
      by (rewrite <- DictFacts.lookup_get_item;
          apply DictFacts.lookup_del_same, Hd).
    assert (F : NoDup (forget (history_after steps) shortcut) /\
                ~ In shortcut (forget (history_after steps) shortcut)).
    { unfold forget.
      destruct (in_history shortcut (history_after steps)) eqn:E.
      - apply remove_first_NoDup, N.
      - split; [exact N|]. intros H. apply in_history_In in H. congruence. }
    subst r. unfold Editor.delete_snippet, SnippetManager.delete_snippet.
    fold shortcut.
    cbn [Editor.snippets_of Editor.history_of a].
    replace (Builtins.nonempty shortcut) with true
      by (destruct shortcut; [congruence|reflexivity]).
    subst a. cbn [Editor.snippets_of Editor.history_of]. rewrite K.
    cbn [negb orb].
    destruct saved; cbn [fst].
    + destruct (ApplicationFacts.refreshed_fields e
                  (Dict.del_item d shortcut)
                  (forget (history_after steps) shortcut)) as (Rd & Rh & _).
      rewrite Rd, Rh.
      split; [exact G|]. split; [apply F|].
      split; [intros _; apply F|discriminate].
    + cbn [Editor.snippets_of Editor.history_of].
      split; [exact G|]. split; [exact N|].
      split; [discriminate|reflexivity].
Qed.

End EffectProperties.

(** ** Saving, importing and listing snippets *)

Module ApplicationProperties.

Import Builtins Dict SnippetManager Editor Terms.
Import DictFacts SortFacts StripFacts ApplicationFacts.

Lemma nonempty_false (s : str) : nonempty s = false <-> s = [].
Proof. destruct s; simpl; split; intros; congruence. Qed.

Lemma nonempty_true (s : str) : nonempty s = true <-> s <> [].
Proof. destruct s; simpl; split; intros; congruence. Qed.

(** X24: what the editor stores when "Save" is pressed.  The shortcut and
    the text are stripped of surrounding white space first.  Nothing
    changes when the stripped shortcut or text is empty, or when validation
    finds issues and the user does not confirm.  Otherwise the dictionary
    binds the stripped shortcut to the stripped text (with the category,
    "General" when none is given, and the description), every other
    shortcut being bound as before, also when the file could not be written.
    When the file was written the shortcut enters the recent history and
    the list is refreshed from the new dictionary; the status line is then
    the one of the refresh ("Showing N snippets" or "No snippets match the
    current filter"), which has overwritten "Saved: ...".  When the file
    was not written, history, list and status line stay as they were and an
    error box is shown.  So every shortcut that enters the dictionary
    through the editor is non-empty and has no white space around it. *)
Theorem save_snippet_checks (e : fields) (confirm saved : bool) (a : app) :
  let shortcut := strip (shortcut_var e) in
  let text := strip (editor_text e) in
  let category := if nonempty (strip (category_var e))
                  then strip (category_var e) else general in
  let description := strip (description_var e) in
  let r := save_snippet e confirm saved a in
  (shortcut = [] \/ text = [] \/
   (validate_placeholders text <> [] /\ confirm = false) -> fst r = a) /\
  (shortcut <> [] -> text <> [] ->
   validate_placeholders text = [] \/ confirm = true ->
   get_item (snippets_of (fst r)) shortcut
   = Some (Build_snippet text category description) /\
   (forall k, k <> shortcut ->
      get_item (snippets_of (fst r)) k = get_item (snippets_of a) k) /\
   (saved = true ->
    history_of (fst r) = record_history (history_of a) shortcut /\
    (rows_of (fst r), status_of (fst r))
    = refresh_snippet_list (search_var e) (category_filter_var e)
        (snippets_of (fst r)) /\
    status_of (fst r) <> lit "Saved: " ++ shortcut) /\
   (saved = false ->
    history_of (fst r) = history_of a /\ rows_of (fst r) = rows_of a /\
    status_of (fst r) = status_of a /\
    In (show_error (lit "Save Error") (lit "Failed to save snippet"))
       (snd r))) /\
  (forall k, In k (keys (snippets_of (fst r))) ->
     In k (keys (snippets_of a)) \/ (k <> [] /\ strip k = k)).
Proof.
  cbv zeta. unfold save_snippet.
  set (shortcut := strip (shortcut_var e)).
  set (text := strip (editor_text e)).
  set (category := if nonempty (strip (category_var e))
                   then strip (category_var e) else general).
  set (description := strip (description_var e)).
  destruct (nonempty shortcut) eqn:Es; cbn [negb].
  2:{ apply nonempty_false in Es. cbn [fst snd].
      split; [reflexivity|]. split; [congruence|]. intros k Hk. left. exact Hk. }
  destruct (nonempty text) eqn:Et; cbn [negb].
  2:{ apply nonempty_false in Et. cbn [fst snd].
      split; [reflexivity|]. split; [congruence|]. intros k Hk. left. exact Hk. }
  apply nonempty_true in Es, Et.
  assert (Hacc : forall asked,
    let r := (let '(d, ok) := add_update_snippet (snippets_of a) saved
                                shortcut text category description in
              if ok
              then (refreshed e d (record_history (history_of a) shortcut),
                    asked)
              else ({| snippets_of := d; history_of := history_of a;
                       rows_of := rows_of a; status_of := status_of a |},
                    asked ++ [show_error (lit "Save Error")
                                (lit "Failed to save snippet")])) in
    (get_item (snippets_of (fst r)) shortcut
     = Some (Build_snippet text category description) /\
     (forall k, k <> shortcut ->
        get_item (snippets_of (fst r)) k = get_item (snippets_of a) k) /\
     (saved = true ->
      history_of (fst r) = record_history (history_of a) shortcut /\
      (rows_of (fst r), status_of (fst r))
      = refresh_snippet_list (search_var e) (category_filter_var e)
          (snippets_of (fst r)) /\
      status_of (fst r) <> lit "Saved: " ++ shortcut) /\
     (saved = false ->
      history_of (fst r) = history_of a /\ rows_of (fst r) = rows_of a /\
      status_of (fst r) = status_of a /\
      In (show_error (lit "Save Error") (lit "Failed to save snippet"))
         (snd r))) /\
    (forall k, In k (keys (snippets_of (fst r))) ->
       In k (keys (snippets_of a)) \/ (k <> [] /\ strip k = k))).
  { intros asked. cbv zeta. unfold add_update_snippet.
    set (d := set_item (snippets_of a) shortcut
                (Build_snippet text category description)).
    assert (Hk : forall k, In k (keys d) ->
              In k (keys (snippets_of a)) \/ (k <> [] /\ strip k = k)).
    { intros k Hk. unfold d, keys in *. rewrite keys_set in Hk.
      destruct (has_key (snippets_of a) shortcut); [left; exact Hk|].
      apply in_app_or in Hk. destruct Hk as [Hk|[<-|[]]]; [left; exact Hk|].
      right. split; [exact Es|apply strip_idempotent]. }
    assert (H1 : get_item d shortcut
                 = Some (Build_snippet text category description))
      by (rewrite <- lookup_get_item; apply lookup_set_same).
    assert (H2 : forall k, k <> shortcut ->
                   get_item d k = get_item (snippets_of a) k)
      by (intros k Hne; rewrite <- !lookup_get_item;
          apply lookup_set_other, Hne).
    destruct saved; cbn [fst snd].
    - destruct (refreshed_fields e d (record_history (history_of a) shortcut))
        as (Rd & Rh & Rr).
      rewrite Rd, Rh. split; [|exact Hk].
      split; [exact H1|]. split; [exact H2|].
      split; [|discriminate]. intros _.
      split; [reflexivity|]. split; [exact Rr|].
      apply refreshed_status.
    - cbn [snippets_of history_of rows_of status_of].
      split; [|exact Hk].
      split; [exact H1|]. split; [exact H2|].
      split; [discriminate|]. intros _. repeat split.
      apply in_or_app. right. left. reflexivity. }
  destruct (validate_placeholders text) as [|i l] eqn:Ev.
  - destruct (Hacc []) as [H1 H2]. cbv zeta in H1, H2.
    split; [|split; [intros _ _ _; exact H1|exact H2]].
    intros [H|[H|[H _]]]; congruence.
  - destruct confirm; cbn [negb].
    + destruct (Hacc [show_confirm (lit "Invalid Placeholders")
                        (lit "The following placeholders appear invalid: "
                         ++ join (lit ", ") (i :: l)
                         ++ newline :: newline :: lit "Save anyway?")])
        as [H1 H2].
      cbv zeta in H1, H2.
      split; [|split; [intros _ _ _; exact H1|exact H2]].
      intros [H|[H|[_ H]]]; congruence.
    + cbn [fst snd]. split; [reflexivity|].
      split; [|intros k Hk; left; exact Hk].
      intros _ _ [H|H]; discriminate.
Qed.

(** *** The list of snippets *)

Lemma row_of_shape (search category_filter shortcut : str) (v : snippet) :
  row_of search category_filter shortcut v = [] \/
  row_of search category_filter shortcut v = [(shortcut, category v)].
Proof.
  unfold row_of.
  destruct (nonempty search && _); [left; reflexivity|].
  destruct (negb _ && negb _); [left|right]; reflexivity.
Qed.

Lemma rows_sorted (f : str -> list (str * str)) (l : list str) :
  (forall k, f k = [] \/ exists c, f k = [(k, c)]) ->
  StronglySorted str_lt l ->
  StronglySorted str_lt (map fst (flat_map f l)) /\
  forall x, In x (map fst (flat_map f l)) -> In x l.
Proof.
  intros Hf. induction 1 as [|k l Hs IH Hall]; simpl.
  - split; [constructor|tauto].
  - destruct IH as [IH1 IH2].
    destruct (Hf k) as [E|[c E]]; rewrite E; simpl.
    + split; [exact IH1|]. intros x Hx. right. apply IH2, Hx.
    + split.
      * constructor; [exact IH1|].
        rewrite Forall_forall in *. intros x Hx. apply Hall, IH2, Hx.
      * intros x [H|H]; [left; exact H|right; apply IH2, H].
Qed.

(** X26: the list of snippets of the editor.  Whatever the search text
    and the category filter, [refresh_snippet_list] lists shortcuts of the
    dictionary in strictly ascending order of code points, each once, with
    the category of its snippet; with an empty search and the filter "All
    Categories" it lists every shortcut, and the status line gives their
    number. *)
Theorem snippet_list_sorted (search_var category_filter_var : str)
  (d : snippets) :
  distinct_keys d ->
  let r := refresh_snippet_list search_var category_filter_var d in
  StronglySorted str_lt (map fst (fst r)) /\
  (forall k c, In (k, c) (fst r) ->
     exists v, get_item d k = Some v /\ category v = c) /\
  (search_var = [] -> category_filter_var = all_categories ->
   map fst (fst r) = sorted (keys d) /\
   snd r = lit "Showing " ++ py_str (Z.of_nat (length d)) ++ lit " snippets").
Proof.
  intros Hd. cbv zeta. unfold refresh_snippet_list. cbn [fst snd].
  set (f := fun shortcut =>
              match get_snippet d shortcut with
              | Some snippet_data =>
                  row_of (lower search_var) category_filter_var shortcut
                         snippet_data
              | None => []
              end).
  assert (Hf : forall k, f k = [] \/ exists c, f k = [(k, c)]).
  { intros k. subst f. cbv beta. destruct (get_snippet d k) as [v|];
      [|left; reflexivity].
    destruct (row_of_shape (lower search_var) category_filter_var k v)
      as [E|E]; rewrite E; [left; reflexivity|right; eauto]. }
  split; [|split].
  - apply (rows_sorted f (sorted (keys d)) Hf).
    apply sorted_strict. exact Hd.
  - intros k c Hin. apply in_flat_map in Hin.
    destruct Hin as (k' & _ & Hin). subst f. cbv beta in Hin.
    unfold get_snippet in Hin. rewrite lookup_get_item in Hin.
    destruct (get_item d k') as [v|] eqn:Ev; [|contradiction].
    destruct (row_of_shape (lower search_var) category_filter_var k' v)
      as [E|E]; rewrite E in Hin; [contradiction|].
    destruct Hin as [Hin|[]]. injection Hin as <- <-. eauto.
  - intros -> ->.
    assert (Hall : forall l, (forall k, In k l -> In k (keys d)) ->
              map fst (flat_map f l) = l).
    { induction l as [|k l IH]; intros Hl; [reflexivity|].
      simpl. rewrite map_app, IH by (intros x Hx; apply Hl; right; exact Hx).
      subst f. cbv beta. unfold get_snippet. rewrite lookup_get_item.
      destruct (get_item_keys d k (Hl k (or_introl eq_refl)))
        as (v & Ev & _).
      rewrite Ev. reflexivity. }
    assert (E : map fst (flat_map f (sorted (keys d))) = sorted (keys d))
      by (apply Hall; intros k Hk; apply sorted_In, Hk).
    split; [exact E|].
    rewrite <- (length_map fst), E, sorted_length.
    unfold keys. rewrite length_map.
    destruct (length d =? 0); reflexivity.
Qed.

Lemma snippet_list_sorted_witness :
  fst (refresh_snippet_list (lit "MAIL") (lit "Email") default_snippets)
  = [(lit "/sig", lit "Email")] /\
  map fst (fst (refresh_snippet_list [] all_categories default_snippets))
  = map lit ["/addr"; "/date"; "/datetime"; "/meeting"; "/sig";
             "/time"]%string.
Proof.
  split; [vm_compute; reflexivity|].
  destruct (snippet_list_sorted [] all_categories default_snippets
              ManagerProperties.default_snippets_distinct) as (_ & _ & H).
  destruct (H eq_refl eq_refl) as [E _]. rewrite E. vm_compute. reflexivity.
Defined.

End ApplicationProperties.
